(** * IncreCache: the LFU cache of [ILfuCache.h]

    A shallow embedding of [FreqList], [ILfuCache] and [KHashLfuCache] and
    the properties of the cache that follow from the code.

    Representation.
    - A [Node] is a record with the fields [freq], [key] and [value] of the
      C++ struct.  Nodes live in an arena ([nodes]); a [NodePtr] of the source
      is an index into the arena.  The [pre]/[next] links of a node are
      represented by the position of its index in the list that stands for
      the [FreqList] it is linked into.
    - [nodeMap_] is a finite map from keys to arena indices;
      [freqToFreqList_] is a finite map from frequencies to bucket contents
      (head first).  A [FreqList*] that is missing from the map is the null
      pointer [operator[]] would hand out: dereferencing it is undefined
      behaviour, which an operation reports by returning [None].
    - [int] fields are integers of [Z].  The conversions the source performs
      when an [int] meets a [size_t] are written out ([to_size_t], [to_int]).
      Signed overflow is undefined behaviour in C++; the embedding computes
      frequencies and the running total in [Z], and [new_run_fits] shows
      that with a ceiling of at least 0 no such field leaves the range of
      [int] during the first [INT_MAX] operations, where the two agree.  The
      theorems that state the value of a frequency or of the running total
      are stated for that domain.  (With a negative ceiling the aging pass
      raises the frequencies, and an overflow takes few operations.)
    - The mutex is not modelled: operations are sequential state
      transformers. *)

From stdpp Require Import gmap list strings fin_maps.

Open Scope Z_scope.
Set Warnings "-clear-no-such-hyp".

(** ** Integer conversions of the source *)

Definition INT8_MAX : Z := 127.
Definition INT_MAX : Z := 2147483647.
Definition INT_MIN : Z := -2147483648.

(** [int] to [size_t] (64 bits): reduction modulo 2^64. *)
Definition to_size_t (z : Z) : Z := z mod 2 ^ 64.

(** [size_t] to [int]: reduction to the 32-bit two's complement range. *)
Definition to_int (z : Z) : Z := (z + 2 ^ 31) mod 2 ^ 32 - 2 ^ 31.

(** ** Default construction

    The templates default-construct keys and values: [Node()] for the
    sentinels of a bucket, [Value value;] in the convenience [get].  For a
    class type such as [std::string] that is its default constructor.  A
    scalar is left uninitialised by the source: [construct] then stands for
    whatever the object holds, and the general theorems, which are stated
    for every instance of the class, hold for each such value.  The
    scenarios use [std::string] keys, whose sentinel key is the empty
    string; the instance for [Z] serves their values, and no scenario reads
    it. *)

Class DefaultConstructible (T : Type) := construct : T.

#[global] Instance string_construct : DefaultConstructible string := EmptyString.
#[global] Instance Z_construct : DefaultConstructible Z := 0.

(** ** FreqList: one frequency bucket

    The list holds the nodes between the two sentinels, head first. *)

Module FreqList.

Definition isEmpty (fl : list nat) : bool :=
  match fl with [] => true | _ :: _ => false end.

(** [addNode] links the node in front of the tail sentinel. *)
Definition addNode (p : nat) (fl : list nat) : list nat := fl ++ [p].

(** [removeNode] unlinks the node from its neighbours; a node that is not
    linked ([next] is null) is left alone. *)
Definition removeNode (p : nat) (fl : list nat) : list nat :=
  filter (λ q, q ≠ p) fl.

(** [getFirstNode] is [head_->next]: the oldest node, or the tail sentinel
    ([None]) when the bucket is empty. *)
Definition getFirstNode (fl : list nat) : option nat := head fl.

End FreqList.

Section ILfuCache.

Context {Key : Type} `{Countable Key} {Value : Type}.
Context `{!DefaultConstructible Key, !DefaultConstructible Value}.

Record Node := mkNode { freq : Z; key : Key; value : Value }.

Definition set_freq (f : Z) (n : Node) : Node := mkNode f (key n) (value n).
Definition set_value (v : Value) (n : Node) : Node := mkNode (freq n) (key n) v.

(** The tail sentinel of a bucket: [Node()] has [freq = 1], its key and
    value are default-initialised, and its [next] stays null.  [kickOut]
    reads its key and its frequency when it meets an empty bucket. *)
Definition tailNode : Node := mkNode 1 construct construct.

Record ILfuCache := mkCache {
  capacity_ : Z;
  minFreq_ : Z;
  maxAverageNum_ : Z;
  curAverageNum_ : Z;
  curTotalNum_ : Z;
  nodeMap_ : gmap Key nat;
  freqToFreqList_ : gmap Z (list nat);
  nodes : list Node
}.

Definition set_minFreq (x : Z) (c : ILfuCache) : ILfuCache :=
  mkCache (capacity_ c) x (maxAverageNum_ c) (curAverageNum_ c)
          (curTotalNum_ c) (nodeMap_ c) (freqToFreqList_ c) (nodes c).
Definition set_curAverageNum (x : Z) (c : ILfuCache) : ILfuCache :=
  mkCache (capacity_ c) (minFreq_ c) (maxAverageNum_ c) x
          (curTotalNum_ c) (nodeMap_ c) (freqToFreqList_ c) (nodes c).
Definition set_curTotalNum (x : Z) (c : ILfuCache) : ILfuCache :=
  mkCache (capacity_ c) (minFreq_ c) (maxAverageNum_ c) (curAverageNum_ c)
          x (nodeMap_ c) (freqToFreqList_ c) (nodes c).
Definition set_nodeMap (m : gmap Key nat) (c : ILfuCache) : ILfuCache :=
  mkCache (capacity_ c) (minFreq_ c) (maxAverageNum_ c) (curAverageNum_ c)
          (curTotalNum_ c) m (freqToFreqList_ c) (nodes c).
Definition set_freqToFreqList (b : gmap Z (list nat)) (c : ILfuCache)
  : ILfuCache :=
  mkCache (capacity_ c) (minFreq_ c) (maxAverageNum_ c) (curAverageNum_ c)
          (curTotalNum_ c) (nodeMap_ c) b (nodes c).
Definition set_nodes (h : list Node) (c : ILfuCache) : ILfuCache :=
  mkCache (capacity_ c) (minFreq_ c) (maxAverageNum_ c) (curAverageNum_ c)
          (curTotalNum_ c) (nodeMap_ c) (freqToFreqList_ c) h.

(** The constructor. *)
Definition ILfuCache_new (capacity maxAverageNum : Z) : ILfuCache :=
  mkCache capacity INT8_MAX maxAverageNum 0 0 ∅ ∅ [].

(** ** Private helpers *)

(** [removeFromFreqList]: [freqToFreqList_[freq]->removeNode(node)].  The
    bucket of the node's frequency must exist; the unlinking itself only
    touches the node's neighbours, wherever the node is linked. *)
Definition removeFromFreqList (p : nat) (c : ILfuCache) : option ILfuCache :=
  node ← nodes c !! p;
  _ ← freqToFreqList_ c !! freq node;
  Some (set_freqToFreqList (FreqList.removeNode p <$> freqToFreqList_ c) c).

(** [addToFreqList]: the bucket is created when it does not exist. *)
Definition addToFreqList (p : nat) (c : ILfuCache) : option ILfuCache :=
  node ← nodes c !! p;
  let fl := default [] (freqToFreqList_ c !! freq node) in
  Some (set_freqToFreqList
          (<[freq node := FreqList.addNode p fl]> (freqToFreqList_ c)) c).

(** [curTotalNum_ / nodeMap_.size()]: the [int] is converted to [size_t],
    the quotient is stored back into an [int]. *)
Definition average (c : ILfuCache) : Z :=
  if bool_decide (size (nodeMap_ c) = 0%nat) then 0
  else to_int (to_size_t (curTotalNum_ c) / Z.of_nat (size (nodeMap_ c))).

(** The loop of [updateMinFreq]: the minimum of [INT8_MAX] and of the
    frequencies of the non-empty buckets. *)
Definition scanMinFreq (b : gmap Z (list nat)) : Z :=
  map_fold (λ f fl acc, if FreqList.isEmpty fl then acc else Z.min acc f)
           INT8_MAX b.

(** What [updateMinFreq] stores: 1 when the scan ends on [INT8_MAX]. *)
Definition recomputedMinFreq (b : gmap Z (list nat)) : Z :=
  let m := scanMinFreq b in
  if bool_decide (m = INT8_MAX) then 1 else m.

Definition updateMinFreq (c : ILfuCache) : ILfuCache :=
  set_minFreq (recomputedMinFreq (freqToFreqList_ c)) c.

(** [node->freq -= maxAverageNum_ / 2; if (node->freq < 1) node->freq = 1;]
    ([/] on [int] truncates towards zero).  For a ceiling of at least 0 and
    a frequency between 1 and [INT_MAX] the difference is within the range
    of [int]. *)
Definition agedFreq (maxAverageNum f : Z) : Z :=
  let f' := f - maxAverageNum `quot` 2 in
  if bool_decide (f' < 1) then 1 else f'.

(** The body of the loop of [handleOverMaxAverageNum] for one node. *)
Definition ageNode (p : nat) (c : ILfuCache) : option ILfuCache :=
  c1 ← removeFromFreqList p c;
  node ← nodes c1 !! p;
  let node' := set_freq (agedFreq (maxAverageNum_ c1) (freq node)) node in
  addToFreqList p (set_nodes (<[p := node']> (nodes c1)) c1).

Fixpoint ageAll (ps : list nat) (c : ILfuCache) : option ILfuCache :=
  match ps with
  | [] => Some c
  | p :: ps' => c' ← ageNode p c; ageAll ps' c'
  end.

(** The loop runs over [nodeMap_] in the map's iteration order, which
    [std::unordered_map] leaves unspecified; [map_to_list] stands for it. *)
Definition handleOverMaxAverageNum (c : ILfuCache) : option ILfuCache :=
  if bool_decide (size (nodeMap_ c) = 0%nat) then Some c
  else c' ← ageAll (map_to_list (nodeMap_ c)).*2 c;
       Some (updateMinFreq c').

(** [addFreqNum]: [curTotalNum_++], the average, and the aging pass when
    the average exceeds the ceiling.  The increment is computed in [Z]; it
    is the source's as long as the total is below [INT_MAX]
    ([new_run_fits]). *)
Definition addFreqNum (c : ILfuCache) : option ILfuCache :=
  let c1 := set_curTotalNum (curTotalNum_ c + 1) c in
  let c2 := set_curAverageNum (average c1) c1 in
  if bool_decide (curAverageNum_ c2 > maxAverageNum_ c2)
  then handleOverMaxAverageNum c2
  else Some c2.

Definition decreaseFreqNum (num : Z) (c : ILfuCache) : ILfuCache :=
  let c1 := set_curTotalNum (curTotalNum_ c - num) c in
  set_curAverageNum (average c1) c1.

(** [kickOut].  When the bucket of [minFreq_] is empty, [getFirstNode]
    returns its tail sentinel: [removeNode] leaves it alone, its default key
    is erased from the index, and its frequency 1 is subtracted. *)
Definition kickOut (c : ILfuCache) : option ILfuCache :=
  fl ← freqToFreqList_ c !! minFreq_ c;
  match FreqList.getFirstNode fl with
  | Some p =>
      node ← nodes c !! p;
      c1 ← removeFromFreqList p c;
      Some (decreaseFreqNum (freq node)
              (set_nodeMap (delete (key node) (nodeMap_ c1)) c1))
  | None =>
      _ ← freqToFreqList_ c !! freq tailNode;
      Some (decreaseFreqNum (freq tailNode)
              (set_nodeMap (delete (key tailNode) (nodeMap_ c)) c))
  end.

(** [getInternal]: returns the new state and the value written to the
    out-parameter.  [node->freq++] and [minFreq_++] are computed in [Z];
    they are the source's as long as the frequency is below [INT_MAX]
    ([new_run_fits]). *)
Definition getInternal (p : nat) (c : ILfuCache)
  : option (ILfuCache * Value) :=
  node ← nodes c !! p;
  c1 ← removeFromFreqList p c;
  let node' := set_freq (freq node + 1) node in
  c2 ← addToFreqList p (set_nodes (<[p := node']> (nodes c1)) c1);
  c3 ← (if bool_decide (freq node' - 1 = minFreq_ c2) then
          fl ← freqToFreqList_ c2 !! (freq node' - 1);
          Some (if FreqList.isEmpty fl
                then set_minFreq (minFreq_ c2 + 1) c2 else c2)
        else Some c2);
  c4 ← addFreqNum c3;
  Some (c4, value node).

Definition putInternal (k : Key) (v : Value) (c : ILfuCache)
  : option ILfuCache :=
  c1 ← (if bool_decide (Z.of_nat (size (nodeMap_ c)) = to_size_t (capacity_ c))
        then kickOut c else Some c);
  let p := length (nodes c1) in
  let c2 := set_nodeMap (<[k := p]> (nodeMap_ c1))
              (set_nodes (nodes c1 ++ [mkNode 1 k v]) c1) in
  c3 ← addToFreqList p c2;
  c4 ← addFreqNum c3;
  Some (set_minFreq (Z.min (minFreq_ c4) 1) c4).

(** ** Public operations *)

Definition put (k : Key) (v : Value) (c : ILfuCache) : option ILfuCache :=
  if bool_decide (capacity_ c = 0) then Some c
  else match nodeMap_ c !! k with
       | Some p =>
           node ← nodes c !! p;
           fst <$> getInternal p
                     (set_nodes (<[p := set_value v node]> (nodes c)) c)
       | None => putInternal k v c
       end.

(** [bool get(Key, Value&)]: the state, the result and the contents of the
    out-parameter, which holds [out] before the call. *)
Definition get (k : Key) (out : Value) (c : ILfuCache)
  : option (ILfuCache * bool * Value) :=
  match nodeMap_ c !! k with
  | Some p => '(c', v) ← getInternal p c; Some (c', true, v)
  | None => Some (c, false, out)
  end.

(** [Value get(Key)]: the convenience form. *)
Definition get_value (k : Key) (c : ILfuCache) : option (ILfuCache * Value) :=
  '(c', _, v) ← get k construct c; Some (c', v).

Definition purge (c : ILfuCache) : ILfuCache :=
  set_freqToFreqList ∅ (set_nodeMap ∅ c).

(** ** Sequences of operations *)

Inductive Op :=
  | OpPut (k : Key) (v : Value)
  | OpGet (k : Key)
  | OpPurge.

Definition step (o : Op) (c : ILfuCache) : option ILfuCache :=
  match o with
  | OpPut k v => put k v c
  | OpGet k => (λ r, r.1.1) <$> get k construct c
  | OpPurge => Some (purge c)
  end.

Fixpoint run (ops : list Op) (c : ILfuCache) : option ILfuCache :=
  match ops with
  | [] => Some c
  | o :: ops' => c' ← step o c; run ops' c'
  end.

(** The states a cache built with the given parameters can be in. *)
Definition reachable (capacity maxAverageNum : Z) (c : ILfuCache) : Prop :=
  ∃ ops, run ops (ILfuCache_new capacity maxAverageNum) = Some c.

(** ** Observations *)

Definition liveCount (c : ILfuCache) : nat := size (nodeMap_ c).

(** The node a key is mapped to. *)
Definition entry (k : Key) (c : ILfuCache) : option Node :=
  p ← nodeMap_ c !! k; nodes c !! p.

(** The contents of the bucket of a frequency (empty when not allocated). *)
Definition bucket (f : Z) (c : ILfuCache) : list nat :=
  default [] (freqToFreqList_ c !! f).

(** The sum of the frequency counts of the live entries. *)
Definition totalFreq (c : ILfuCache) : Z :=
  map_fold (λ _ p acc, acc + from_option freq 0 (nodes c !! p)) 0 (nodeMap_ c).

(** ** The representation invariant

    [linked]: what the code keeps true of the index, the buckets and the
    arena between two operations.  [ready] adds what [kickOut] relies on. *)

Record linked (c : ILfuCache) : Prop := {
  (* every indexed key points to its own node, linked into the bucket of
     the node's frequency *)
  linked_index : ∀ k p, nodeMap_ c !! k = Some p →
    ∃ n, nodes c !! p = Some n ∧ key n = k ∧ p ∈ bucket (freq n) c;
  (* a node linked into a bucket has the bucket's frequency *)
  linked_bucket : ∀ f fl p, freqToFreqList_ c !! f = Some fl → p ∈ fl →
    ∃ n, nodes c !! p = Some n ∧ freq n = f;
  (* a node is linked at most once *)
  linked_nodup : ∀ f fl, freqToFreqList_ c !! f = Some fl → NoDup fl;
  (* frequencies start at 1 *)
  linked_pos : ∀ f, is_Some (freqToFreqList_ c !! f) → 1 ≤ f
}.

Record ready (c : ILfuCache) : Prop := {
  ready_linked : linked c;
  ready_capacity : INT_MIN ≤ capacity_ c ≤ INT_MAX;
  ready_minFreq : 1 ≤ minFreq_ c;
  (* once an entry exists, bucket 1 and the bucket of minFreq_ exist *)
  ready_alloc : nodeMap_ c ≠ ∅ →
    is_Some (freqToFreqList_ c !! 1) ∧
    is_Some (freqToFreqList_ c !! minFreq_ c)
}.

(** The pointers the index holds, in iteration order. *)
Definition livePtrs (c : ILfuCache) : list nat := (map_to_list (nodeMap_ c)).*2.

(** The arena after an aging pass over the pointers [ps]. *)
Definition agedNode (m : Z) (ps : list nat) (q : nat) (n : Node) : Node :=
  if bool_decide (q ∈ ps) then set_freq (agedFreq m (freq n)) n else n.

(** What the private helpers leave alone: the configuration and the index;
    buckets are never deallocated. *)
Record moved (c c' : ILfuCache) : Prop := {
  moved_capacity : capacity_ c' = capacity_ c;
  moved_maxAverageNum : maxAverageNum_ c' = maxAverageNum_ c;
  moved_nodeMap : nodeMap_ c' = nodeMap_ c;
  moved_alloc : ∀ f, is_Some (freqToFreqList_ c !! f) →
                     is_Some (freqToFreqList_ c' !! f)
}.

(** The test of [addFreqNum]: the average after the increment exceeds the
    ceiling. *)
Definition agingFires (c : ILfuCache) : Prop :=
  average (set_curTotalNum (curTotalNum_ c + 1) c) > maxAverageNum_ c.

#[global] Instance agingFires_dec (c : ILfuCache) : Decision (agingFires c).
Proof. unfold agingFires. apply _. Defined.

(** The state of [putInternal] before it calls [addFreqNum]: a node of
    frequency 1 is allocated, indexed and linked at the tail of bucket 1. *)
Definition inserted (k : Key) (v : Value) (c : ILfuCache) : ILfuCache :=
  let p := length (nodes c) in
  set_freqToFreqList
    (<[1 := FreqList.addNode p (bucket 1 c)]> (freqToFreqList_ c))
    (set_nodeMap (<[k := p]> (nodeMap_ c))
       (set_nodes (nodes c ++ [mkNode 1 k v]) c)).

(** Keys and values stay where they are in the arena. *)
Definition payloadKept (c c' : ILfuCache) : Prop :=
  ∀ q n, nodes c !! q = Some n →
    ∃ n', nodes c' !! q = Some n' ∧ key n' = key n ∧ value n' = value n.

(** The states in which [getInternal] and [putInternal] call
    [addFreqNum]: the moved or new node is linked already, bucket 1 exists,
    [minFreq_] may still be the one of the previous state. *)
Record primed (c : ILfuCache) : Prop := {
  primed_linked : linked c;
  primed_capacity : INT_MIN ≤ capacity_ c ≤ INT_MAX;
  primed_minFreq : 1 ≤ minFreq_ c;
  primed_alloc : is_Some (freqToFreqList_ c !! 1)
}.

(** What a caller sees of [get]: the result and the out-parameter. *)
Definition observe (r : option (ILfuCache * bool * Value))
  : option (bool * Value) :=
  (λ x, (x.1.2, x.2)) <$> r.

(** The state after a node has been unlinked, given the frequency [f] and
    linked again: the common part of [getInternal] and of the aging loop. *)
Definition relinked (p : nat) (f : Z) (node : Node) (c : ILfuCache)
  : ILfuCache :=
  let b := FreqList.removeNode p <$> freqToFreqList_ c in
  set_freqToFreqList
    (<[f := FreqList.addNode p (default [] (b !! f))]> b)
    (set_nodes (<[p := set_freq f node]> (nodes c)) c).

(** The state of [getInternal] before it calls [addFreqNum]: the node is
    relinked one frequency up, and [minFreq_] follows it when it was the last
    node of the minimum bucket. *)
Definition bumped (p : nat) (node : Node) (c : ILfuCache) : ILfuCache :=
  let c2 := relinked p (freq node + 1) node c in
  if bool_decide (freq node = minFreq_ c)
     && FreqList.isEmpty (bucket (freq node) c2)
  then set_minFreq (minFreq_ c + 1) c2 else c2.

(** ** Bookkeeping of frequencies *)

(** The frequency stored at an arena index (0 for an index out of range). *)
Definition freqAt (c : ILfuCache) (p : nat) : Z :=
  from_option freq 0 (nodes c !! p).

(** The sum of [g] over the pointers an index holds; [totalFreq c] is
    [sumOver (freqAt c) (nodeMap_ c)]. *)
Definition sumOver (g : nat → Z) (m : gmap Key nat) : Z :=
  map_fold (λ _ p acc, acc + g p) 0 m.

Definition isPurge (o : Op) : bool :=
  match o with OpPurge => true | _ => false end.

(** Sequences of [put] and [get] only. *)
Definition purgeFree (ops : list Op) : Prop :=
  Forall (λ o, isPurge o = false) ops.

(** What holds of a cache as long as no aging pass has left every live
    entry at [INT8_MAX] or more: every linked node is indexed, [minFreq_]
    is the least frequency of a non-empty bucket, the index is within the
    capacity, and the running total covers the frequencies of the live
    entries. *)
Record exact (c : ILfuCache) : Prop := {
  exact_ready : ready c;
  exact_live : ∀ f fl p, freqToFreqList_ c !! f = Some fl → p ∈ fl →
    ∃ k, nodeMap_ c !! k = Some p;
  exact_min : nodeMap_ c ≠ ∅ →
    (∃ p, p ∈ bucket (minFreq_ c) c) ∧
    ∀ f p, p ∈ bucket f c → minFreq_ c ≤ f;
  exact_size : Z.of_nat (size (nodeMap_ c)) ≤ capacity_ c;
  exact_total : totalFreq c ≤ curTotalNum_ c
}.

(** Every node linked in a bucket belongs to a cached key. *)
Definition noStale (c : ILfuCache) : Prop :=
  ∀ f fl p, freqToFreqList_ c !! f = Some fl → p ∈ fl →
    ∃ k, nodeMap_ c !! k = Some p.

(** [minFreq_] of a non-empty cache is at most the ceiling. *)
Definition lowMin (c : ILfuCache) : Prop :=
  nodeMap_ c ≠ ∅ → minFreq_ c ≤ maxAverageNum_ c.

(** An exact cache of the given capacity and ceiling whose running total
    is at most [t]. *)
Definition steady (t capacity maxAverageNum : Z) (c : ILfuCache) : Prop :=
  exact c ∧ lowMin c ∧ curTotalNum_ c ≤ t ∧
  capacity_ c = capacity ∧ maxAverageNum_ c = maxAverageNum.

(** The state of [addFreqNum] when it tests the average: the total is
    incremented and the average recomputed. *)
Definition counted (c : ILfuCache) : ILfuCache :=
  let c1 := set_curTotalNum (curTotalNum_ c + 1) c in
  set_curAverageNum (average c1) c1.

(** ** The range of the [int] fields *)

(** The frequencies of the linked nodes, added up bucket by bucket. *)
Definition weight (b : gmap Z (list nat)) : Z :=
  map_fold (λ f fl acc, acc + f * Z.of_nat (length fl)) 0 b.

(** What [t] operations can have done to the [int] fields: every node of
    the arena has a frequency between 1 and [t], the running total is at
    most [t] and falls short of the frequencies of the linked nodes by at
    most [t], and [minFreq_] is at most [max INT8_MAX t]. *)
Record fits (t : Z) (c : ILfuCache) : Prop := {
  fits_freq : ∀ p n, nodes c !! p = Some n → 1 ≤ freq n ≤ t;
  fits_total : weight (freqToFreqList_ c) - t ≤ curTotalNum_ c ≤ t;
  fits_minFreq : minFreq_ c ≤ Z.max INT8_MAX t
}.

End ILfuCache.

(** ** KHashLfuCache: the sharded wrapper *)

Module KHash.
Section KHashLfuCache.

Context {Key : Type} `{Countable Key} {Value : Type}.
Context `{!DefaultConstructible Key, !DefaultConstructible Value}.

(** [std::hash<Key>], a function of the key alone; its values are of type
    [size_t]. *)
Variable Hash : Key → Z.

(** What [std::thread::hardware_concurrency()] returns. *)
Variable hardware_concurrency : Z.

Record KHashLfuCache := mkSharded {
  capacity_ : Z;
  sliceNum_ : Z;
  lfuSliceCaches_ : list (@ILfuCache Key _ _ Value)
}.

(** The constructor.  [std::ceil(capacity_ / double(sliceNum_))] is the
    ceiling of the quotient (the [double] arithmetic is exact for capacities
    below 2^53); it is narrowed to the [int] the shard constructor takes. *)
Definition sliceSize (capacity sliceNum : Z) : Z := - ((- capacity) / sliceNum).

Definition KHashLfuCache_new (capacity sliceNum maxAverageNum : Z)
  : KHashLfuCache :=
  let n := if bool_decide (sliceNum > 0) then sliceNum
           else to_int hardware_concurrency in
  mkSharded capacity n
    (replicate (Z.to_nat n)
       (ILfuCache_new (to_int (sliceSize capacity n)) maxAverageNum)).

(** [Hash(key) % sliceNum_], computed in [size_t]; a zero divisor is
    undefined behaviour. *)
Definition sliceIndex (k : Key) (kc : KHashLfuCache) : option nat :=
  let n := to_size_t (sliceNum_ kc) in
  if bool_decide (n = 0) then None else Some (Z.to_nat (Hash k `mod` n)).

Definition set_slice (i : nat) (c : ILfuCache) (kc : KHashLfuCache)
  : KHashLfuCache :=
  mkSharded (capacity_ kc) (sliceNum_ kc) (<[i := c]> (lfuSliceCaches_ kc)).

Definition put (k : Key) (v : Value) (kc : KHashLfuCache)
  : option KHashLfuCache :=
  i ← sliceIndex k kc;
  c ← lfuSliceCaches_ kc !! i;
  c' ← put k v c;
  Some (set_slice i c' kc).

Definition get (k : Key) (out : Value) (kc : KHashLfuCache)
  : option (KHashLfuCache * bool * Value) :=
  i ← sliceIndex k kc;
  c ← lfuSliceCaches_ kc !! i;
  '(c', found, v) ← get k out c;
  Some (set_slice i c' kc, found, v).

Definition get_value (k : Key) (kc : KHashLfuCache)
  : option (KHashLfuCache * Value) :=
  '(kc', _, v) ← get k construct kc; Some (kc', v).

Definition purge (kc : KHashLfuCache) : KHashLfuCache :=
  mkSharded (capacity_ kc) (sliceNum_ kc) (purge <$> lfuSliceCaches_ kc).

(** Sequences of operations on the sharded cache. *)
Definition step (o : Op) (kc : KHashLfuCache) : option KHashLfuCache :=
  match o with
  | OpPut k v => put k v kc
  | OpGet k => (λ r, r.1.1) <$> get k construct kc
  | OpPurge => Some (purge kc)
  end.

Fixpoint run (ops : list Op) (kc : KHashLfuCache) : option KHashLfuCache :=
  match ops with
  | [] => Some kc
  | o :: ops' => kc' ← step o kc; run ops' kc'
  end.

(** The number of entries in all shards. *)
Definition liveCount (kc : KHashLfuCache) : nat :=
  sum_list (liveCount <$> lfuSliceCaches_ kc).

(** A sharded cache whose shards are all usable: as many shards as
    [sliceNum_] says, each a state of an [ILfuCache] of capacity at least
    1. *)
Definition usable (kc : KHashLfuCache) : Prop :=
  0 < sliceNum_ kc ≤ INT_MAX ∧
  length (lfuSliceCaches_ kc) = Z.to_nat (sliceNum_ kc) ∧
  Forall (λ c, ∃ cap m, 1 ≤ cap ≤ INT_MAX ∧ reachable cap m c)
         (lfuSliceCaches_ kc).

End KHashLfuCache.
End KHash.

(** ** Concrete caches

    String keys and integer values, for the scenarios of the
    specification. *)

Module Scenario.

Abbreviation Cache := (@ILfuCache string _ _ Z).

(** Capacity 2: [put(A,1)], [put(B,2)], [get(A)], [put(C,3)]. *)
Definition tieBreak : list (@Op string Z) :=
  [OpPut "A" 1; OpPut "B" 2; OpGet "A"; OpPut "C" 3].

(** [put(A,1)] followed by [n] times [get(A)]. *)
Definition hot (n : nat) : list (@Op string Z) :=
  OpPut "A" 1 :: replicate n (OpGet "A").

(** The frequencies whose bucket holds a node. *)
Definition nonEmptyFreqs (c : Cache) : list Z :=
  (filter (λ x, x.2 ≠ []) (map_to_list (freqToFreqList_ c))).*1.

(** A cache of capacity 1 and ceiling 2 after [put(A,1)], [get(A)]. *)
Definition warm : Cache :=
  default (ILfuCache_new 1 2) (run (hot 1) (ILfuCache_new 1 2)).

(** The cache of [tieBreak] before its last operation. *)
Definition full : Cache :=
  default (ILfuCache_new 2 1000000)
          (run (take 3 tieBreak) (ILfuCache_new 2 1000000)).

(** The cache of [tieBreak] after its last operation. *)
Definition tieBroken : Cache :=
  default (ILfuCache_new 2 1000000)
          (run tieBreak (ILfuCache_new 2 1000000)).

(** A cache of capacity 2 and ceiling 1 after [put(A,1)], [put(B,2)],
    [get(A)]; the next access runs the aging pass. *)
Definition tepid : Cache :=
  default (ILfuCache_new 2 1) (run (take 3 tieBreak) (ILfuCache_new 2 1)).

(** Capacity 2 and ceiling 2: the second [get(A)] runs the aging pass. *)
Definition churn : list (@Op string Z) :=
  [OpPut "A" 1; OpGet "A"; OpGet "A"; OpPut "B" 2; OpGet "B"].

(** The cache of [churn] after its last operation. *)
Definition churned : Cache :=
  default (ILfuCache_new 2 2) (run churn (ILfuCache_new 2 2)).

(** Capacity 1 and ceiling 251: [put(A,1)], 251 times [get(A)],
    [put(B,2)]. *)
Definition overheat : list (@Op string Z) := hot 251 ++ [OpPut "B" 2].

(** Capacity 2 and ceiling 2: [put(A,1)], [put(B,2)] and three times
    [get(A)]; the next access takes the average to 3. *)
Definition favour : list (@Op string Z) :=
  [OpPut "A" 1; OpPut "B" 2; OpGet "A"; OpGet "A"; OpGet "A"].

(** The cache of [favour] after its last operation. *)
Definition favoured : Cache :=
  default (ILfuCache_new 2 2) (run favour (ILfuCache_new 2 2)).

(** Capacity 2 and ceiling 1: [put(X,1)], [put(,2)] (the empty key), 126
    times [get(X)] and 127 times [get()]. *)
Definition lopsided : list (@Op string Z) :=
  [OpPut "X" 1; OpPut EmptyString 2] ++ replicate 126 (OpGet "X")
    ++ replicate 127 (OpGet EmptyString).

(** Capacity 1 and ceiling 1: [put(A,1)], 126 times [get(A)], [put(B,2)]. *)
Definition crowd : list (@Op string Z) := hot 126 ++ [OpPut "B" 2].

(** The cache of [crowd] after its last operation. *)
Definition crowded : Cache :=
  default (ILfuCache_new 1 1) (run crowd (ILfuCache_new 1 1)).

(** [KHashLfuCache(4, 2)] on a machine with 8 hardware threads: two
    shards of capacity 2, with the default ceiling 10. *)
Definition twoShards : @KHash.KHashLfuCache string _ _ Z :=
  KHash.KHashLfuCache_new 8 4 2 10.

(** A stand-in for [std::hash<std::string>]: the length of the key. *)
Definition lengthHash (k : string) : Z := Z.of_nat (String.length k).

(** [twoShards] after [put(A,1)] and [put(BB,2)], which [lengthHash] routes
    to shard 1 and to shard 0. *)
Definition shardsAB : @KHash.KHashLfuCache string _ _ Z :=
  default twoShards
    (KHash.run lengthHash [OpPut "A" 1; OpPut "BB" 2] twoShards).

End Scenario.

(** * Properties *)

Section Properties.

Context {Key : Type} `{Countable Key} {Value : Type}.
Context `{!DefaultConstructible Key, !DefaultConstructible Value}.

Implicit Types (c : @ILfuCache Key _ _ Value) (n node : @Node Key Value).
Implicit Types (p q : nat) (f : Z) (fl : list nat) (k : Key) (v : Value).

(** ** Buckets of a relinked node *)

Lemma removeNode_elem p q fl :
  q ∈ FreqList.removeNode p fl ↔ q ≠ p ∧ q ∈ fl.
Proof. unfold FreqList.removeNode. by rewrite list_elem_of_filter. Qed.

Lemma removeNode_NoDup p fl : NoDup fl → NoDup (FreqList.removeNode p fl).
Proof. intros. by apply NoDup_filter. Qed.

Lemma relinked_lookup p f node c f0 :
  freqToFreqList_ (relinked p f node c) !! f0 =
  if decide (f = f0)
  then Some (FreqList.removeNode p (bucket f c) ++ [p])
  else FreqList.removeNode p <$> freqToFreqList_ c !! f0.
Proof.
  unfold relinked, bucket, FreqList.addNode. simpl.
  rewrite lookup_insert. case_decide; [|by rewrite lookup_fmap].
  rewrite lookup_fmap. by destruct (freqToFreqList_ c !! f).
Qed.

Lemma relinked_alloc p f node c f0 :
  is_Some (freqToFreqList_ c !! f0) →
  is_Some (freqToFreqList_ (relinked p f node c) !! f0).
Proof.
  intros [fl Hfl]. rewrite relinked_lookup. case_decide; [by eexists|].
  rewrite Hfl. by eexists.
Qed.

Lemma relinked_bucket_elem p f node c f0 q :
  q ∈ bucket f0 (relinked p f node c) ↔
  (f0 = f ∧ q = p) ∨ (q ≠ p ∧ q ∈ bucket f0 c).
Proof.
  unfold bucket at 1. rewrite relinked_lookup. case_decide as Hf; simpl.
  - subst f0. rewrite elem_of_app, removeNode_elem, list_elem_of_singleton.
    naive_solver.
  - unfold bucket. destruct (freqToFreqList_ c !! f0) as [fl|]; simpl.
    + rewrite removeNode_elem. naive_solver.
    + split; [by intros ?%elem_of_nil|]. intros [[]|[_ ?%elem_of_nil]]; done.
Qed.

Lemma relinked_nodes p f node c q :
  nodes c !! p = Some node →
  nodes (relinked p f node c) !! q =
  if decide (p = q) then Some (set_freq f node) else nodes c !! q.
Proof.
  intros Hp. unfold relinked. simpl. rewrite list_lookup_insert.
  apply lookup_lt_Some in Hp.
  repeat case_decide; naive_solver.
Qed.

Lemma bucket_elem f c p :
  p ∈ bucket f c ↔ ∃ fl, freqToFreqList_ c !! f = Some fl ∧ p ∈ fl.
Proof.
  unfold bucket. destruct (freqToFreqList_ c !! f) as [fl|]; simpl.
  - naive_solver.
  - split; [by intros ?%elem_of_nil|]. by intros (? & ? & ?).
Qed.

(** Relinking a node at a frequency of at least 1 keeps the structure
    linked. *)
Lemma relinked_linked p f node c :
  linked c → nodes c !! p = Some node → 1 ≤ f →
  linked (relinked p f node c).
Proof.
  intros [Hidx Hbk Hnd Hpos] Hp Hf. split.
  - intros k q Hk. change (nodeMap_ (relinked p f node c)) with (nodeMap_ c) in Hk.
    destruct (Hidx k q Hk) as (n & Hq & Hkey & Hin).
    rewrite relinked_nodes by done. case_decide as Hpq.
    + subst q. assert (n = node) as -> by congruence.
      exists (set_freq f node). split_and!; [done|done|].
      apply relinked_bucket_elem. by left.
    + exists n. split_and!; [done|done|].
      apply relinked_bucket_elem. right. split; [congruence|done].
  - intros f0 fl q Hfl Hq.
    assert (q ∈ bucket f0 (relinked p f node c)) as Hin
      by (apply bucket_elem; eauto).
    rewrite relinked_nodes by done.
    apply relinked_bucket_elem in Hin as [[-> ->]|[Hne Hin]].
    + rewrite decide_True by done. by eexists.
    + rewrite decide_False by congruence.
      apply bucket_elem in Hin as (fl0 & Hfl0 & Hin). eauto.
  - intros f0 fl. rewrite relinked_lookup. case_decide.
    + intros [= <-]. apply NoDup_app. split_and!.
      * apply removeNode_NoDup. unfold bucket.
        destruct (freqToFreqList_ c !! f) eqn:E; simpl; [eauto|constructor].
      * intros q Hq%removeNode_elem Hq'%list_elem_of_singleton. naive_solver.
      * apply NoDup_singleton.
    + destruct (freqToFreqList_ c !! f0) as [fl0|] eqn:E; [|done].
      intros [= <-]. apply removeNode_NoDup. eauto.
  - intros f0. rewrite relinked_lookup. case_decide; [intros; lia|].
    intros [fl Hfl]. apply Hpos.
    destruct (freqToFreqList_ c !! f0); [by eexists|done].
Qed.

Lemma linked_ext c c' :
  nodeMap_ c' = nodeMap_ c → freqToFreqList_ c' = freqToFreqList_ c →
  nodes c' = nodes c → linked c → linked c'.
Proof.
  intros Hm Hb Hn [Hidx Hbk Hnd Hpos].
  split; unfold bucket; rewrite ?Hm, ?Hb, ?Hn; done.
Qed.

(** ** Closed forms of the helpers *)

Lemma removeFromFreqList_Some p node c :
  nodes c !! p = Some node → is_Some (freqToFreqList_ c !! freq node) →
  removeFromFreqList p c =
  Some (set_freqToFreqList (FreqList.removeNode p <$> freqToFreqList_ c) c).
Proof.
  intros Hp [fl Hfl]. unfold removeFromFreqList. rewrite Hp. simpl.
  by rewrite Hfl.
Qed.

Lemma relink_Some p f node c :
  nodes c !! p = Some node →
  addToFreqList p
    (set_nodes (<[p := set_freq f node]> (nodes c))
       (set_freqToFreqList (FreqList.removeNode p <$> freqToFreqList_ c) c))
  = Some (relinked p f node c).
Proof.
  intros Hp. unfold addToFreqList. simpl.
  rewrite list_lookup_insert_eq by (by eapply lookup_lt_Some). done.
Qed.

Lemma ageNode_Some p node c :
  nodes c !! p = Some node → is_Some (freqToFreqList_ c !! freq node) →
  ageNode p c =
  Some (relinked p (agedFreq (maxAverageNum_ c) (freq node)) node c).
Proof.
  intros Hp Hfl. unfold ageNode.
  rewrite (removeFromFreqList_Some p node) by done. simpl. rewrite Hp. simpl.
  by rewrite <- (relink_Some p _ node c).
Qed.

Lemma agedFreq_pos m f : 1 ≤ agedFreq m f.
Proof. unfold agedFreq. case_bool_decide; lia. Qed.

Lemma agedFreq_max m f : agedFreq m f = Z.max 1 (f - m `quot` 2).
Proof. unfold agedFreq. case_bool_decide; lia. Qed.

(** ** The scan of [updateMinFreq] *)

Lemma scanMinFreq_spec (b : gmap Z (list nat)) :
  scanMinFreq b ≤ INT8_MAX ∧
  (∀ f fl, b !! f = Some fl → fl ≠ [] → scanMinFreq b ≤ f) ∧
  (scanMinFreq b = INT8_MAX ∨
   ∃ fl, b !! scanMinFreq b = Some fl ∧ fl ≠ []).
Proof.
  unfold scanMinFreq.
  apply (map_fold_weak_ind (λ r (m : gmap Z (list nat)),
    r ≤ INT8_MAX ∧
    (∀ f fl, m !! f = Some fl → fl ≠ [] → r ≤ f) ∧
    (r = INT8_MAX ∨ ∃ fl, m !! r = Some fl ∧ fl ≠ []))).
  - split_and!; [done| |by left]. intros f fl. by rewrite lookup_empty.
  - intros f fl m r Hnone (Hle & Hlow & Hex).
    destruct fl as [|a fl]; simpl.
    + split_and!; [done| |].
      * intros f0 fl0. rewrite lookup_insert. case_decide; [naive_solver|eauto].
      * destruct Hex as [->|(fl0 & Hfl0 & Hne)]; [by left|right].
        exists fl0. rewrite lookup_insert_ne; [done|congruence].
    + split_and!; [lia| |].
      * intros f0 fl0. rewrite lookup_insert. case_decide.
        -- intros _ _. subst. lia.
        -- intros ??. etrans; [apply Z.le_min_l|eauto].
      * destruct (Z.min_spec r f) as [[Hlt ->]|[Hge ->]].
        -- destruct Hex as [->|(fl0 & Hfl0 & Hne)]; [by left|right].
           exists fl0. rewrite lookup_insert_ne; [done|congruence].
        -- right. exists (a :: fl). by rewrite lookup_insert_eq.
Qed.

(** ** The aging pass *)

Lemma moved_refl c : moved c c.
Proof. by split. Qed.

Lemma moved_trans c1 c2 c3 : moved c1 c2 → moved c2 c3 → moved c1 c3.
Proof.
  intros [Ha Hb Hc Hd] [Ha' Hb' Hc' Hd'].
  split; [congruence..|]. intros f ?. by apply Hd', Hd.
Qed.

Lemma relinked_moved p f node c : moved c (relinked p f node c).
Proof. split; [done..|]. apply relinked_alloc. Qed.

Lemma livePtrs_elem c q :
  q ∈ livePtrs c ↔ ∃ k, nodeMap_ c !! k = Some q.
Proof.
  unfold livePtrs. rewrite list_elem_of_fmap. split.
  - intros ([k q'] & -> & Hin%elem_of_map_to_list). by exists k.
  - intros (k & Hk). exists (k, q). split; [done|].
    by apply elem_of_map_to_list.
Qed.

Lemma livePtrs_NoDup c : linked c → NoDup (livePtrs c).
Proof.
  intros Hl. unfold livePtrs.
  apply NoDup_fmap_2_strong; [|apply NoDup_map_to_list].
  intros [k1 p1] [k2 p2] H1%elem_of_map_to_list H2%elem_of_map_to_list.
  simpl. intros <-.
  destruct (linked_index c Hl k1 p1 H1) as (n1 & Hn1 & <- & _).
  destruct (linked_index c Hl k2 p1 H2) as (n2 & Hn2 & <- & _).
  congruence.
Qed.

Lemma agedNode_nil m q n : agedNode m [] q n = n.
Proof.
  unfold agedNode. rewrite bool_decide_eq_false_2; [done|]. apply not_elem_of_nil.
Qed.

(** The loop, for any enumeration [ps] of live nodes without repetition:
    what follows does not depend on the iteration order of the index. *)
Lemma ageAll_spec ps c :
  linked c → NoDup ps →
  (∀ p, p ∈ ps → ∃ k, nodeMap_ c !! k = Some p) →
  ∃ c', ageAll ps c = Some c' ∧ linked c' ∧ moved c c' ∧
        minFreq_ c' = minFreq_ c ∧
        curTotalNum_ c' = curTotalNum_ c ∧
        curAverageNum_ c' = curAverageNum_ c ∧
        ∀ q, nodes c' !! q = agedNode (maxAverageNum_ c) ps q <$> nodes c !! q.
Proof.
  revert c. induction ps as [|p ps IH]; intros c Hl Hnd Hlive.
  - exists c. split_and!; [done|done|apply moved_refl|done..|].
    intros q. destruct (nodes c !! q); simpl; by rewrite ?agedNode_nil.
  - apply NoDup_cons in Hnd as [Hp Hnd].
    destruct (Hlive p) as (k & Hk); [by left|].
    destruct (linked_index c Hl k p Hk) as (n & Hn & Hkey & Hin).
    apply bucket_elem in Hin as (fl & Hfl & Hin).
    simpl. rewrite (ageNode_Some p n) by (by rewrite ?Hfl). simpl.
    set (c1 := relinked p (agedFreq (maxAverageNum_ c) (freq n)) n c).
    destruct (IH c1) as (c' & Hrun & Hl' & Hmv & Hmin & Htot & Havg & Hnodes).
    + apply relinked_linked; [done|done|apply agedFreq_pos].
    + done.
    + intros q Hq. apply Hlive. by right.
    + exists c'. split_and!; [done|done| |done..|].
      * eapply moved_trans; [apply relinked_moved|done].
      * intros q. rewrite Hnodes. unfold c1 at 2.
        rewrite relinked_nodes by done.
        change (maxAverageNum_ c1) with (maxAverageNum_ c).
        case_decide as Hpq.
        -- subst q. rewrite Hn. simpl. f_equal. unfold agedNode.
           rewrite bool_decide_eq_false_2 by done.
           rewrite bool_decide_eq_true_2 by (by left). done.
        -- destruct (nodes c !! q) as [n'|]; [simpl|done]. f_equal.
           unfold agedNode.
           destruct (decide (q ∈ ps)).
           ++ rewrite !bool_decide_eq_true_2; [done|by right|done].
           ++ rewrite !bool_decide_eq_false_2; [done| |done].
              intros [?|?]%elem_of_cons; congruence.
Qed.

Lemma updateMinFreq_minFreq c :
  linked c → is_Some (freqToFreqList_ c !! 1) →
  1 ≤ minFreq_ (updateMinFreq c) ∧
  is_Some (freqToFreqList_ (updateMinFreq c) !! minFreq_ (updateMinFreq c)).
Proof.
  intros Hl H1. unfold updateMinFreq, recomputedMinFreq. simpl.
  destruct (scanMinFreq_spec (freqToFreqList_ c)) as (_ & _ & Hex).
  case_bool_decide as Hm; [done|].
  destruct Hex as [?|(fl & Hfl & _)]; [done|].
  split; [|by eexists]. eapply linked_pos; [done|by eexists].
Qed.

Lemma handleOverMaxAverageNum_spec c :
  linked c →
  ∃ c', handleOverMaxAverageNum c = Some c' ∧ linked c' ∧ moved c c' ∧
        curTotalNum_ c' = curTotalNum_ c ∧
        curAverageNum_ c' = curAverageNum_ c ∧
        (∀ q, nodes c' !! q =
              agedNode (maxAverageNum_ c) (livePtrs c) q <$> nodes c !! q) ∧
        (if bool_decide (nodeMap_ c = ∅) then minFreq_ c' = minFreq_ c
         else minFreq_ c' = recomputedMinFreq (freqToFreqList_ c')).
Proof.
  intros Hl. unfold handleOverMaxAverageNum.
  case_bool_decide as Hsz.
  - apply map_size_empty_iff in Hsz.
    exists c. rewrite bool_decide_eq_true_2 by done.
    split_and!; [done|done|apply moved_refl|done..| |done].
    intros q. unfold livePtrs. rewrite Hsz, map_to_list_empty. simpl.
    destruct (nodes c !! q); simpl; by rewrite ?agedNode_nil.
  - apply map_size_non_empty_iff in Hsz.
    destruct (ageAll_spec (livePtrs c) c Hl) as
      (c' & Hrun & Hl' & Hmv & Hmin & Htot & Havg & Hnodes).
    { by apply livePtrs_NoDup. }
    { intros p. by rewrite livePtrs_elem. }
    unfold livePtrs in Hrun. rewrite Hrun. simpl.
    exists (updateMinFreq c'). rewrite bool_decide_eq_false_2 by done.
    split_and!; [done| | |done..].
    + by eapply linked_ext; [..|exact Hl'].
    + destruct Hmv. by split.
Qed.

Lemma payloadKept_refl c : payloadKept c c.
Proof. intros q n ?. by exists n. Qed.

Lemma payloadKept_trans c1 c2 c3 :
  payloadKept c1 c2 → payloadKept c2 c3 → payloadKept c1 c3.
Proof.
  intros H12 H23 q n Hq.
  destruct (H12 q n Hq) as (n2 & Hq2 & ? & ?).
  destruct (H23 q n2 Hq2) as (n3 & Hq3 & ? & ?).
  exists n3. split_and!; congruence.
Qed.

Lemma agedNode_payload m ps q n :
  key (agedNode m ps q n) = key n ∧ value (agedNode m ps q n) = value n.
Proof. unfold agedNode. by case_bool_decide. Qed.

(** ** [addFreqNum] *)

Lemma addFreqNum_spec c :
  linked c →
  ∃ c', addFreqNum c = Some c' ∧ linked c' ∧ moved c c' ∧
        curTotalNum_ c' = curTotalNum_ c + 1 ∧
        curAverageNum_ c' = average (set_curTotalNum (curTotalNum_ c + 1) c) ∧
        (agingFires c →
           (∀ q, nodes c' !! q =
                 agedNode (maxAverageNum_ c) (livePtrs c) q <$> nodes c !! q) ∧
           (if bool_decide (nodeMap_ c = ∅) then minFreq_ c' = minFreq_ c
            else minFreq_ c' = recomputedMinFreq (freqToFreqList_ c'))) ∧
        (¬ agingFires c →
           nodes c' = nodes c ∧ freqToFreqList_ c' = freqToFreqList_ c ∧
           minFreq_ c' = minFreq_ c).
Proof.
  intros Hl. unfold addFreqNum, agingFires. simpl.
  set (c1 := set_curTotalNum (curTotalNum_ c + 1) c).
  set (c2 := set_curAverageNum (average c1) c1).
  case_bool_decide as Hfire.
  - destruct (handleOverMaxAverageNum_spec c2) as
      (c' & Hrun & Hl' & Hmv & Htot & Havg & Hnodes & Hmin).
    { by eapply linked_ext; [..|exact Hl]. }
    exists c'. split_and!; [done|done| |done|done| |done].
    + destruct Hmv. by split.
    + intros _. done.
  - exists c2. split_and!; [done| |by split|done|done|done|done].
    by eapply linked_ext; [..|exact Hl].
Qed.

Lemma addFreqNum_ready c :
  linked c → 1 ≤ minFreq_ c → is_Some (freqToFreqList_ c !! 1) →
  ∃ c', addFreqNum c = Some c' ∧ linked c' ∧ moved c c' ∧
        payloadKept c c' ∧ 1 ≤ minFreq_ c' ∧
        (minFreq_ c' = minFreq_ c ∨
         is_Some (freqToFreqList_ c' !! minFreq_ c')).
Proof.
  intros Hl Hmin H1.
  destruct (addFreqNum_spec c Hl) as
    (c' & Hrun & Hl' & Hmv & _ & _ & Hfire & Hcalm).
  exists c'. split_and!; [done..| | |].
  - intros q n Hq. destruct (decide (agingFires c)) as [Hf|Hf].
    + destruct (Hfire Hf) as [Hnodes _]. rewrite Hnodes, Hq. simpl.
      eexists. split; [done|]. apply agedNode_payload.
    + destruct (Hcalm Hf) as (-> & _). by exists n.
  - destruct (decide (agingFires c)) as [Hf|Hf].
    + destruct (Hfire Hf) as [_ Hm]. case_bool_decide; [lia|].
      rewrite Hm.
      apply (updateMinFreq_minFreq c' Hl'). by apply (moved_alloc c c').
    + destruct (Hcalm Hf) as (_ & _ & ->). done.
  - destruct (decide (agingFires c)) as [Hf|Hf].
    + destruct (Hfire Hf) as [_ Hm]. case_bool_decide; [by left|right].
      rewrite Hm.
      apply (updateMinFreq_minFreq c' Hl'). by apply (moved_alloc c c').
    + destruct (Hcalm Hf) as (_ & _ & ->). by left.
Qed.

(** ** Eviction *)

Lemma linked_erase k0 c :
  linked c → linked (set_nodeMap (delete k0 (nodeMap_ c)) c).
Proof.
  intros [Hidx Hbk Hnd Hpos]. split; [simpl|done..].
  intros k p [_ Hk]%lookup_delete_Some. by apply Hidx.
Qed.

Lemma linked_unlink p n c :
  linked c → nodes c !! p = Some n →
  linked (set_nodeMap (delete (key n) (nodeMap_ c))
            (set_freqToFreqList
               (FreqList.removeNode p <$> freqToFreqList_ c) c)).
Proof.
  intros [Hidx Hbk Hnd Hpos] Hp. split; simpl.
  - intros k q [Hne Hk]%lookup_delete_Some.
    destruct (Hidx k q Hk) as (n' & Hq & Hkey & Hin).
    exists n'. split_and!; [done..|].
    apply bucket_elem in Hin as (fl & Hfl & Hin).
    apply bucket_elem. simpl. exists (FreqList.removeNode p fl).
    rewrite lookup_fmap, Hfl. split; [done|].
    apply removeNode_elem. split; [|done]. intros ->. congruence.
  - intros f fl q. rewrite lookup_fmap.
    destruct (freqToFreqList_ c !! f) as [fl0|] eqn:E; [|done].
    intros [= <-] [_ Hq]%removeNode_elem. eauto.
  - intros f fl. rewrite lookup_fmap.
    destruct (freqToFreqList_ c !! f) as [fl0|] eqn:E; [|done].
    intros [= <-]. apply removeNode_NoDup. eauto.
  - intros f. rewrite lookup_fmap. intros [fl Hfl]. apply Hpos.
    destruct (freqToFreqList_ c !! f); [by eexists|done].
Qed.

Lemma kickOut_spec c :
  ready c → nodeMap_ c ≠ ∅ →
  ∃ c' k0, kickOut c = Some c' ∧ linked c' ∧
    capacity_ c' = capacity_ c ∧ maxAverageNum_ c' = maxAverageNum_ c ∧
    minFreq_ c' = minFreq_ c ∧ nodes c' = nodes c ∧
    nodeMap_ c' = delete k0 (nodeMap_ c) ∧
    (∀ f, is_Some (freqToFreqList_ c !! f) →
          is_Some (freqToFreqList_ c' !! f)).
Proof.
  intros [Hl Hcap Hmin Halloc] Hne.
  destruct (Halloc Hne) as [[fl1 H1] [fl Hfl]].
  unfold kickOut. rewrite Hfl. simpl. destruct fl as [|p fl]; simpl.
  - rewrite H1. simpl. eexists _, construct. split_and!; [done| |done..].
    eapply linked_ext; [..|exact (linked_erase construct c Hl)]; done.
  - destruct (linked_bucket c Hl _ _ p Hfl) as (n & Hn & Hfreq); [by left|].
    rewrite Hn. simpl.
    rewrite (removeFromFreqList_Some p n) by (by rewrite ?Hfreq, ?Hfl).
    simpl. eexists _, (key n). split_and!; [done| |done..|].
    + eapply linked_ext; [..|exact (linked_unlink p n c Hl Hn)]; done.
    + intros f [fl0 Hfl0]. simpl. rewrite lookup_fmap, Hfl0. by eexists.
Qed.

Lemma to_size_t_nonzero z :
  INT_MIN ≤ z ≤ INT_MAX → z ≠ 0 → to_size_t z ≠ 0.
Proof.
  unfold INT_MIN, INT_MAX, to_size_t. intros Hz Hne Hmod.
  change (2 ^ 64) with 18446744073709551616 in Hmod.
  pose proof (Z.div_mod z 18446744073709551616). lia.
Qed.

(** Whenever [putInternal] calls [kickOut] (the index is full, the capacity
    is not 0) the bucket of [minFreq_] is allocated and [kickOut] is
    defined. *)
Lemma kickOut_defined c :
  ready c → capacity_ c ≠ 0 →
  Z.of_nat (size (nodeMap_ c)) = to_size_t (capacity_ c) →
  is_Some (freqToFreqList_ c !! minFreq_ c) ∧ is_Some (kickOut c).
Proof.
  intros Hr Hcap Hfull.
  assert (nodeMap_ c ≠ ∅) as Hne.
  { apply map_size_non_empty_iff. intros Hsz.
    apply (to_size_t_nonzero (capacity_ c));
      [apply (ready_capacity c Hr)|done|].
    by rewrite <- Hfull, Hsz. }
  split; [by apply (ready_alloc c Hr)|].
  destruct (kickOut_spec c Hr Hne) as (c' & k0 & -> & _). by eexists.
Qed.

(** ** Insertion of a new node *)

Lemma linked_insert k v c : linked c → linked (inserted k v c).
Proof.
  intros [Hidx Hbk Hnd Hpos]. unfold inserted. set (p := length (nodes c)).
  assert (Hfresh : ∀ q, q ∈ bucket 1 c → q ≠ p).
  { intros q (fl & Hfl & Hq)%bucket_elem.
    destruct (Hbk _ _ _ Hfl Hq) as (n & Hn%lookup_lt_Some & _).
    unfold p. lia. }
  assert (Hnew : (nodes c ++ [mkNode 1 k v]) !! p = Some (mkNode 1 k v)).
  { by apply list_lookup_middle. }
  split; simpl.
  - intros k' q. rewrite lookup_insert. case_decide as Hk.
    + intros [= <-]. exists (mkNode 1 k v). split_and!; [done..|].
      unfold bucket. simpl. rewrite lookup_insert_eq. simpl.
      apply elem_of_app. right. by apply list_elem_of_singleton.
    + intros Hq. destruct (Hidx k' q Hq) as (n & Hn & Hkey & Hin).
      exists n. split_and!; [by apply lookup_app_l_Some|done|].
      unfold bucket at 1. simpl. rewrite lookup_insert. case_decide as Hf.
      * simpl. apply elem_of_app. left. by rewrite Hf.
      * done.
  - intros f fl q. rewrite lookup_insert. case_decide as Hf.
    + intros [= <-] [Hq|Hq%list_elem_of_singleton]%elem_of_app.
      * apply bucket_elem in Hq as (fl0 & Hfl0 & Hq).
        destruct (Hbk _ _ _ Hfl0 Hq) as (n & Hn & Hfreq).
        exists n. split; [by apply lookup_app_l_Some|congruence].
      * subst q. exists (mkNode 1 k v). by split.
    + intros Hfl Hq. destruct (Hbk _ _ _ Hfl Hq) as (n & Hn & Hfreq).
      exists n. split; [by apply lookup_app_l_Some|done].
  - intros f fl. rewrite lookup_insert. case_decide as Hf.
    + intros [= <-]. apply NoDup_app. split_and!.
      * unfold bucket. destruct (freqToFreqList_ c !! 1) eqn:E; simpl;
          [eauto|constructor].
      * intros q Hq ->%list_elem_of_singleton. by eapply Hfresh.
      * apply NoDup_singleton.
    + eauto.
  - intros f. rewrite lookup_insert. case_decide; [intros; lia|apply Hpos].
Qed.

(** [putInternal] calls [addFreqNum] in a primed state. *)
Lemma putInternal_Some k v c c1 :
  (if bool_decide (Z.of_nat (size (nodeMap_ c)) = to_size_t (capacity_ c))
   then kickOut c else Some c) = Some c1 →
  putInternal k v c =
  c4 ← addFreqNum (inserted k v c1);
  Some (set_minFreq (Z.min (minFreq_ c4) 1) c4).
Proof.
  intros Hc1. unfold putInternal. rewrite Hc1. simpl.
  unfold addToFreqList. simpl.
  rewrite list_lookup_middle by done. done.
Qed.

Lemma inserted_primed k v c :
  linked c → INT_MIN ≤ capacity_ c ≤ INT_MAX → 1 ≤ minFreq_ c →
  primed (inserted k v c).
Proof.
  intros Hl Hcap Hmin. split; [by apply linked_insert|done|done|].
  unfold inserted. simpl. rewrite lookup_insert_eq. by eexists.
Qed.

Lemma putInternal_spec k v c :
  ready c → capacity_ c ≠ 0 →
  ∃ c' p n, putInternal k v c = Some c' ∧ ready c' ∧
    capacity_ c' = capacity_ c ∧ maxAverageNum_ c' = maxAverageNum_ c ∧
    nodeMap_ c' !! k = Some p ∧ nodes c' !! p = Some n ∧ value n = v.
Proof.
  intros Hr Hcap0. unfold putInternal.
  assert (∃ c1, (if bool_decide (Z.of_nat (size (nodeMap_ c)) =
                                 to_size_t (capacity_ c))
                 then kickOut c else Some c) = Some c1 ∧
                linked c1 ∧ capacity_ c1 = capacity_ c ∧
                maxAverageNum_ c1 = maxAverageNum_ c ∧
                minFreq_ c1 = minFreq_ c) as
    (c1 & -> & Hl1 & Hc1 & Hm1 & Hmin1).
  { case_bool_decide as Hfull.
    - destruct (kickOut_spec c Hr) as (c1 & k0 & ? & ? & ? & ? & ? & _).
      + apply map_size_non_empty_iff. intros Hsz.
        apply (to_size_t_nonzero (capacity_ c));
          [apply (ready_capacity c Hr)|done|].
        rewrite <- Hfull, Hsz. done.
      + by exists c1.
    - exists c. split_and!; [done|apply (ready_linked c Hr)|done..]. }
  simpl.
  set (p := length (nodes c1)).
  assert ((nodes c1 ++ [mkNode 1 k v]) !! p = Some (mkNode 1 k v)) as Hnew
    by (by apply list_lookup_middle).
  unfold addToFreqList. simpl. rewrite Hnew. simpl.
  pose proof (linked_insert k v c1 Hl1) as Hl3.
  unfold inserted, bucket in Hl3. simpl in Hl3. fold p in Hl3.
  match type of Hl3 with linked ?x => set (c3 := x) in * end.
  destruct (addFreqNum_ready c3 Hl3) as
    (c4 & -> & Hl4 & Hmv & Hpay & Hmin4 & _).
  { simpl. rewrite Hmin1. apply (ready_minFreq c Hr). }
  { simpl. rewrite lookup_insert_eq. by eexists. }
  simpl. destruct (Hpay p (mkNode 1 k v) Hnew) as (n' & Hn' & _ & Hval).
  eexists _, p, n'. split_and!; [done| |simpl..].
  - split; simpl.
    + by eapply linked_ext; [..|exact Hl4].
    + rewrite (moved_capacity _ _ Hmv). simpl. rewrite Hc1.
      apply (ready_capacity c Hr).
    + lia.
    + intros _. rewrite Z.min_r by done.
      assert (is_Some (freqToFreqList_ c4 !! 1)); [|done].
      apply (moved_alloc _ _ Hmv). simpl. rewrite lookup_insert_eq.
      by eexists.
  - by rewrite (moved_capacity _ _ Hmv).
  - by rewrite (moved_maxAverageNum _ _ Hmv).
  - rewrite (moved_nodeMap _ _ Hmv). simpl. by rewrite lookup_insert_eq.
  - done.
  - done.
Qed.

(** ** Access to an existing node *)

Lemma getInternal_Some p node c :
  nodes c !! p = Some node → is_Some (freqToFreqList_ c !! freq node) →
  getInternal p c = c4 ← addFreqNum (bumped p node c); Some (c4, value node).
Proof.
  intros Hp Hfl. unfold getInternal. rewrite Hp. simpl.
  rewrite (removeFromFreqList_Some p node) by done. simpl.
  pose proof (relink_Some p (freq node + 1) node c Hp) as Hre.
  simpl in Hre. rewrite Hre. clear Hre. simpl.
  unfold bumped.
  replace (freq node + 1 - 1) with (freq node) by lia.
  change (minFreq_ (relinked p (freq node + 1) node c)) with (minFreq_ c).
  case_bool_decide as Hmin; simpl; [|done].
  destruct (relinked_alloc p (freq node + 1) node c _ Hfl) as [fl' Hfl'].
  unfold bucket. rewrite Hfl'. unfold relinked in Hfl'. simpl in Hfl'.
  rewrite Hfl'. simpl. by destruct (FreqList.isEmpty fl').
Qed.

Lemma bumped_moved p node c : moved c (bumped p node c).
Proof.
  unfold bumped.
  destruct (_ && _); [|apply relinked_moved].
  destruct (relinked_moved p (freq node + 1) node c). by split.
Qed.

Lemma bumped_nodes p node c :
  nodes (bumped p node c) = <[p := set_freq (freq node + 1) node]> (nodes c).
Proof. unfold bumped. by destruct (_ && _). Qed.

Lemma bumped_ready k p node c :
  ready c → nodeMap_ c !! k = Some p → nodes c !! p = Some node →
  ready (bumped p node c).
Proof.
  intros [Hl Hcap Hmin Halloc] Hk Hp.
  destruct Halloc as [H1 Hm]. { intros Hemp. by rewrite Hemp in Hk. }
  destruct (linked_index c Hl k p Hk) as (n & Hn & _ & Hin).
  assert (n = node) as -> by congruence.
  assert (1 ≤ freq node) as Hpos.
  { apply bucket_elem in Hin as (fl & Hfl & _).
    eapply linked_pos; [done|by eexists]. }
  pose proof (relinked_linked p (freq node + 1) node c Hl Hp) as Hl2.
  pose proof (bumped_moved p node c) as Hmv.
  split.
  - eapply linked_ext; [..|apply Hl2; lia]; unfold bumped;
      by destruct (_ && _).
  - by rewrite (moved_capacity _ _ Hmv).
  - unfold bumped. destruct (_ && _); simpl; lia.
  - intros _. split; [by apply (moved_alloc _ _ Hmv)|].
    unfold bumped. destruct (_ && _) eqn:E; simpl.
    + apply andb_true_iff in E as [E%bool_decide_eq_true _].
      rewrite <- E, lookup_insert_eq. by eexists.
    + by apply (relinked_alloc p (freq node + 1) node c).
Qed.

Lemma agingFires_ext c c' :
  nodeMap_ c' = nodeMap_ c → curTotalNum_ c' = curTotalNum_ c →
  maxAverageNum_ c' = maxAverageNum_ c → agingFires c' ↔ agingFires c.
Proof.
  intros Hm Ht Ha. unfold agingFires, average. simpl. by rewrite Hm, Ht, Ha.
Qed.

Lemma getInternal_spec k p c :
  ready c → nodeMap_ c !! k = Some p →
  ∃ n c' n', nodes c !! p = Some n ∧
    getInternal p c = Some (c', value n) ∧
    ready c' ∧ moved c c' ∧ payloadKept c c' ∧
    nodes c' !! p = Some n' ∧
    freq n' = (if decide (agingFires c)
               then agedFreq (maxAverageNum_ c) (freq n + 1)
               else freq n + 1).
Proof.
  intros Hr Hk.
  destruct (linked_index c (ready_linked c Hr) k p Hk) as (n & Hn & Hkey & Hin).
  apply bucket_elem in Hin as (fl & Hfl & Hin).
  rewrite (getInternal_Some p n) by (by rewrite ?Hfl).
  pose proof (bumped_ready k p n c Hr Hk Hn) as Hr3.
  pose proof (bumped_moved p n c) as Hmv3.
  pose proof (bumped_nodes p n c) as Hn3.
  set (c3 := bumped p n c) in *.
  assert (nodes c3 !! p = Some (set_freq (freq n + 1) n)) as Hp3.
  { rewrite Hn3. apply list_lookup_insert_eq. by eapply lookup_lt_Some. }
  assert (nodeMap_ c3 ≠ ∅) as Hne.
  { rewrite (moved_nodeMap _ _ Hmv3). intros Hemp. by rewrite Hemp in Hk. }
  destruct (ready_alloc c3 Hr3 Hne) as [H1 Hm].
  destruct (addFreqNum_spec c3 (ready_linked c3 Hr3)) as
    (c4 & Hrun & Hl4 & Hmv4 & _ & _ & Hfire & Hcalm).
  destruct (addFreqNum_ready c3 (ready_linked c3 Hr3)
              (ready_minFreq c3 Hr3) H1) as
    (c4' & Hrun' & _ & _ & Hpay & Hmin4 & Hm4).
  assert (c4' = c4) as -> by congruence.
  rewrite Hrun. simpl.
  assert (agingFires c3 ↔ agingFires c) as Hiff.
  { apply agingFires_ext; [apply Hmv3| |apply Hmv3].
    unfold c3, bumped. by destruct (_ && _). }
  assert (∃ n', nodes c4 !! p = Some n' ∧
     freq n' = (if decide (agingFires c)
                then agedFreq (maxAverageNum_ c) (freq n + 1)
                else freq n + 1)) as (n' & Hn' & Hfreq).
  { destruct (decide (agingFires c)) as [Hf|Hf].
    - destruct (Hfire (proj2 Hiff Hf)) as [Hnodes _].
      rewrite Hnodes, Hp3. simpl. eexists. split; [done|].
      unfold agedNode. rewrite bool_decide_eq_true_2.
      + simpl. by rewrite (moved_maxAverageNum _ _ Hmv3).
      + apply livePtrs_elem. exists k. by rewrite (moved_nodeMap _ _ Hmv3).
    - destruct Hcalm as (Hnodes & _); [by rewrite Hiff|].
      rewrite Hnodes, Hp3. by eexists. }
  exists n, c4, n'. split_and!; [done|done| |by eapply moved_trans| |done|done].
  - split; [done| |done|].
    + rewrite (moved_capacity _ _ Hmv4). apply (ready_capacity _ Hr3).
    + intros _. split; [by apply (moved_alloc _ _ Hmv4)|].
      destruct Hm4 as [->|?]; [by apply (moved_alloc _ _ Hmv4)|done].
  - eapply payloadKept_trans; [|exact Hpay].
    intros q n0 Hq. rewrite Hn3.
    destruct (decide (p = q)) as [->|Hne'].
    + rewrite list_lookup_insert_eq by (by eapply lookup_lt_Some).
      assert (n0 = n) as -> by congruence. by eexists.
    + rewrite list_lookup_insert_ne by done. by exists n0.
Qed.

(** ** The public operations keep the cache ready *)

Lemma linked_set_value p v n c :
  linked c → nodes c !! p = Some n →
  linked (set_nodes (<[p := set_value v n]> (nodes c)) c).
Proof.
  intros [Hidx Hbk Hnd Hpos] Hp.
  assert (∀ q n0, nodes c !! q = Some n0 →
            ∃ n1, <[p := set_value v n]> (nodes c) !! q = Some n1 ∧
                  key n1 = key n0 ∧ freq n1 = freq n0) as Hlook.
  { intros q n0 Hq. destruct (decide (p = q)) as [->|Hne].
    - rewrite list_lookup_insert_eq by (by eapply lookup_lt_Some).
      assert (n0 = n) as -> by congruence. by eexists.
    - rewrite list_lookup_insert_ne by done. by exists n0. }
  split; simpl; [| |done..].
  - intros k q Hk. destruct (Hidx k q Hk) as (n0 & Hq & Hkey & Hin).
    destruct (Hlook q n0 Hq) as (n1 & Hq1 & Hk1 & Hf1).
    exists n1. split_and!; [done|congruence|].
    unfold bucket in *. simpl. by rewrite Hf1.
  - intros f fl q Hfl Hq. destruct (Hbk f fl q Hfl Hq) as (n0 & Hq0 & Hf0).
    destruct (Hlook q n0 Hq0) as (n1 & Hq1 & _ & Hf1).
    exists n1. split; [done|congruence].
Qed.

Lemma put_spec k v c :
  ready c → capacity_ c ≠ 0 →
  ∃ c' p n, put k v c = Some c' ∧ ready c' ∧
    capacity_ c' = capacity_ c ∧ maxAverageNum_ c' = maxAverageNum_ c ∧
    nodeMap_ c' !! k = Some p ∧ nodes c' !! p = Some n ∧ value n = v.
Proof.
  intros Hr Hcap. unfold put.
  rewrite bool_decide_eq_false_2 by done.
  destruct (nodeMap_ c !! k) as [p|] eqn:Hk; [|by apply putInternal_spec].
  destruct (linked_index c (ready_linked c Hr) k p Hk) as (n & Hn & _ & _).
  rewrite Hn. simpl.
  set (c0 := set_nodes (<[p := set_value v n]> (nodes c)) c).
  assert (ready c0) as Hr0.
  { destruct Hr as [Hl ? ? ?]. split; [|done..].
    by apply linked_set_value. }
  destruct (getInternal_spec k p c0 Hr0 Hk) as
    (n0 & c' & n' & Hn0 & Hrun & Hr' & Hmv & Hpay & Hn' & _).
  rewrite Hrun. simpl.
  destruct (Hpay p n0 Hn0) as (n1 & Hn1 & _ & Hval).
  exists c', p, n1. split_and!; [done|done|apply Hmv|apply Hmv| |done|].
  - by rewrite (moved_nodeMap _ _ Hmv).
  - rewrite Hval. unfold c0 in Hn0. simpl in Hn0.
    rewrite list_lookup_insert_eq in Hn0 by (by eapply lookup_lt_Some).
    by injection Hn0 as <-.
Qed.

Lemma get_hit k out p n c :
  ready c → nodeMap_ c !! k = Some p → nodes c !! p = Some n →
  ∃ c', get k out c = Some (c', true, value n) ∧ ready c' ∧ moved c c' ∧
        payloadKept c c'.
Proof.
  intros Hr Hk Hn. unfold get. rewrite Hk.
  destruct (getInternal_spec k p c Hr Hk) as
    (n0 & c' & n' & Hn0 & Hrun & Hr' & Hmv & Hpay & _).
  assert (n0 = n) as -> by congruence.
  rewrite Hrun. simpl. by exists c'.
Qed.

Lemma get_miss k out c :
  nodeMap_ c !! k = None → get k out c = Some (c, false, out).
Proof. intros Hk. unfold get. by rewrite Hk. Qed.

(** What [purge] does: the index and the buckets are emptied, every other
    field keeps its value. *)
Lemma purge_effect c k out :
  liveCount (purge c) = 0%nat ∧
  get k out (purge c) = Some (purge c, false, out) ∧
  purge (purge c) = purge c ∧
  capacity_ (purge c) = capacity_ c ∧
  maxAverageNum_ (purge c) = maxAverageNum_ c ∧
  curTotalNum_ (purge c) = curTotalNum_ c ∧
  curAverageNum_ (purge c) = curAverageNum_ c ∧
  minFreq_ (purge c) = minFreq_ c.
Proof.
  split_and!; done.
Qed.

Lemma purge_ready c : ready c → ready (purge c).
Proof.
  intros [Hl Hcap Hmin Halloc]. split; [|done..].
  split; simpl; intros *; rewrite ?lookup_empty; try done.
  all: by intros [? ?].
Qed.

Lemma step_ready o c :
  ready c →
  ∃ c', step o c = Some c' ∧ ready c' ∧
        capacity_ c' = capacity_ c ∧ maxAverageNum_ c' = maxAverageNum_ c.
Proof.
  intros Hr. destruct o as [k v|k|]; simpl.
  - destruct (decide (capacity_ c = 0)) as [Hz|Hnz].
    + exists c. unfold put. by rewrite bool_decide_eq_true_2.
    + destruct (put_spec k v c Hr Hnz) as (c' & p & n & ? & ? & ? & ? & _).
      by exists c'.
  - destruct (nodeMap_ c !! k) as [p|] eqn:Hk.
    + destruct (linked_index c (ready_linked c Hr) k p Hk) as (n & Hn & _).
      destruct (get_hit k construct p n c Hr Hk Hn) as (c' & -> & ? & Hmv & _).
      exists c'. split_and!; [done|done|apply Hmv..].
    + rewrite get_miss by done. by exists c.
  - exists (purge c). split_and!; [done|by apply purge_ready|done..].
Qed.

Lemma run_ready ops c :
  ready c →
  ∃ c', run ops c = Some c' ∧ ready c' ∧
        capacity_ c' = capacity_ c ∧ maxAverageNum_ c' = maxAverageNum_ c.
Proof.
  revert c. induction ops as [|o ops IH]; intros c Hr; simpl.
  - by exists c.
  - destruct (step_ready o c Hr) as (c1 & -> & Hr1 & Hc1 & Hm1). simpl.
    destruct (IH c1 Hr1) as (c' & ? & ? & ? & ?).
    exists c'. split_and!; [done|done|congruence..].
Qed.

Lemma ready_new cap m :
  INT_MIN ≤ cap ≤ INT_MAX →
  ready (ILfuCache_new cap m : @ILfuCache Key _ _ Value).
Proof.
  intros Hcap. split; [|done..].
  split; simpl; intros *; rewrite ?lookup_empty; try done.
  all: by intros [? ?].
Qed.

Lemma reachable_ready cap m c :
  INT_MIN ≤ cap ≤ INT_MAX → reachable cap m c →
  ready c ∧ capacity_ c = cap ∧ maxAverageNum_ c = m.
Proof.
  intros Hcap [ops Hrun].
  destruct (run_ready ops _ (ready_new cap m Hcap)) as (c' & Hrun' & ? & ? & ?).
  assert (c' = c) as -> by congruence. done.
Qed.

(** ** Round trip *)

Lemma put_get_ready k v out c :
  ready c → capacity_ c ≠ 0 →
  ∃ c1 c2, put k v c = Some c1 ∧ ready c1 ∧
           get k out c1 = Some (c2, true, v).
Proof.
  intros Hr Hcap.
  destruct (put_spec k v c Hr Hcap) as
    (c1 & p & n & Hput & Hr1 & _ & _ & Hk & Hn & <-).
  destruct (get_hit k out p n c1 Hr1 Hk Hn) as (c2 & Hget & _).
  by exists c1, c2.
Qed.

Lemma usable_slice (Hash : Key → Z) k (kc : KHash.KHashLfuCache) :
  KHash.usable kc →
  ∃ i c, KHash.sliceIndex Hash k kc = Some i ∧
         KHash.lfuSliceCaches_ kc !! i = Some c ∧
         ready c ∧ capacity_ c ≠ 0.
Proof.
  intros (Hn & Hlen & Hall). unfold KHash.sliceIndex.
  assert (to_size_t (KHash.sliceNum_ kc) = KHash.sliceNum_ kc) as ->.
  { unfold to_size_t, INT_MAX in *. apply Z.mod_small. lia. }
  rewrite bool_decide_eq_false_2 by lia.
  set (i := Z.to_nat (Hash k `mod` KHash.sliceNum_ kc)).
  assert (i < length (KHash.lfuSliceCaches_ kc))%nat as Hi.
  { rewrite Hlen. unfold i.
    pose proof (Z.mod_pos_bound (Hash k) (KHash.sliceNum_ kc)). lia. }
  apply lookup_lt_is_Some in Hi as [c Hc].
  exists i, c. split_and!; [done|done|..].
  - rewrite Forall_forall in Hall.
    destruct (Hall c) as (cap & m & Hcap & Hreach).
    { by eapply list_elem_of_lookup_2. }
    apply (reachable_ready cap m); [unfold INT_MIN; lia|done].
  - rewrite Forall_forall in Hall.
    destruct (Hall c) as (cap & m & Hcap & Hreach).
    { by eapply list_elem_of_lookup_2. }
    destruct (reachable_ready cap m c) as (_ & -> & _);
      [unfold INT_MIN; lia|done|lia].
Qed.

(** C1.  On an [ILfuCache] of capacity at least 1, in any state the cache
    can reach, [put(k, v)] followed at once by [get(k)] returns [true] and
    [v].  The same holds for a [KHashLfuCache] whose shards have capacity at
    least 1: the slice index depends on the key and on [sliceNum_] only, so
    both calls are served by the same shard. *)
Theorem put_then_get (Hash : Key → Z) cap m c (kc : KHash.KHashLfuCache)
    k v out :
  1 ≤ cap ≤ INT_MAX → reachable cap m c → KHash.usable kc →
  (∃ c1 c2, put k v c = Some c1 ∧ get k out c1 = Some (c2, true, v)) ∧
  (∃ i kc1 kc2,
     KHash.sliceIndex Hash k kc = Some i ∧
     KHash.put Hash k v kc = Some kc1 ∧
     KHash.sliceIndex Hash k kc1 = Some i ∧
     KHash.get Hash k out kc1 = Some (kc2, true, v)).
Proof.
  intros Hcap Hreach Hus. split.
  - destruct (reachable_ready cap m c) as (Hr & Hc & _);
      [unfold INT_MIN; lia|done|].
    destruct (put_get_ready k v out c Hr) as (c1 & c2 & ? & _ & ?); [lia|].
    by exists c1, c2.
  - destruct (usable_slice Hash k kc Hus) as (i & ci & Hi & Hci & Hr & Hcap').
    destruct (put_get_ready k v out ci Hr Hcap') as
      (c1 & c2 & Hput & _ & Hget).
    exists i, (KHash.set_slice i c1 kc), (KHash.set_slice i c2 (KHash.set_slice i c1 kc)).
    split_and!; [done| |done|].
    + unfold KHash.put. rewrite Hi. simpl. rewrite Hci. simpl.
      by rewrite Hput.
    + unfold KHash.get.
      change (KHash.sliceIndex Hash k (KHash.set_slice i c1 kc))
        with (KHash.sliceIndex Hash k kc).
      rewrite Hi. simpl.
      rewrite list_lookup_insert_eq by (by eapply lookup_lt_Some).
      simpl. by rewrite Hget.
Qed.

(** ** Capacity 0 *)

(** C9.  A cache built with capacity 0 never leaves its initial state:
    every [put] returns without a change, whatever the sequence of
    operations, and a [get] on any key misses, leaving the out-parameter
    alone; the convenience form returns the default value. *)
Theorem capacity_zero_noop m (ops : list (@Op Key Value)) k v out :
  let c0 : @ILfuCache Key _ _ Value := ILfuCache_new 0 m in
  run ops c0 = Some c0 ∧
  put k v c0 = Some c0 ∧
  get k out c0 = Some (c0, false, out) ∧
  get_value k c0 = Some (c0, construct).
Proof.
  intros c0. assert (∀ k' out', get k' out' c0 = Some (c0, false, out')) as Hget.
  { intros k' out'. apply get_miss. apply lookup_empty. }
  split_and!; [|done|done|].
  - induction ops as [|o ops IH]; [done|]. simpl.
    assert (step o c0 = Some c0) as ->; [|done].
    destruct o as [k' v'|k'|]; simpl; [done| |done].
    by rewrite Hget.
  - unfold get_value. by rewrite Hget.
Qed.

(** ** States in which [addFreqNum] is called *)

Lemma ready_primed c : ready c → nodeMap_ c ≠ ∅ → primed c.
Proof.
  intros [Hl Hcap Hmin Halloc] Hne. split; [done..|]. by apply Halloc.
Qed.

Lemma agedFreq_one m : 0 ≤ m → agedFreq m 1 = 1.
Proof.
  intros Hm. unfold agedFreq.
  pose proof (Z.quot_pos m 2 Hm). case_bool_decide; lia.
Qed.

End Properties.

(** * The scenarios of the specification *)

Import Scenario.

(** The example of the specification: on a cache of capacity 2, after
    [put(A,1)], [put(B,2)], [get(A)] the key B is still cached; [put(C,3)]
    then evicts B and not A. *)
Lemma tieBreak_evicts_B :
  let r3 := run (take 3 tieBreak) (ILfuCache_new 2 1000000) in
  let r := run tieBreak (ILfuCache_new 2 1000000) in
  observe (r3 ≫= get "B" 0) = Some (true, 2) ∧
  observe (r ≫= get "B" 0) = Some (false, 0) ∧
  observe (r ≫= get "A" 0) = Some (true, 1) ∧
  observe (r ≫= get "C" 0) = Some (true, 3) ∧
  liveCount <$> r = Some 2%nat.
Proof. vm_compute. done. Qed.

(** C3.  Capacity 2, ceiling 1: after [put(X,1)], [put(,2)] (the empty
    key), 126 times [get(X)] and 127 times [get()] the cache is full, X has
    frequency 127 and is the only node of the bucket of the least
    frequency, the empty key has frequency 128, and [minFreq_] is 1, the
    bucket of which is allocated and empty.  [put(B,3)] then removes the
    entry of the empty key, of frequency 128, and keeps X: the entry
    evicted is not the one that has been longest in the bucket of the least
    frequency. *)
Theorem eviction_misses_min_frequency :
  (λ c : Cache, (capacity_ c, liveCount c,
                 freq <$> entry "X" c, freq <$> entry EmptyString c,
                 nonEmptyFreqs c, bucket 127 c, nodeMap_ c !! "X",
                 minFreq_ c, freqToFreqList_ c !! minFreq_ c,
                 nodeMap_ c !! "B")) <$>
    run lopsided (ILfuCache_new 2 1)
  = Some (2, 2%nat, Some 127, Some 128, [127; 128], [0%nat], Some 0%nat,
          1, Some [], None) ∧
  (λ c : Cache, (liveCount c, freq <$> entry "X" c,
                 nodeMap_ c !! EmptyString, freq <$> entry "B" c)) <$>
    run (lopsided ++ [OpPut "B" 3]) (ILfuCache_new 2 1)
  = Some (2%nat, Some 127, None, Some 1).
Proof. split; vm_compute; reflexivity. Qed.

(** C2.  Capacity 1, ceiling 1: after [put(A,1)] and 126 times [get(A)] the
    entry A has frequency 127 and every access has run the aging pass;
    [put(B,2)] then leaves two live entries in a cache of capacity 1. *)
Theorem capacity_bound_overrun :
  (λ c : Cache, (liveCount c, capacity_ c)) <$>
    run (hot 126 ++ [OpPut "B" 2]) (ILfuCache_new 1 1)
  = Some (2%nat, 1).
Proof. vm_compute. reflexivity. Qed.

(** C4.  Capacity 1, ceiling 1: after [put(A,1)] and 126 times [get(A)] the
    only non-empty bucket is the one of frequency 127, the scan of
    [updateMinFreq] ends on [INT8_MAX], and [minFreq_] is 1. *)
Theorem minFreq_at_INT8_MAX :
  (λ c : Cache, (liveCount c, nonEmptyFreqs c,
                 scanMinFreq (freqToFreqList_ c), minFreq_ c)) <$>
    run (hot 126) (ILfuCache_new 1 1)
  = Some (1%nat, [127], INT8_MAX, 1).
Proof. vm_compute. reflexivity. Qed.

(** C5.  Capacity 1, ceiling 2: after [put(A,1)], [get(A)], [get(A)] the
    aging pass has taken the frequency of A from 3 to 2, and the running
    total and average are still 3; a [purge] after that leaves them at 3 in
    an empty cache. *)
Theorem total_after_aging :
  (λ c : Cache, (liveCount c, totalFreq c,
                 curTotalNum_ c, curAverageNum_ c)) <$>
    run (hot 2) (ILfuCache_new 1 2)
  = Some (1%nat, 2, 3, 3) ∧
  (λ c : Cache, (liveCount c, totalFreq c,
                 curTotalNum_ c, curAverageNum_ c)) <$>
    run (hot 2 ++ [OpPurge]) (ILfuCache_new 1 2)
  = Some (0%nat, 0, 3, 3).
Proof. split; vm_compute; reflexivity. Qed.

(** C7.  [purge] empties the index and the buckets and keeps the
    configuration, but the counters stay: after [put(A,1)], [get(A)] and
    [purge] the total, the average and [minFreq_] are 2, 2 and 2, where a
    new cache has 0, 0 and [INT8_MAX]. *)
Theorem purge_keeps_counters :
  (λ c : Cache, (liveCount c, observe (get "A" 0 c),
                 capacity_ c, maxAverageNum_ c,
                 curTotalNum_ c, curAverageNum_ c, minFreq_ c)) <$>
    run (hot 1 ++ [OpPurge]) (ILfuCache_new 1 1000000)
  = Some (0%nat, Some (false, 0), 1, 1000000, 2, 2, 2) ∧
  (λ c : Cache, (curTotalNum_ c, curAverageNum_ c, minFreq_ c))
    (ILfuCache_new 1 1000000)
  = (0, 0, INT8_MAX).
Proof. split; vm_compute; reflexivity. Qed.

(** C8.  Capacity 1, ceiling 1: after [put(A,1)] and 126 times [get(A)] the
    cache is full, B is absent and the bucket of [minFreq_] is allocated and
    empty.  The [kickOut] that [put(B,2)] calls gets the tail sentinel from
    [getFirstNode] and removes no entry. *)
Theorem kickOut_on_empty_bucket :
  (c ← run (hot 126) (ILfuCache_new 1 1);
   c' ← kickOut c;
   Some (bool_decide (Z.of_nat (size (nodeMap_ c)) = to_size_t (capacity_ c)),
         nodeMap_ c !! "B",
         freqToFreqList_ c !! minFreq_ c,
         FreqList.getFirstNode (bucket (minFreq_ c) c),
         liveCount (c' : Cache)))
  = Some (true, None, Some [], None, 1%nat).
Proof. vm_compute. reflexivity. Qed.

(** C10 as stated fails: capacity 1, ceiling 2, after [put(A,1)] and
    [get(A)] the entry A has frequency 2; [put(A,5)] leaves it at 2, not
    3. *)
Lemma frequency_unchanged_by_put :
  ∃ (c c' : Cache) n n',
    run (hot 1) (ILfuCache_new 1 2) = Some c ∧
    entry "A" c = Some n ∧
    put "A" 5 c = Some c' ∧
    entry "A" c' = Some n' ∧
    freq n' ≠ freq n + 1.
Proof.
  do 4 eexists. split_and!; [vm_compute; reflexivity..|].
  vm_compute. discriminate.
Qed.

(** * Instances of the conditional theorems *)

Lemma full_reachable : reachable 2 1000000 full.
Proof. exists (take 3 tieBreak). vm_compute. reflexivity. Qed.

Lemma twoShards_usable : KHash.usable twoShards.
Proof.
  split; [done|]. split; [done|].
  repeat constructor; exists 2, 10; (split; [done|by exists []]).
Qed.

(** [put_then_get] on a new cache of capacity 2 and on two shards. *)
Lemma put_then_get_witness :
  1 ≤ 2 ≤ INT_MAX ∧
  reachable 2 1000000 (ILfuCache_new 2 1000000 : Cache) ∧
  KHash.usable twoShards ∧
  (∃ c1 c2 : Cache,
     put "A" 1 (ILfuCache_new 2 1000000) = Some c1 ∧
     get "A" 0 c1 = Some (c2, true, 1)) ∧
  (∃ i kc1 kc2,
     KHash.sliceIndex lengthHash "A" twoShards = Some i ∧
     KHash.put lengthHash "A" 1 twoShards = Some kc1 ∧
     KHash.sliceIndex lengthHash "A" kc1 = Some i ∧
     KHash.get lengthHash "A" 0 kc1 = Some (kc2, true, 1)).
Proof.
  assert (1 ≤ 2 ≤ INT_MAX) as H1 by done.
  assert (reachable 2 1000000 (ILfuCache_new 2 1000000 : Cache)) as H2
    by (by exists []).
  split; [exact H1|]. split; [exact H2|].
  split; [exact twoShards_usable|].
  exact (put_then_get lengthHash 2 1000000 (ILfuCache_new 2 1000000)
           twoShards "A" 1 0 H1 H2 twoShards_usable).
Defined.

(** * Further properties of the code *)

Section Further.

Context {Key : Type} `{Countable Key} {Value : Type}.
Context `{!DefaultConstructible Key, !DefaultConstructible Value}.

Implicit Types (c : @ILfuCache Key _ _ Value) (n node : @Node Key Value).
Implicit Types (p q : nat) (f : Z) (fl : list nat) (k : Key) (v : Value).
Implicit Types (ops : list (@Op Key Value)).

(** ** The range of the [int] fields

    The embedding computes frequencies and the running total in [Z].  This
    part shows that, for a ceiling of at least 0, [t] operations leave every
    such field within [t] of 0: up to [INT_MAX] operations no increment or
    decrement of the source leaves the range of [int], and the embedding
    computes what the source computes. *)

Lemma weight_empty : weight ∅ = 0.
Proof. unfold weight. by rewrite map_fold_empty. Qed.

Lemma weight_insert_None (b : gmap Z (list nat)) f fl :
  b !! f = None → weight (<[f := fl]> b) = weight b + f * Z.of_nat (length fl).
Proof.
  intros Hf. unfold weight.
  rewrite map_fold_insert_L; [done| |done]. intros. lia.
Qed.

Lemma weight_delete (b : gmap Z (list nat)) f fl :
  b !! f = Some fl → weight (delete f b) = weight b - f * Z.of_nat (length fl).
Proof.
  intros Hf. rewrite <- (insert_delete_id b f fl Hf) at 2.
  rewrite weight_insert_None by apply lookup_delete_eq. lia.
Qed.

Lemma weight_insert (b : gmap Z (list nat)) f fl :
  weight (<[f := fl]> b)
  = weight b - f * Z.of_nat (length (default [] (b !! f)))
    + f * Z.of_nat (length fl).
Proof.
  destruct (b !! f) as [fl0|] eqn:Hf; simpl.
  - rewrite <- insert_delete_eq.
    rewrite weight_insert_None by apply lookup_delete_eq.
    rewrite (weight_delete b f fl0 Hf). lia.
  - rewrite weight_insert_None by done. simpl. lia.
Qed.

Lemma weight_nonneg (b : gmap Z (list nat)) :
  (∀ f, is_Some (b !! f) → 0 ≤ f) → 0 ≤ weight b.
Proof.
  induction b as [|f fl b Hf IH] using map_ind; intros Hpos.
  - by rewrite weight_empty.
  - rewrite weight_insert_None by done.
    assert (0 ≤ f) by (apply Hpos; rewrite lookup_insert_eq; by eexists).
    assert (0 ≤ weight b); [|nia].
    apply IH. intros f' [fl' Hf']. apply Hpos.
    rewrite lookup_insert_ne; [by eexists|]. intros ->. congruence.
Qed.

(** Unlinking never adds to the sum. *)
Lemma weight_removeNode_le (b : gmap Z (list nat)) p :
  (∀ f, is_Some (b !! f) → 0 ≤ f) →
  weight (FreqList.removeNode p <$> b) ≤ weight b.
Proof.
  induction b as [|f fl b Hf IH] using map_ind; intros Hpos.
  - by rewrite fmap_empty.
  - rewrite fmap_insert.
    rewrite !weight_insert_None by (by rewrite ?lookup_fmap, ?Hf).
    assert (0 ≤ f) by (apply Hpos; rewrite lookup_insert_eq; by eexists).
    assert (weight (FreqList.removeNode p <$> b) ≤ weight b).
    { apply IH. intros f' [fl' Hf']. apply Hpos.
      rewrite lookup_insert_ne; [by eexists|]. intros ->. congruence. }
    pose proof (length_filter (λ q, q ≠ p) fl) as Hlen.
    apply Z.add_le_mono; [done|].
    apply Z.mul_le_mono_nonneg_l; [done|].
    unfold FreqList.removeNode. lia.
Qed.

(** Unlinking a node of bucket [f] takes [f] off the sum. *)
Lemma weight_removeNode (b : gmap Z (list nat)) p f fl :
  (∀ f, is_Some (b !! f) → 0 ≤ f) → b !! f = Some fl → p ∈ fl →
  weight (FreqList.removeNode p <$> b) ≤ weight b - f.
Proof.
  intros Hpos Hf Hp.
  assert (0 ≤ f) by (apply Hpos; by eexists).
  rewrite <- (insert_delete_id b f fl Hf) at 1.
  rewrite fmap_insert.
  rewrite weight_insert_None by (by rewrite lookup_fmap, lookup_delete_eq).
  assert (weight (FreqList.removeNode p <$> delete f b)
          ≤ weight (delete f b)) as Hrest.
  { apply weight_removeNode_le. intros f' [fl' [_ Hf']%lookup_delete_Some].
    apply Hpos. by eexists. }
  rewrite (weight_delete b f fl Hf) in Hrest.
  assert (length (FreqList.removeNode p fl) < length fl)%nat as Hlen.
  { unfold FreqList.removeNode. apply (length_filter_lt _ _ p); [done|].
    intros Hne. by apply Hne. }
  assert (f * Z.of_nat (length (FreqList.removeNode p fl))
          ≤ f * (Z.of_nat (length fl) - 1)) as Hmul
    by (apply Z.mul_le_mono_nonneg_l; lia).
  lia.
Qed.

Lemma weight_relinked p f node c f0 :
  linked c → p ∈ bucket f0 c → 0 ≤ f →
  weight (freqToFreqList_ (relinked p f node c))
  ≤ weight (freqToFreqList_ c) - f0 + f.
Proof.
  intros Hl (fl & Hfl & Hp)%bucket_elem Hf.
  unfold relinked. simpl. rewrite weight_insert.
  unfold FreqList.addNode. rewrite length_app. simpl.
  assert (weight (FreqList.removeNode p <$> freqToFreqList_ c)
          ≤ weight (freqToFreqList_ c) - f0) as Hle.
  { apply (weight_removeNode _ p f0 fl); [|done..].
    intros f' Hf'. pose proof (linked_pos c Hl f' Hf'). lia. }
  lia.
Qed.

Lemma addFreqNum_unfold c :
  addFreqNum c =
  if decide (agingFires c) then handleOverMaxAverageNum (counted c)
  else Some (counted c).
Proof.
  unfold addFreqNum, agingFires, counted. simpl.
  case_bool_decide; case_decide; done.
Qed.

Lemma quot2_nonneg m : 0 ≤ m → 0 ≤ m `quot` 2.
Proof. intros. apply Z.quot_pos; lia. Qed.

Lemma quot2_pos m : 2 ≤ m → 1 ≤ m `quot` 2.
Proof.
  intros Hm. pose proof (Z.quot_rem' m 2) as Hqr.
  pose proof (Z.rem_bound_pos m 2). lia.
Qed.

Lemma agedFreq_le m f : 0 ≤ m → 1 ≤ f → agedFreq m f ≤ f.
Proof. intros Hm Hf. pose proof (quot2_nonneg m Hm). rewrite agedFreq_max. lia. Qed.

Lemma agedFreq_drop m f : 2 ≤ m → agedFreq m f ≤ Z.max 1 (f - 1).
Proof. intros Hm. pose proof (quot2_pos m Hm). rewrite agedFreq_max. lia. Qed.

(** Up to a ceiling of 250, a frequency one above the ceiling is aged to
    less than [INT8_MAX]. *)
Lemma agedFreq_small m f :
  0 ≤ m ≤ 250 → f ≤ m + 1 → agedFreq m f < INT8_MAX.
Proof.
  intros Hm Hf. pose proof (Z.quot_rem' m 2) as Hqr.
  pose proof (Z.rem_bound_pos m 2). rewrite agedFreq_max.
  unfold INT8_MAX. lia.
Qed.

Lemma kickOut_live c p fl n :
  linked c → freqToFreqList_ c !! minFreq_ c = Some (p :: fl) →
  nodes c !! p = Some n →
  kickOut c =
  Some (decreaseFreqNum (freq n)
          (set_nodeMap (delete (key n) (nodeMap_ c))
             (set_freqToFreqList
                (FreqList.removeNode p <$> freqToFreqList_ c) c))).
Proof.
  intros Hl Hfl Hn.
  destruct (linked_bucket c Hl _ _ p Hfl) as (n0 & Hn0 & Hfreq); [by left|].
  assert (n0 = n) as -> by congruence.
  unfold kickOut. rewrite Hfl. simpl. rewrite Hn. simpl.
  by rewrite (removeFromFreqList_Some p n) by (by rewrite ?Hfreq, ?Hfl).
Qed.

(** The first statement of [putInternal]: one [kickOut] when the index
    holds [capacity_] entries. *)
Lemma evict_step c :
  ready c → capacity_ c ≠ 0 →
  ∃ c1,
    (if bool_decide (Z.of_nat (size (nodeMap_ c)) = to_size_t (capacity_ c))
     then kickOut c else Some c) = Some c1 ∧
    linked c1 ∧ nodes c1 = nodes c ∧
    capacity_ c1 = capacity_ c ∧ maxAverageNum_ c1 = maxAverageNum_ c ∧
    minFreq_ c1 = minFreq_ c ∧
    (∃ k0, nodeMap_ c1 = delete k0 (nodeMap_ c) ∨ nodeMap_ c1 = nodeMap_ c) ∧
    (Z.of_nat (size (nodeMap_ c)) ≠ to_size_t (capacity_ c) → c1 = c).
Proof.
  intros Hr Hcap. case_bool_decide as Hfull.
  - destruct (kickOut_defined c Hr Hcap Hfull) as [_ [c1 Hc1]].
    assert (nodeMap_ c ≠ ∅) as Hne.
    { apply map_size_non_empty_iff. intros Hsz.
      apply (to_size_t_nonzero (capacity_ c));
        [apply (ready_capacity c Hr)|done|].
      by rewrite <- Hfull, Hsz. }
    destruct (kickOut_spec c Hr Hne) as
      (c1' & k0 & Hrun & Hl & ? & ? & ? & ? & Hm & _).
    assert (c1' = c1) as -> by congruence.
    exists c1. split_and!; [done..| |done].
    exists k0. by left.
  - exists c. split_and!; [done|apply (ready_linked c Hr)|done..| |done].
    exists construct. by right.
Qed.

Lemma bumped_buckets p node c :
  freqToFreqList_ (bumped p node c) =
  freqToFreqList_ (relinked p (freq node + 1) node c).
Proof. unfold bumped. by destruct (_ && _). Qed.

Lemma relinked_bucket p f node c f0 :
  bucket f0 (relinked p f node c) =
  if decide (f = f0) then FreqList.removeNode p (bucket f c) ++ [p]
  else FreqList.removeNode p (bucket f0 c).
Proof.
  unfold bucket at 1. rewrite relinked_lookup. case_decide; [done|].
  unfold bucket. by destruct (freqToFreqList_ c !! f0).
Qed.

Lemma fits_mono t t' c : fits t c → t ≤ t' → fits t' c.
Proof.
  intros [Hf Ht Hmin] Hle. split; [|lia..].
  intros p n Hn. specialize (Hf p n Hn). lia.
Qed.

Lemma fits_new cap m :
  fits 0 (ILfuCache_new cap m : @ILfuCache Key _ _ Value).
Proof.
  split; simpl; [|rewrite weight_empty; lia|unfold INT8_MAX; lia].
  intros p n Hn. by rewrite lookup_nil in Hn.
Qed.

Lemma fits_purge t c : linked c → fits t c → fits t (purge c).
Proof.
  intros Hl [Hf Ht Hmin].
  assert (0 ≤ weight (freqToFreqList_ c)) as Hw.
  { apply weight_nonneg. intros f Hsome.
    pose proof (linked_pos c Hl f Hsome). lia. }
  split; simpl; [done| |done]. rewrite weight_empty. lia.
Qed.

Lemma fits_set_value t p v n c :
  nodes c !! p = Some n → fits t c →
  fits t (set_nodes (<[p := set_value v n]> (nodes c)) c).
Proof.
  intros Hn [Hf Ht Hmin]. split; simpl; [|done..].
  intros q nq Hq. destruct (decide (q = p)) as [->|Hne].
  - rewrite list_lookup_insert_eq in Hq by (by eapply lookup_lt_Some).
    injection Hq as <-. simpl. by apply (Hf p).
  - rewrite list_lookup_insert_ne in Hq by done. by apply (Hf q).
Qed.

(** The aging loop lowers the sum of the linked frequencies, or leaves it
    as it is. *)
Lemma ageAll_weight ps c c' :
  linked c → (∀ p, p ∈ ps → ∃ k, nodeMap_ c !! k = Some p) →
  0 ≤ maxAverageNum_ c → ageAll ps c = Some c' →
  weight (freqToFreqList_ c') ≤ weight (freqToFreqList_ c).
Proof.
  revert c. induction ps as [|p ps IH]; intros c Hl Hlive Hm Hrun.
  - simpl in Hrun. by injection Hrun as <-.
  - destruct (Hlive p) as (k & Hk); [by left|].
    destruct (linked_index c Hl k p Hk) as (n & Hn & _ & Hin).
    pose proof Hin as Hin'.
    apply bucket_elem in Hin' as (fl & Hfl & _).
    assert (1 ≤ freq n) as Hpos by (apply (linked_pos c Hl); by eexists).
    simpl in Hrun. rewrite (ageNode_Some p n) in Hrun by (by rewrite ?Hfl).
    simpl in Hrun.
    pose proof (agedFreq_pos (maxAverageNum_ c) (freq n)) as Ha1.
    pose proof (agedFreq_le (maxAverageNum_ c) (freq n) Hm Hpos) as Ha2.
    pose proof (weight_relinked p (agedFreq (maxAverageNum_ c) (freq n)) n c
                  (freq n) Hl Hin) as Hw.
    etrans; [apply (IH (relinked p (agedFreq (maxAverageNum_ c) (freq n))
                          n c))|lia].
    + by apply relinked_linked.
    + intros q Hq. apply Hlive. by right.
    + done.
    + done.
Qed.

Lemma fits_handleOver t c c' :
  linked c → 0 ≤ maxAverageNum_ c → fits t c →
  handleOverMaxAverageNum c = Some c' → fits t c'.
Proof.
  intros Hl Hm [Hf Ht Hmin] Hrun.
  destruct (handleOverMaxAverageNum_spec c Hl) as
    (c'' & Hrun' & Hl' & Hmv & Htot & _ & Hnodes & Hminf).
  assert (c'' = c') as -> by congruence.
  assert (weight (freqToFreqList_ c') ≤ weight (freqToFreqList_ c)) as Hw.
  { unfold handleOverMaxAverageNum in Hrun.
    destruct (decide (size (nodeMap_ c) = 0%nat)) as [Hz|Hnz].
    { rewrite bool_decide_eq_true_2 in Hrun by done.
      by injection Hrun as <-. }
    rewrite bool_decide_eq_false_2 in Hrun by done.
    destruct (ageAll (map_to_list (nodeMap_ c)).*2 c) as [c0|] eqn:Hloop;
      [|done].
    simpl in Hrun. injection Hrun as <-.
    apply (ageAll_weight (map_to_list (nodeMap_ c)).*2 c c0 Hl); [|done..].
    intros q. apply livePtrs_elem. }
  split.
  - intros p n Hn. rewrite Hnodes in Hn.
    destruct (nodes c !! p) as [n0|] eqn:Hn0; [|done].
    simpl in Hn. injection Hn as <-. specialize (Hf p n0 Hn0).
    unfold agedNode. destruct (bool_decide (p ∈ livePtrs c)); simpl; [|done].
    pose proof (agedFreq_pos (maxAverageNum_ c) (freq n0)).
    pose proof (agedFreq_le (maxAverageNum_ c) (freq n0) Hm). lia.
  - rewrite Htot. lia.
  - destruct (bool_decide (nodeMap_ c = ∅)); rewrite Hminf; [done|].
    unfold recomputedMinFreq.
    destruct (scanMinFreq_spec (freqToFreqList_ c')) as (Hle & _).
    case_bool_decide; unfold INT8_MAX in *; lia.
Qed.

Lemma fits_addFreqNum t c c' :
  linked c → 0 ≤ maxAverageNum_ c → fits t (counted c) →
  addFreqNum c = Some c' → fits t c'.
Proof.
  intros Hl Hm Hfit Hrun. rewrite addFreqNum_unfold in Hrun.
  case_decide.
  - apply (fits_handleOver t (counted c)); [|done..].
    by apply (linked_ext c (counted c)).
  - by injection Hrun as <-.
Qed.

Lemma fits_getInternal t k p n c c' v :
  ready c → nodeMap_ c !! k = Some p → nodes c !! p = Some n →
  0 ≤ maxAverageNum_ c → fits t c →
  getInternal p c = Some (c', v) → fits (t + 1) c'.
Proof.
  intros Hr Hk Hn Hm [Hf Ht Hmin] Hrun.
  pose proof (ready_linked c Hr) as Hl.
  destruct (linked_index c Hl k p Hk) as (n0 & Hn0 & _ & Hin).
  assert (n0 = n) as -> by congruence.
  pose proof Hin as Hin'. apply bucket_elem in Hin' as (fl & Hfl & _).
  pose proof (Hf p n Hn) as Hfn.
  rewrite (getInternal_Some p n) in Hrun by (by rewrite ?Hfl).
  destruct (addFreqNum (bumped p n c)) as [c4|] eqn:Hadd; [|done].
  simpl in Hrun. injection Hrun as <- <-.
  pose proof (bumped_ready k p n c Hr Hk Hn) as Hr3.
  apply (fits_addFreqNum (t + 1) (bumped p n c));
    [apply (ready_linked _ Hr3)| |  |done].
  { by rewrite (moved_maxAverageNum _ _ (bumped_moved p n c)). }
  split.
  - change (nodes (counted (bumped p n c))) with (nodes (bumped p n c)).
    rewrite bumped_nodes. intros q nq Hq.
    destruct (decide (q = p)) as [->|Hne].
    + rewrite list_lookup_insert_eq in Hq by (by eapply lookup_lt_Some).
      injection Hq as <-. simpl. lia.
    + rewrite list_lookup_insert_ne in Hq by done.
      specialize (Hf q nq Hq). lia.
  - change (freqToFreqList_ (counted (bumped p n c)))
      with (freqToFreqList_ (bumped p n c)).
    rewrite bumped_buckets.
    pose proof (weight_relinked p (freq n + 1) n c (freq n) Hl Hin) as Hw.
    change (curTotalNum_ (counted (bumped p n c)))
      with (curTotalNum_ (bumped p n c) + 1).
    assert (curTotalNum_ (bumped p n c) = curTotalNum_ c) as ->.
    { unfold bumped. by destruct (_ && _). }
    lia.
  - change (minFreq_ (counted (bumped p n c)))
      with (minFreq_ (bumped p n c)).
    unfold bumped. destruct (_ && _) eqn:E; simpl; [|lia].
    apply andb_true_iff in E as [E%bool_decide_eq_true _]. lia.
Qed.

(** [kickOut] takes from the running total what it takes from the linked
    frequencies, or 1 when it finds the bucket empty. *)
Lemma fits_kickOut t c c1 :
  ready c → nodeMap_ c ≠ ∅ → fits t c → kickOut c = Some c1 →
  weight (freqToFreqList_ c1) - (t + 1) ≤ curTotalNum_ c1 ∧
  curTotalNum_ c1 ≤ t.
Proof.
  intros Hr Hne [Hf Ht Hmin] Hrun.
  pose proof (ready_linked c Hr) as Hl.
  destruct (ready_alloc c Hr Hne) as [[fl1 H1] [fl Hfl]].
  destruct fl as [|p fl].
  - unfold kickOut in Hrun. rewrite Hfl in Hrun. simpl in Hrun.
    rewrite H1 in Hrun. simpl in Hrun. injection Hrun as <-. simpl. lia.
  - destruct (linked_bucket c Hl _ _ p Hfl) as (n & Hn & Hfreq); [by left|].
    rewrite (kickOut_live c p fl n Hl Hfl Hn) in Hrun.
    injection Hrun as <-. simpl.
    assert (weight (FreqList.removeNode p <$> freqToFreqList_ c)
            ≤ weight (freqToFreqList_ c) - minFreq_ c) as Hw.
    { apply (weight_removeNode _ p _ (p :: fl)); [|done|by left].
      intros f Hsome. pose proof (linked_pos c Hl f Hsome). lia. }
    pose proof (ready_minFreq c Hr). lia.
Qed.

Lemma fits_putInternal t k v c c' :
  ready c → capacity_ c ≠ 0 → 0 ≤ maxAverageNum_ c → 0 ≤ t → fits t c →
  putInternal k v c = Some c' → fits (t + 1) c'.
Proof.
  intros Hr Hnz Hm Ht0 Hfit Hrun.
  destruct (evict_step c Hr Hnz) as
    (c1 & Hev & Hl1 & Hn1 & Hc1 & Hm1 & Hmin1 & _ & Hsame).
  assert (weight (freqToFreqList_ c1) - (t + 1) ≤ curTotalNum_ c1 ∧
          curTotalNum_ c1 ≤ t) as [HT1 HT2].
  { destruct (decide (Z.of_nat (size (nodeMap_ c))
                      = to_size_t (capacity_ c))) as [Hfull|Hnot].
    - rewrite bool_decide_eq_true_2 in Hev by done.
      apply (fits_kickOut t c c1); [done| |done..].
      apply map_size_non_empty_iff. intros Hsz.
      apply (to_size_t_nonzero (capacity_ c));
        [apply (ready_capacity c Hr)|done|].
      by rewrite <- Hfull, Hsz.
    - rewrite (Hsame Hnot). destruct Hfit as [_ Ht _]. lia. }
  destruct Hfit as [Hf Ht Hmin].
  rewrite (putInternal_Some k v c c1 Hev) in Hrun.
  destruct (addFreqNum (inserted k v c1)) as [c4|] eqn:Hadd; [|done].
  simpl in Hrun. injection Hrun as <-.
  assert (fits (t + 1) c4) as [Hf4 Ht4 Hmin4].
  { apply (fits_addFreqNum (t + 1) (inserted k v c1));
      [by apply linked_insert|by rewrite <- Hm1 in Hm| |done].
    split.
    - change (nodes (counted (inserted k v c1)))
        with (nodes c1 ++ [mkNode 1 k v]).
      intros q nq [Hq|[_ Hq]]%lookup_app_Some.
      + rewrite Hn1 in Hq. specialize (Hf q nq Hq). lia.
      + apply list_lookup_singleton_Some in Hq as [_ <-]. simpl. lia.
    - change (freqToFreqList_ (counted (inserted k v c1)))
        with (<[1 := FreqList.addNode (length (nodes c1)) (bucket 1 c1)]>
                (freqToFreqList_ c1)).
      rewrite weight_insert. unfold FreqList.addNode, bucket.
      rewrite length_app. simpl.
      change (curTotalNum_ (counted (inserted k v c1)))
        with (curTotalNum_ c1 + 1).
      lia.
    - change (minFreq_ (counted (inserted k v c1))) with (minFreq_ c1).
      rewrite Hmin1. lia. }
  split; simpl; [done|done|]. unfold INT8_MAX in *. lia.
Qed.

Lemma step_fits o t c c' :
  ready c → 0 ≤ maxAverageNum_ c → 0 ≤ t → fits t c →
  step o c = Some c' → fits (t + 1) c'.
Proof.
  intros Hr Hm Ht0 Hfit Hrun.
  pose proof (ready_linked c Hr) as Hl.
  assert (fits (t + 1) c) as Hfit' by (apply (fits_mono t); [done|lia]).
  destruct o as [k v|k|]; simpl in Hrun.
  - unfold put in Hrun. case_bool_decide as Hcap.
    { by injection Hrun as <-. }
    destruct (nodeMap_ c !! k) as [p|] eqn:Hk;
      [|by apply (fits_putInternal t k v c)].
    destruct (linked_index c Hl k p Hk) as (n & Hn & _).
    rewrite Hn in Hrun. simpl in Hrun.
    set (c0 := set_nodes (<[p := set_value v n]> (nodes c)) c) in *.
    destruct (getInternal p c0) as [[c2 w]|] eqn:Hg; [|done].
    simpl in Hrun. injection Hrun as <-.
    apply (fits_getInternal t k p (set_value v n) c0 c2 w);
      [|done| |done|by apply fits_set_value|done].
    + destruct Hr as [? ? ? ?]. split; [|done..].
      by apply linked_set_value.
    + apply list_lookup_insert_eq. by eapply lookup_lt_Some.
  - unfold get in Hrun. destruct (nodeMap_ c !! k) as [p|] eqn:Hk.
    + destruct (linked_index c Hl k p Hk) as (n & Hn & _).
      destruct (getInternal p c) as [[c2 w]|] eqn:Hg; [|done].
      simpl in Hrun. injection Hrun as <-.
      by apply (fits_getInternal t k p n c c2 w).
    + simpl in Hrun. by injection Hrun as <-.
  - injection Hrun as <-. by apply fits_purge.
Qed.

Lemma run_fits ops t c c' :
  ready c → 0 ≤ maxAverageNum_ c → 0 ≤ t → fits t c →
  run ops c = Some c' → fits (t + Z.of_nat (length ops)) c'.
Proof.
  revert t c. induction ops as [|o ops IH]; intros t c Hr Hm Ht0 Hfit Hrun.
  - simpl in *. injection Hrun as <-. by rewrite Z.add_0_r.
  - simpl in Hrun.
    destruct (step_ready o c Hr) as (c1 & Hstep & Hr1 & _ & Hm1).
    rewrite Hstep in Hrun. simpl in Hrun.
    replace (t + Z.of_nat (length (o :: ops)))
      with (t + 1 + Z.of_nat (length ops)) by (simpl length; lia).
    apply (IH (t + 1) c1); [done|by rewrite Hm1|lia| |done].
    by apply (step_fits o t c).
Qed.

(** After [ops] on a new cache with a ceiling of at least 0, every [int]
    field holds a value the source computes without overflow as long as
    [length ops] is at most [INT_MAX]. *)
Lemma new_run_fits cap maxAvg ops c :
  INT_MIN ≤ cap ≤ INT_MAX → 0 ≤ maxAvg →
  run ops (ILfuCache_new cap maxAvg) = Some c →
  ready c ∧ capacity_ c = cap ∧ maxAverageNum_ c = maxAvg ∧
  (∀ p n, nodes c !! p = Some n → 1 ≤ freq n ≤ Z.of_nat (length ops)) ∧
  - Z.of_nat (length ops) ≤ curTotalNum_ c ≤ Z.of_nat (length ops) ∧
  1 ≤ minFreq_ c ≤ Z.max INT8_MAX (Z.of_nat (length ops)).
Proof.
  intros Hcap Hm Hrun.
  destruct (run_ready ops _ (ready_new cap maxAvg Hcap)) as
    (c' & Hrun' & Hr & Hc & Hmx).
  assert (c' = c) as -> by congruence.
  destruct (run_fits ops 0 _ c (ready_new cap maxAvg Hcap)) as [Hf Ht Hmin];
    [done|done|apply fits_new|done|].
  rewrite Z.add_0_l in *.
  assert (0 ≤ weight (freqToFreqList_ c)) as Hw.
  { apply weight_nonneg. intros f Hsome.
    pose proof (linked_pos c (ready_linked c Hr) f Hsome). lia. }
  pose proof (ready_minFreq c Hr).
  split_and!; [done|done|done|done|lia|lia|done|done].
Qed.

(** ** [put] on a key that is present *)

(** C10, as amended.  On a cache built with a ceiling between 0 and
    [INT_MAX] that has served fewer than [INT_MAX] operations, a [put] on a
    key of the index stores the new value and raises the frequency of the
    entry by 1; when that pushes the average above [maxAverageNum_] the
    aging pass then lowers it by [maxAverageNum_ / 2], not below 1.  No
    eviction runs: the index, hence the set of keys and the live count, is
    unchanged, also at full capacity.  The increments of the call stay
    within the range of [int]. *)
Theorem put_existing_key cap maxAvg ops c k v p n :
  INT_MIN ≤ cap ≤ INT_MAX → cap ≠ 0 → 0 ≤ maxAvg ≤ INT_MAX →
  Z.of_nat (length ops) < INT_MAX →
  run ops (ILfuCache_new cap maxAvg) = Some c →
  nodeMap_ c !! k = Some p → nodes c !! p = Some n →
  ∃ c' n', put k v c = Some c' ∧
    nodeMap_ c' = nodeMap_ c ∧ liveCount c' = liveCount c ∧
    nodes c' !! p = Some n' ∧ key n' = k ∧ value n' = v ∧
    freq n' = (if decide (agingFires c)
               then Z.max 1 (freq n + 1 - maxAvg `quot` 2)
               else freq n + 1) ∧
    1 ≤ freq n ∧ freq n + 1 ≤ INT_MAX ∧
    INT_MIN ≤ curTotalNum_ c ∧ curTotalNum_ c + 1 ≤ INT_MAX.
Proof.
  intros Hcap Hnz Hmax Hlen Hops Hk Hn.
  destruct (new_run_fits cap maxAvg ops c Hcap) as
    (Hr & Hc & Hm & Hfreq & Htot & _); [lia|done|].
  pose proof (Hfreq p n Hn) as Hfn.
  unfold put. rewrite bool_decide_eq_false_2 by congruence.
  rewrite Hk, Hn. simpl.
  set (c0 := set_nodes (<[p := set_value v n]> (nodes c)) c).
  assert (ready c0) as Hr0.
  { destruct Hr as [Hl ? ? ?]. split; [|done..].
    by apply linked_set_value. }
  assert (nodes c0 !! p = Some (set_value v n)) as Hp0.
  { apply list_lookup_insert_eq. by eapply lookup_lt_Some. }
  destruct (getInternal_spec k p c0 Hr0 Hk) as
    (n0 & c' & n' & Hn0 & Hrun & Hr' & Hmv & Hpay & Hn' & Hfreq').
  assert (n0 = set_value v n) as -> by congruence.
  rewrite Hrun. simpl.
  destruct (Hpay p _ Hp0) as (n1 & Hn1 & Hkey & Hval).
  assert (n1 = n') as -> by congruence.
  exists c', n'.
  split_and!; [done|apply Hmv| |done| |done| |lia|unfold INT_MAX in *; lia
              |unfold INT_MIN, INT_MAX in *; lia|lia].
  - unfold liveCount. by rewrite (moved_nodeMap _ _ Hmv).
  - rewrite Hkey. simpl.
    destruct (linked_index c (ready_linked c Hr) k p Hk) as (? & ? & ? & _).
    congruence.
  - rewrite Hfreq'. simpl. rewrite Hm.
    destruct (decide (agingFires c0)), (decide (agingFires c));
      rewrite ?agedFreq_max; try done; congruence.
Qed.

(** ** The entries of a reachable state *)

(** X2.  In every reachable state a cached key points to a node that
    carries this key, has a frequency of at least 1 and is linked in the
    bucket of its frequency and in no other bucket; no other key points to
    the same node. *)
Theorem entries_well_linked cap maxAvg c k p :
  INT_MIN ≤ cap ≤ INT_MAX → reachable cap maxAvg c →
  nodeMap_ c !! k = Some p →
  ∃ n, nodes c !! p = Some n ∧ key n = k ∧ 1 ≤ freq n ∧
       (∀ f, p ∈ bucket f c ↔ f = freq n) ∧
       (∀ k', nodeMap_ c !! k' = Some p → k' = k).
Proof.
  intros Hcap Hreach Hk.
  destruct (reachable_ready cap maxAvg c Hcap Hreach) as ([Hl _ _ _] & _).
  destruct (linked_index c Hl k p Hk) as (n & Hn & Hkey & Hin).
  exists n. split_and!; [done|done| | |].
  - apply bucket_elem in Hin as (fl & Hfl & _).
    apply (linked_pos c Hl). by eexists.
  - intros f. split; [|by intros ->].
    intros (fl & Hfl & Hp)%bucket_elem.
    destruct (linked_bucket c Hl f fl p Hfl Hp) as (n' & Hn' & <-).
    congruence.
  - intros k' Hk'.
    destruct (linked_index c Hl k' p Hk') as (n' & Hn' & Hkey' & _).
    congruence.
Qed.

(** ** [get] *)

Lemma entry_value_kept c c' :
  linked c → nodeMap_ c' = nodeMap_ c → payloadKept c c' →
  ∀ k, value <$> entry k c' = value <$> entry k c.
Proof.
  intros Hl Hm Hpay k. unfold entry. rewrite Hm.
  destruct (nodeMap_ c !! k) as [p|] eqn:Hk; [simpl|done].
  destruct (linked_index c Hl k p Hk) as (n & Hn & _).
  destruct (Hpay p n Hn) as (n' & Hn' & _ & Hval).
  rewrite Hn, Hn'. simpl. by rewrite Hval.
Qed.

Lemma entry_Some c k p n :
  nodeMap_ c !! k = Some p → nodes c !! p = Some n → entry k c = Some n.
Proof. intros Hk Hn. unfold entry. rewrite Hk. simpl. done. Qed.

Lemma entry_None c k : nodeMap_ c !! k = None → entry k c = None.
Proof. intros Hk. unfold entry. by rewrite Hk. Qed.

(** X3.  [get] never changes which keys are cached nor the value stored
    under any key, nor the configuration.  On a cached key it reports
    [true] and the stored value; on any other key it reports [false],
    leaves the out-parameter as it was and changes nothing at all.  The
    convenience form returns the stored value, or a default-constructed one
    on a miss. *)
Theorem get_keeps_contents cap maxAvg c k out :
  INT_MIN ≤ cap ≤ INT_MAX → reachable cap maxAvg c →
  ∃ c' found v, get k out c = Some (c', found, v) ∧
    nodeMap_ c' = nodeMap_ c ∧
    (∀ k', value <$> entry k' c' = value <$> entry k' c) ∧
    capacity_ c' = capacity_ c ∧ maxAverageNum_ c' = maxAverageNum_ c ∧
    match entry k c with
    | Some n => found = true ∧ v = value n ∧
                get_value k c = Some (c', value n)
    | None => found = false ∧ v = out ∧ c' = c ∧
              get_value k c = Some (c, construct)
    end.
Proof.
  intros Hcap Hreach.
  destruct (reachable_ready cap maxAvg c Hcap Hreach) as (Hr & _).
  destruct (nodeMap_ c !! k) as [p|] eqn:Hk.
  - destruct (linked_index c (ready_linked c Hr) k p Hk) as (n & Hn & _).
    destruct (get_hit k out p n c Hr Hk Hn) as (c' & Hget & _ & Hmv & Hpay).
    destruct (get_hit k construct p n c Hr Hk Hn) as (c'' & Hget' & _).
    assert (c'' = c') as ->.
    { unfold get in Hget, Hget'. rewrite Hk in Hget, Hget'.
      destruct (getInternal p c) as [[c0 v0]|]; simpl in *; congruence. }
    exists c', true, (value n).
    rewrite (entry_Some c k p n Hk Hn).
    split_and!; [done|apply Hmv| |apply Hmv|apply Hmv|done|done|].
    + apply entry_value_kept; [apply (ready_linked c Hr)|apply Hmv|done].
    + unfold get_value. by rewrite Hget'.
  - exists c, false, out. rewrite (entry_None c k Hk).
    split_and!; try done; [by apply get_miss|].
    unfold get_value. by rewrite get_miss.
Qed.

Lemma removeNode_notin p fl : p ∉ fl → FreqList.removeNode p fl = fl.
Proof.
  intros Hp. unfold FreqList.removeNode.
  induction fl as [|q fl IH]; [done|].
  apply not_elem_of_cons in Hp as [Hne Hp].
  rewrite filter_cons_True by congruence. f_equal. by apply IH.
Qed.

Lemma removeNode_nil_iff p fl :
  NoDup fl → p ∈ fl → FreqList.removeNode p fl = [] ↔ fl = [p].
Proof.
  intros Hnd Hp. split.
  - intros Hnil.
    assert (∀ q, q ∈ fl → q = p) as Hall.
    { intros q Hq. destruct (decide (q = p)) as [|Hne]; [done|].
      assert (q ∈ FreqList.removeNode p fl) as Hin
        by (by apply removeNode_elem).
      rewrite Hnil in Hin. by apply elem_of_nil in Hin. }
    destruct fl as [|a fl]; [by apply elem_of_nil in Hp|].
    assert (a = p) as -> by (apply Hall; by left).
    apply NoDup_cons in Hnd as [Hnotin _].
    destruct fl as [|b fl]; [done|].
    assert (b = p) as -> by (apply Hall; right; by left).
    exfalso. apply Hnotin. by left.
  - intros ->. unfold FreqList.removeNode.
    by rewrite filter_cons_False by (intros Hne; by apply Hne).
Qed.

(** The state a hit of [get] ends in when no aging pass runs. *)
Lemma getInternal_calm k p n c :
  ready c → nodeMap_ c !! k = Some p → nodes c !! p = Some n →
  ¬ agingFires c →
  ∃ c', getInternal p c = Some (c', value n) ∧
        nodeMap_ c' = nodeMap_ c ∧
        nodes c' = <[p := set_freq (freq n + 1) n]> (nodes c) ∧
        freqToFreqList_ c' =
          freqToFreqList_ (relinked p (freq n + 1) n c) ∧
        minFreq_ c' = minFreq_ (bumped p n c) ∧
        curTotalNum_ c' = curTotalNum_ c + 1 ∧
        curAverageNum_ c' = average c' ∧
        capacity_ c' = capacity_ c ∧ maxAverageNum_ c' = maxAverageNum_ c.
Proof.
  intros Hr Hk Hn Hcalm.
  destruct (linked_index c (ready_linked c Hr) k p Hk) as (n0 & Hn0 & _ & Hin).
  assert (n0 = n) as -> by congruence.
  apply bucket_elem in Hin as (fl & Hfl & _).
  rewrite (getInternal_Some p n) by (by rewrite ?Hfl).
  pose proof (bumped_ready k p n c Hr Hk Hn) as Hr3.
  pose proof (bumped_moved p n c) as Hmv3.
  assert (curTotalNum_ (bumped p n c) = curTotalNum_ c) as Ht3.
  { unfold bumped. by destruct (_ && _). }
  destruct (addFreqNum_spec _ (ready_linked _ Hr3)) as
    (c' & Hrun & Hl' & Hmv & Htot & Havg & _ & Hquiet).
  destruct Hquiet as (Hnodes & Hb & Hmin).
  { intros Hf. apply Hcalm. revert Hf.
    apply (agingFires_ext c (bumped p n c)); [apply Hmv3|done|apply Hmv3]. }
  rewrite Hrun. simpl. exists c'.
  split_and!; [done| | | |done| | | |].
  - rewrite (moved_nodeMap _ _ Hmv). apply Hmv3.
  - by rewrite Hnodes, bumped_nodes.
  - by rewrite Hb, bumped_buckets.
  - by rewrite Htot, Ht3.
  - rewrite Havg. unfold average. simpl.
    by rewrite Htot, (moved_nodeMap _ _ Hmv).
  - rewrite (moved_capacity _ _ Hmv). apply Hmv3.
  - rewrite (moved_maxAverageNum _ _ Hmv). apply Hmv3.
Qed.

(** X4.  On a cache built with a ceiling between 0 and [INT_MAX] that has
    served fewer than [INT_MAX] operations, a hit of [get] that does not
    take the average above the ceiling raises the frequency of the entry by
    exactly 1 and changes no other node.  The node leaves its bucket and
    becomes the last node of the bucket one frequency up; the order of the
    other nodes is kept.  The running total grows by 1, and [minFreq_] moves
    up by 1 exactly when the node was the only one of the [minFreq_]
    bucket.  Both increments stay within the range of [int]. *)
Theorem get_bumps_frequency cap maxAvg ops c k out p n :
  INT_MIN ≤ cap ≤ INT_MAX → 0 ≤ maxAvg ≤ INT_MAX →
  Z.of_nat (length ops) < INT_MAX →
  run ops (ILfuCache_new cap maxAvg) = Some c →
  nodeMap_ c !! k = Some p → nodes c !! p = Some n → ¬ agingFires c →
  ∃ c', get k out c = Some (c', true, value n) ∧
    nodes c' = <[p := set_freq (freq n + 1) n]> (nodes c) ∧
    bucket (freq n + 1) c' = bucket (freq n + 1) c ++ [p] ∧
    (∀ f, f ≠ freq n + 1 →
          bucket f c' = FreqList.removeNode p (bucket f c)) ∧
    curTotalNum_ c' = curTotalNum_ c + 1 ∧
    minFreq_ c' =
      (if bool_decide (freq n = minFreq_ c ∧ bucket (freq n) c = [p])
       then minFreq_ c + 1 else minFreq_ c) ∧
    1 ≤ freq n ∧ freq n + 1 ≤ INT_MAX ∧
    INT_MIN ≤ curTotalNum_ c ∧ curTotalNum_ c + 1 ≤ INT_MAX ∧
    minFreq_ c + 1 ≤ INT_MAX.
Proof.
  intros Hcap Hmax Hlen Hops Hk Hn Hcalm.
  destruct (new_run_fits cap maxAvg ops c Hcap) as
    (Hr & _ & _ & Hfreq & Htot' & Hminf); [lia|done|].
  pose proof (Hfreq p n Hn) as Hfn.
  pose proof (ready_linked c Hr) as Hl.
  destruct (getInternal_calm k p n c Hr Hk Hn Hcalm) as
    (c' & Hrun & _ & Hnodes & Hb & Hmin & Htot & _).
  destruct (linked_index c Hl k p Hk) as (n0 & Hn0 & _ & Hin).
  assert (n0 = n) as -> by congruence.
  assert (∀ f, bucket f c' = bucket f (relinked p (freq n + 1) n c)) as Hbk.
  { intros f. unfold bucket. by rewrite Hb. }
  exists c'.
  split_and!; [|done| | |done| |lia|lia|unfold INT_MIN, INT_MAX in *; lia|lia
              |unfold INT8_MAX, INT_MAX in *; lia].
  - unfold get. rewrite Hk, Hrun. done.
  - rewrite Hbk, relinked_bucket, decide_True by done.
    rewrite removeNode_notin; [done|].
    intros (fl & Hfl & Hp)%bucket_elem.
    destruct (linked_bucket c Hl _ fl p Hfl Hp) as (n1 & Hn1 & Hf).
    assert (n1 = n) as -> by congruence. lia.
  - intros f Hf. rewrite Hbk, relinked_bucket. by rewrite decide_False.
  - rewrite Hmin. unfold bumped. simpl.
    rewrite relinked_bucket, decide_False by lia.
    apply bucket_elem in Hin as (fl & Hfl & Hp).
    assert (bucket (freq n) c = fl) as Hbf by (unfold bucket; by rewrite Hfl).
    rewrite Hbf.
    pose proof (removeNode_nil_iff p fl (linked_nodup c Hl _ _ Hfl) Hp) as Hiff.
    destruct (FreqList.removeNode p fl) as [|a l] eqn:E; simpl.
    + case_bool_decide as H1; simpl.
      * rewrite bool_decide_eq_true_2; [done|]. split; [done|]. by apply Hiff.
      * rewrite bool_decide_eq_false_2; [done|]. by intros [? _].
    + rewrite andb_false_r. rewrite bool_decide_eq_false_2; [done|].
      intros [_ Hfl']. apply Hiff in Hfl'. done.
Qed.

(** ** [put] of a key that is not cached *)

Lemma addFreqNum_average c c' :
  linked c → addFreqNum c = Some c' → curAverageNum_ c' = average c'.
Proof.
  intros Hl Hrun.
  destruct (addFreqNum_spec c Hl) as (c'' & Hrun' & _ & Hmv & Htot & Havg & _).
  assert (c'' = c') as -> by congruence.
  rewrite Havg. unfold average. simpl.
  by rewrite Htot, (moved_nodeMap _ _ Hmv).
Qed.

Lemma putInternal_detail k v c :
  ready c → capacity_ c ≠ 0 → nodeMap_ c !! k = None →
  ∃ c1 c' n',
    (if bool_decide (Z.of_nat (size (nodeMap_ c)) = to_size_t (capacity_ c))
     then kickOut c else Some c) = Some c1 ∧
    putInternal k v c = Some c' ∧ ready c' ∧
    nodeMap_ c' = <[k := length (nodes c)]> (nodeMap_ c1) ∧
    payloadKept c c' ∧ minFreq_ c' = 1 ∧
    nodes c' !! length (nodes c) = Some n' ∧ key n' = k ∧ value n' = v ∧
    freq n' = (if decide (agingFires (inserted k v c1))
               then agedFreq (maxAverageNum_ c) 1 else 1) ∧
    curAverageNum_ c' = average c'.
Proof.
  intros Hr Hcap Hk.
  destruct (evict_step c Hr Hcap) as
    (c1 & Hev & Hl1 & Hn1 & Hc1 & Hm1 & Hmin1 & _ & _).
  destruct (putInternal_spec k v c Hr Hcap) as (c' & _ & _ & Hput & Hr' & _).
  pose proof Hput as Hput'.
  rewrite (putInternal_Some k v c c1 Hev) in Hput'.
  assert (primed (inserted k v c1)) as Hp3.
  { apply inserted_primed; [done| |].
    - rewrite Hc1. apply (ready_capacity c Hr).
    - rewrite Hmin1. apply (ready_minFreq c Hr). }
  set (c3 := inserted k v c1) in *.
  destruct (addFreqNum_spec c3 (primed_linked c3 Hp3)) as
    (c4 & Hrun & Hl4 & Hmv & Htot & Havg & Hfire & Hquiet).
  destruct (addFreqNum_ready c3 (primed_linked c3 Hp3)
              (primed_minFreq c3 Hp3) (primed_alloc c3 Hp3)) as
    (c4' & Hrun' & _ & _ & Hpay & Hmin4 & _).
  assert (c4' = c4) as -> by congruence.
  rewrite Hrun in Hput'. simpl in Hput'. injection Hput' as <-.
  set (pn := length (nodes c)).
  assert (nodes c3 !! pn = Some (mkNode 1 k v)) as Hnew.
  { unfold c3, inserted. simpl. rewrite Hn1. by apply list_lookup_middle. }
  assert (∃ n', nodes c4 !! pn = Some n' ∧ key n' = k ∧ value n' = v ∧
            freq n' = (if decide (agingFires c3)
                       then agedFreq (maxAverageNum_ c) 1 else 1))
    as (n' & Hn' & Hkey & Hval & Hfreq).
  { destruct (decide (agingFires c3)) as [Hf|Hf].
    - destruct (Hfire Hf) as [Hnodes _]. rewrite Hnodes, Hnew. simpl.
      eexists. split; [done|]. unfold agedNode.
      rewrite bool_decide_eq_true_2.
      + simpl. split_and!; [done..|]. f_equal.
        unfold c3, inserted. simpl. done.
      + apply livePtrs_elem. exists k. unfold c3, inserted. simpl.
        rewrite Hn1. by rewrite lookup_insert_eq.
    - destruct (Hquiet Hf) as (Hnodes & _). rewrite Hnodes, Hnew.
      by eexists. }
  exists c1, (set_minFreq (Z.min (minFreq_ c4) 1) c4), n'.
  split_and!; [done|done|done| | | |done|done|done|done|].
  - simpl. rewrite (moved_nodeMap _ _ Hmv). unfold c3, inserted. simpl.
    by rewrite Hn1.
  - eapply payloadKept_trans; [|exact Hpay].
    intros q n0 Hq. exists n0. split; [|done].
    unfold c3, inserted. simpl. rewrite Hn1. by apply lookup_app_l_Some.
  - simpl. lia.
  - pose proof (addFreqNum_average c3 c4 (primed_linked c3 Hp3) Hrun).
    done.
Qed.

(** X5.  [put] changes the value of no key but its own, and drops at most
    one key from the cache.  It drops none when its key is cached already
    or when the index does not hold exactly [capacity_] entries (the
    comparison being made in [size_t]). *)
Theorem put_keeps_other_entries cap maxAvg c k v :
  INT_MIN ≤ cap ≤ INT_MAX → cap ≠ 0 → reachable cap maxAvg c →
  ∃ c', put k v c = Some c' ∧
    (∀ k', k' ≠ k → is_Some (nodeMap_ c' !! k') →
       is_Some (nodeMap_ c !! k') ∧
       value <$> entry k' c' = value <$> entry k' c) ∧
    (∃ k0, ∀ k', k' ≠ k0 → is_Some (nodeMap_ c !! k') →
                 is_Some (nodeMap_ c' !! k')) ∧
    (is_Some (nodeMap_ c !! k) ∨
     Z.of_nat (liveCount c) ≠ to_size_t cap →
     ∀ k', is_Some (nodeMap_ c !! k') → is_Some (nodeMap_ c' !! k')).
Proof.
  intros Hcap Hnz Hreach.
  destruct (reachable_ready cap maxAvg c Hcap Hreach) as (Hr & Hc & _).
  pose proof (ready_linked c Hr) as Hl.
  assert (capacity_ c ≠ 0) as Hnz' by congruence.
  unfold put. rewrite bool_decide_eq_false_2 by done.
  destruct (nodeMap_ c !! k) as [p|] eqn:Hk.
  - destruct (linked_index c Hl k p Hk) as (n & Hn & _). rewrite Hn. simpl.
    set (c0 := set_nodes (<[p := set_value v n]> (nodes c)) c).
    assert (ready c0) as Hr0.
    { destruct Hr as [? ? ? ?]. split; [|done..].
      by apply linked_set_value. }
    destruct (getInternal_spec k p c0 Hr0 Hk) as
      (n0 & c' & n' & Hn0 & Hrun & Hr' & Hmv & Hpay & _).
    rewrite Hrun. simpl. exists c'.
    assert (nodeMap_ c' = nodeMap_ c) as Hm by apply Hmv.
    split_and!; [done| | |].
    + intros k' Hne Hin. rewrite Hm in Hin. split; [done|].
      unfold entry. rewrite Hm.
      destruct (nodeMap_ c !! k') as [q|] eqn:Hk'; [simpl|done].
      destruct (linked_index c Hl k' q Hk') as (nq & Hnq & _).
      assert (q ≠ p) as Hqp.
      { intros ->. destruct (linked_index c Hl k p Hk) as (? & ? & ? & _).
        destruct (linked_index c Hl k' p Hk') as (? & ? & ? & _).
        congruence. }
      assert (nodes c0 !! q = Some nq) as Hq0.
      { unfold c0. simpl. by rewrite list_lookup_insert_ne. }
      destruct (Hpay q nq Hq0) as (nq' & Hnq' & _ & Hval).
      rewrite Hnq, Hnq'. simpl. by rewrite Hval.
    + exists k. intros k' _. by rewrite Hm.
    + intros _ k'. by rewrite Hm.
  - destruct (putInternal_detail k v c Hr Hnz' Hk) as
      (c1 & c' & n' & Hev & Hput & Hr' & Hm & Hpay & _).
    destruct (evict_step c Hr Hnz') as
      (c1' & Hev' & _ & _ & _ & _ & _ & [k0 Hm1] & Hnotfull).
    assert (c1' = c1) as -> by congruence.
    rewrite Hput. exists c'.
    assert (∀ k' q, nodeMap_ c1 !! k' = Some q → nodeMap_ c !! k' = Some q)
      as Hsub.
    { intros k' q. destruct Hm1 as [-> | ->]; [|done].
      by intros [_ ?]%lookup_delete_Some. }
    split_and!; [done| | |].
    + intros k' Hne [q Hq]. rewrite Hm, lookup_insert_ne in Hq by done.
      pose proof (Hsub k' q Hq) as Hq'. split; [by eexists|].
      unfold entry. rewrite Hm, lookup_insert_ne by done.
      rewrite Hq, Hq'. simpl.
      destruct (linked_index c Hl k' q Hq') as (nq & Hnq & _).
      destruct (Hpay q nq Hnq) as (nq' & Hnq' & _ & Hval).
      rewrite Hnq, Hnq'. simpl. by rewrite Hval.
    + exists k0. intros k' Hne [q Hq]. rewrite Hm.
      destruct (decide (k = k')) as [->|Hkk]; [by rewrite Hk in Hq|].
      rewrite lookup_insert_ne by done.
      destruct Hm1 as [-> | ->]; [|by eexists].
      rewrite lookup_delete_ne by done. by eexists.
    + intros [[? ?]|Hsz]; [done|]. intros k' [q Hq]. rewrite Hm.
      rewrite Hnotfull by (unfold liveCount in Hsz; by rewrite Hc).
      destruct (decide (k = k')) as [->|Hkk]; [by rewrite Hk in Hq|].
      rewrite lookup_insert_ne by done. by eexists.
Qed.

(** X6.  A [put] of a key that is not cached, on a cache whose ceiling is
    not negative, leaves an entry with this key, the value given and
    frequency 1, linked in bucket 1, and sets [minFreq_] to 1: the new entry
    is in the bucket the next eviction takes from.  The live count grows by
    at most 1. *)
Theorem put_new_key cap maxAvg c k v :
  INT_MIN ≤ cap ≤ INT_MAX → cap ≠ 0 → 0 ≤ maxAvg → reachable cap maxAvg c →
  nodeMap_ c !! k = None →
  ∃ c' p n', put k v c = Some c' ∧
    nodeMap_ c' !! k = Some p ∧ nodes c' !! p = Some n' ∧
    key n' = k ∧ value n' = v ∧ freq n' = 1 ∧
    minFreq_ c' = 1 ∧ p ∈ bucket (minFreq_ c') c' ∧
    (liveCount c' ≤ liveCount c + 1)%nat.
Proof.
  intros Hcap Hnz Hm Hreach Hk.
  destruct (reachable_ready cap maxAvg c Hcap Hreach) as (Hr & Hc & Hma).
  assert (capacity_ c ≠ 0) as Hnz' by congruence.
  unfold put. rewrite bool_decide_eq_false_2 by done. rewrite Hk.
  destruct (putInternal_detail k v c Hr Hnz' Hk) as
    (c1 & c' & n' & Hev & Hput & Hr' & Hnm & _ & Hmin & Hn' & Hkey & Hval &
     Hfreq & _).
  destruct (evict_step c Hr Hnz') as
    (c1' & Hev' & _ & _ & _ & _ & _ & [k0 Hm1] & _).
  assert (c1' = c1) as -> by congruence.
  assert (freq n' = 1) as Hone.
  { rewrite Hfreq. case_decide; [|done]. rewrite Hma. by apply agedFreq_one. }
  assert (nodeMap_ c' !! k = Some (length (nodes c))) as Hk'
    by (by rewrite Hnm, lookup_insert_eq).
  exists c', (length (nodes c)), n'.
  split_and!; [done..| |].
  - destruct (linked_index c' (ready_linked c' Hr') k _ Hk') as
      (n0 & Hn0 & _ & Hin).
    assert (n0 = n') as -> by congruence.
    by rewrite Hmin, <- Hone.
  - unfold liveCount. rewrite Hnm.
    assert (size (nodeMap_ c1) ≤ size (nodeMap_ c))%nat as Hle.
    { destruct Hm1 as [-> | ->]; [|done]. rewrite map_size_delete.
      destruct (nodeMap_ c !! k0); simpl; lia. }
    rewrite map_size_insert. destruct (nodeMap_ c1 !! k); simpl; lia.
Qed.

(** ** The running average *)

Lemma to_size_t_small z : 0 ≤ z ≤ INT_MAX → to_size_t z = z.
Proof. unfold to_size_t, INT_MAX. intros. apply Z.mod_small. lia. Qed.

Lemma to_int_small z : 0 ≤ z ≤ INT_MAX → to_int z = z.
Proof.
  unfold to_int, INT_MAX. intros.
  rewrite Z.mod_small; [lia|]. change (2 ^ 31) with 2147483648.
  change (2 ^ 32) with 4294967296. lia.
Qed.

Lemma average_plain c :
  size (nodeMap_ c) ≠ 0%nat → 0 ≤ curTotalNum_ c ≤ INT_MAX →
  average c = curTotalNum_ c / Z.of_nat (size (nodeMap_ c)) ∧
  0 ≤ average c ≤ curTotalNum_ c.
Proof.
  intros Hsz Ht. unfold average.
  rewrite bool_decide_eq_false_2 by done.
  rewrite to_size_t_small by done.
  set (q := curTotalNum_ c / Z.of_nat (size (nodeMap_ c))).
  assert (0 ≤ q ≤ curTotalNum_ c) as Hq.
  { unfold q. split.
    - apply Z.div_pos; lia.
    - apply Z.div_le_upper_bound; [lia|]. nia. }
  rewrite to_int_small by lia. done.
Qed.

Lemma getInternal_average k p c c' v :
  ready c → nodeMap_ c !! k = Some p → getInternal p c = Some (c', v) →
  curAverageNum_ c' = average c'.
Proof.
  intros Hr Hk Hrun.
  destruct (linked_index c (ready_linked c Hr) k p Hk) as (n & Hn & _ & Hin).
  apply bucket_elem in Hin as (fl & Hfl & _).
  rewrite (getInternal_Some p n) in Hrun by (by rewrite ?Hfl).
  destruct (addFreqNum (bumped p n c)) as [c4|] eqn:Hadd; [|done].
  simpl in Hrun. injection Hrun as <- _.
  apply (addFreqNum_average (bumped p n c)); [|done].
  apply ready_linked. by eapply bumped_ready.
Qed.

Lemma step_average o c c' :
  ready c → curAverageNum_ c = average c → isPurge o = false →
  step o c = Some c' → curAverageNum_ c' = average c'.
Proof.
  intros Hr Havg Hnp Hstep. destruct o as [k v|k|]; [| |done]; simpl in Hstep.
  - unfold put in Hstep. case_bool_decide as Hcap; [congruence|].
    destruct (nodeMap_ c !! k) as [p|] eqn:Hk.
    + destruct (linked_index c (ready_linked c Hr) k p Hk) as (n & Hn & _).
      rewrite Hn in Hstep. simpl in Hstep.
      set (c0 := set_nodes (<[p := set_value v n]> (nodes c)) c) in *.
      assert (ready c0) as Hr0.
      { destruct Hr as [? ? ? ?]. split; [|done..].
        by apply linked_set_value. }
      destruct (getInternal p c0) as [[c4 v4]|] eqn:Hget; [|done].
      simpl in Hstep. injection Hstep as <-.
      by apply (getInternal_average k p c0 c4 v4).
    + destruct (putInternal_detail k v c Hr Hcap Hk) as
        (c1 & c'' & n' & _ & Hput & _ & _ & _ & _ & _ & _ & _ & _ & Hav).
      congruence.
  - unfold get in Hstep. destruct (nodeMap_ c !! k) as [p|] eqn:Hk.
    + destruct (getInternal p c) as [[c4 v4]|] eqn:Hget; [|done].
      simpl in Hstep. injection Hstep as <-.
      by apply (getInternal_average k p c c4 v4).
    + simpl in Hstep. congruence.
Qed.

Lemma run_average ops c c' :
  ready c → curAverageNum_ c = average c → purgeFree ops →
  run ops c = Some c' → curAverageNum_ c' = average c'.
Proof.
  revert c. induction ops as [|o ops IH]; intros c Hr Havg Hpf Hrun.
  - simpl in Hrun. congruence.
  - apply Forall_cons in Hpf as [Ho Hpf]. simpl in Hrun.
    destruct (step_ready o c Hr) as (c1 & Hstep & Hr1 & _).
    rewrite Hstep in Hrun. simpl in Hrun.
    apply (IH c1); [done| |done|done].
    by apply (step_average o c c1).
Qed.

(** X7.  After any sequence of [put] and [get] operations on a newly built
    cache the stored average is the one [addFreqNum] computes from the
    stored total and the number of live entries: 0 for an empty cache, and
    the integer quotient of the two whenever the total is a non-negative
    [int]. *)
Theorem average_up_to_date cap maxAvg ops c :
  INT_MIN ≤ cap ≤ INT_MAX → purgeFree ops →
  run ops (ILfuCache_new cap maxAvg) = Some c →
  curAverageNum_ c = average c ∧
  (liveCount c = 0%nat → curAverageNum_ c = 0) ∧
  (liveCount c ≠ 0%nat → 0 ≤ curTotalNum_ c ≤ INT_MAX →
   curAverageNum_ c = curTotalNum_ c / Z.of_nat (liveCount c)).
Proof.
  intros Hcap Hpf Hrun.
  assert (curAverageNum_ c = average c) as Havg.
  { apply (run_average ops (ILfuCache_new cap maxAvg));
      [by apply ready_new|done|done|done]. }
  split_and!; [done| |].
  - intros Hz. rewrite Havg. unfold average, liveCount in *.
    by rewrite bool_decide_eq_true_2.
  - intros Hnz Ht. rewrite Havg. by apply average_plain.
Qed.

(** ** Sums of frequencies *)

Lemma sumOver_empty (g : nat → Z) : sumOver g (∅ : gmap Key nat) = 0.
Proof. unfold sumOver. by rewrite map_fold_empty. Qed.

Lemma sumOver_insert (g : nat → Z) (m : gmap Key nat) k p :
  m !! k = None → sumOver g (<[k := p]> m) = sumOver g m + g p.
Proof.
  intros Hk. unfold sumOver.
  rewrite map_fold_insert_L; [done| |done]. intros. lia.
Qed.

Lemma sumOver_delete (g : nat → Z) (m : gmap Key nat) k p :
  m !! k = Some p → sumOver g (delete k m) = sumOver g m - g p.
Proof.
  intros Hk. rewrite <- (insert_delete_id m k p Hk) at 2.
  rewrite sumOver_insert by apply lookup_delete_eq. lia.
Qed.

Lemma sumOver_ext (g g' : nat → Z) (m : gmap Key nat) :
  (∀ k p, m !! k = Some p → g p = g' p) → sumOver g m = sumOver g' m.
Proof.
  induction m as [|k p m Hk IH] using map_ind; intros Hext.
  - by rewrite !sumOver_empty.
  - rewrite !sumOver_insert by done.
    rewrite IH, (Hext k p); [done|apply lookup_insert_eq|].
    intros k' p' Hk'. apply (Hext k'). rewrite lookup_insert_ne; [done|].
    intros ->. congruence.
Qed.

Lemma sumOver_nonneg (g : nat → Z) (m : gmap Key nat) :
  (∀ k p, m !! k = Some p → 0 ≤ g p) → 0 ≤ sumOver g m.
Proof.
  induction m as [|k p m Hk IH] using map_ind; intros Hpos.
  - by rewrite sumOver_empty.
  - rewrite sumOver_insert by done.
    assert (0 ≤ g p) by (apply (Hpos k); apply lookup_insert_eq).
    assert (0 ≤ sumOver g m); [|lia].
    apply IH. intros k' p' Hk'. apply (Hpos k').
    rewrite lookup_insert_ne; [done|]. intros ->. congruence.
Qed.

Lemma sumOver_lower (g : nat → Z) (m : gmap Key nat) k p :
  (∀ k p, m !! k = Some p → 0 ≤ g p) → m !! k = Some p → g p ≤ sumOver g m.
Proof.
  intros Hpos Hk.
  assert (0 ≤ sumOver g (delete k m)) as Hrest.
  { apply sumOver_nonneg. intros k' p' [_ Hk']%lookup_delete_Some. eauto. }
  rewrite (sumOver_delete g m k p Hk) in Hrest. lia.
Qed.

Lemma totalFreq_sumOver c : totalFreq c = sumOver (freqAt c) (nodeMap_ c).
Proof. done. Qed.

Lemma freqAt_live c k p :
  linked c → nodeMap_ c !! k = Some p → 1 ≤ freqAt c p.
Proof.
  intros Hl Hk. destruct (linked_index c Hl k p Hk) as (n & Hn & _ & Hin).
  unfold freqAt. rewrite Hn. simpl.
  apply bucket_elem in Hin as (fl & Hfl & _).
  apply (linked_pos c Hl). by eexists.
Qed.

Lemma totalFreq_nonneg c : linked c → 0 ≤ totalFreq c.
Proof.
  intros Hl. rewrite totalFreq_sumOver. apply sumOver_nonneg.
  intros k p Hk. pose proof (freqAt_live c k p Hl Hk). lia.
Qed.

Lemma index_injective c k k' p :
  linked c → nodeMap_ c !! k = Some p → nodeMap_ c !! k' = Some p → k = k'.
Proof.
  intros Hl Hk Hk'.
  destruct (linked_index c Hl k p Hk) as (n & Hn & Hkey & _).
  destruct (linked_index c Hl k' p Hk') as (n' & Hn' & Hkey' & _).
  congruence.
Qed.

(** The sum after the node of one key has been replaced. *)
Lemma totalFreq_update c c' k p n n' :
  linked c → nodeMap_ c !! k = Some p → nodes c !! p = Some n →
  nodeMap_ c' = nodeMap_ c → nodes c' = <[p := n']> (nodes c) →
  totalFreq c' = totalFreq c - freq n + freq n'.
Proof.
  intros Hl Hk Hn Hm Hnodes. rewrite !totalFreq_sumOver, Hm.
  rewrite <- (insert_delete_id (nodeMap_ c) k p Hk).
  rewrite !sumOver_insert by apply lookup_delete_eq.
  assert (freqAt c' p = freq n') as ->.
  { unfold freqAt. rewrite Hnodes.
    by rewrite list_lookup_insert_eq by (by eapply lookup_lt_Some). }
  assert (freqAt c p = freq n) as -> by (unfold freqAt; by rewrite Hn).
  rewrite (sumOver_ext (freqAt c') (freqAt c)); [lia|].
  intros k' q [Hne Hk']%lookup_delete_Some. unfold freqAt. rewrite Hnodes.
  rewrite list_lookup_insert_ne; [done|].
  intros ->. apply Hne. by eapply index_injective.
Qed.

(** ** The aging pass on a cache without stale nodes *)

Lemma sumOver_mono (g g' : nat → Z) (m : gmap Key nat) :
  (∀ k p, m !! k = Some p → g p ≤ g' p) → sumOver g m ≤ sumOver g' m.
Proof.
  induction m as [|k p m Hk IH] using map_ind; intros Hle.
  - by rewrite !sumOver_empty.
  - rewrite !sumOver_insert by done.
    assert (g p ≤ g' p) by (apply (Hle k); apply lookup_insert_eq).
    assert (sumOver g m ≤ sumOver g' m); [|lia].
    apply IH. intros k' p' Hk'. apply (Hle k').
    rewrite lookup_insert_ne; [done|]. intros ->. congruence.
Qed.

Lemma sumOver_at_least (g : nat → Z) (m : gmap Key nat) a :
  (∀ k p, m !! k = Some p → a ≤ g p) → a * Z.of_nat (size m) ≤ sumOver g m.
Proof.
  induction m as [|k p m Hk IH] using map_ind; intros Hle.
  - rewrite sumOver_empty, map_size_empty. lia.
  - rewrite sumOver_insert, map_size_insert_None by done.
    assert (a ≤ g p) by (apply (Hle k); apply lookup_insert_eq).
    assert (a * Z.of_nat (size m) ≤ sumOver g m); [|lia].
    apply IH. intros k' p' Hk'. apply (Hle k').
    rewrite lookup_insert_ne; [done|]. intros ->. congruence.
Qed.

Lemma relinked_noStale p f node c k :
  noStale c → nodeMap_ c !! k = Some p → noStale (relinked p f node c).
Proof.
  intros Hns Hk f0 fl q Hfl Hq.
  change (nodeMap_ (relinked p f node c)) with (nodeMap_ c).
  assert (q ∈ bucket f0 (relinked p f node c)) as Hq'
    by (apply bucket_elem; eauto).
  apply relinked_bucket_elem in Hq' as [[_ ->]|[_ Hq']]; [by exists k|].
  apply bucket_elem in Hq' as (fl0 & Hfl0 & Hq0). by apply (Hns f0 fl0).
Qed.

Lemma ageAll_noStale ps c c' :
  linked c → (∀ p, p ∈ ps → ∃ k, nodeMap_ c !! k = Some p) →
  noStale c → ageAll ps c = Some c' → noStale c'.
Proof.
  revert c. induction ps as [|p ps IH]; intros c Hl Hlive Hns Hrun.
  - simpl in Hrun. by injection Hrun as <-.
  - destruct (Hlive p) as (k & Hk); [by left|].
    destruct (linked_index c Hl k p Hk) as (n & Hn & _ & Hin).
    apply bucket_elem in Hin as (fl & Hfl & _).
    simpl in Hrun. rewrite (ageNode_Some p n) in Hrun by (by rewrite ?Hfl).
    simpl in Hrun.
    apply (IH (relinked p (agedFreq (maxAverageNum_ c) (freq n)) n c)).
    + apply relinked_linked; [done|done|apply agedFreq_pos].
    + intros q Hq. apply Hlive. by right.
    + by apply (relinked_noStale p _ n c k).
    + done.
Qed.

Lemma set_minFreq_id c : set_minFreq (minFreq_ c) c = c.
Proof. by destruct c. Qed.

(** The aging pass on a state without stale nodes in which some live entry
    ends below [INT8_MAX]: the state it leaves is exact. *)
Lemma aging_exact c k p n :
  primed c → noStale c →
  Z.of_nat (size (nodeMap_ c)) ≤ capacity_ c →
  totalFreq c ≤ curTotalNum_ c → 0 ≤ maxAverageNum_ c →
  nodeMap_ c !! k = Some p → nodes c !! p = Some n →
  agedFreq (maxAverageNum_ c) (freq n) < INT8_MAX →
  ∃ c', handleOverMaxAverageNum c = Some c' ∧ exact c' ∧
    nodeMap_ c' = nodeMap_ c ∧ curTotalNum_ c' = curTotalNum_ c ∧
    capacity_ c' = capacity_ c ∧ maxAverageNum_ c' = maxAverageNum_ c ∧
    minFreq_ c' ≤ agedFreq (maxAverageNum_ c) (freq n).
Proof.
  intros [Hl Hcap Hmin H1] Hns Hsize Htotal Hm Hk Hn Hsmall.
  assert (nodeMap_ c ≠ ∅) as Hne.
  { intros Hemp. by rewrite Hemp in Hk. }
  destruct (handleOverMaxAverageNum_spec c Hl) as
    (c' & Hrun & Hl' & Hmv & Htot & _ & Hnodes & Hminf).
  rewrite bool_decide_eq_false_2 in Hminf by done.
  pose proof (moved_nodeMap _ _ Hmv) as Hnm.
  pose proof (moved_alloc _ _ Hmv 1 H1) as H1'.
  (* the aged node of [k] *)
  assert (k_aged : ∃ n', nodes c' !! p = Some n' ∧
                         freq n' = agedFreq (maxAverageNum_ c) (freq n) ∧
                         p ∈ bucket (freq n') c').
  { assert (nodeMap_ c' !! k = Some p) as Hk' by (by rewrite Hnm).
    destruct (linked_index c' Hl' k p Hk') as (n' & Hn' & _ & Hin').
    exists n'. split_and!; [done| |done].
    rewrite Hnodes, Hn in Hn'. simpl in Hn'. injection Hn' as <-.
    unfold agedNode. rewrite bool_decide_eq_true_2; [done|].
    apply livePtrs_elem. by exists k. }
  destruct k_aged as (n' & Hn' & Hf' & Hin').
  (* the scan finds a bucket below INT8_MAX *)
  destruct (scanMinFreq_spec (freqToFreqList_ c')) as (_ & Hlow & Hex).
  assert (scanMinFreq (freqToFreqList_ c') ≤ freq n') as Hscan.
  { apply bucket_elem in Hin' as (fl & Hfl & Hp).
    apply (Hlow _ fl); [done|]. intros ->. by apply elem_of_nil in Hp. }
  assert (minFreq_ c' = scanMinFreq (freqToFreqList_ c')) as Hmin'.
  { rewrite Hminf. unfold recomputedMinFreq.
    rewrite bool_decide_eq_false_2; [done|]. lia. }
  destruct Hex as [Hex|(fl0 & Hfl0 & Hne0)]; [lia|].
  assert (ready c') as Hr'.
  { split; [done| | |].
    - by rewrite (moved_capacity _ _ Hmv).
    - rewrite Hminf. apply (updateMinFreq_minFreq c' Hl' H1').
    - intros _. split; [done|]. rewrite Hminf.
      apply (updateMinFreq_minFreq c' Hl' H1'). }
  exists c'. split_and!; [done| |done|done|apply Hmv|apply Hmv|lia].
  split; [done| | | |].
  - (* no stale nodes: through the loop *)
    unfold handleOverMaxAverageNum in Hrun.
    rewrite bool_decide_eq_false_2 in Hrun
      by (by apply map_size_non_empty_iff).
    destruct (ageAll (map_to_list (nodeMap_ c)).*2 c) as [c0|] eqn:Hloop;
      [|done].
    simpl in Hrun. injection Hrun as <-.
    assert (noStale c0) as Hns0.
    { apply (ageAll_noStale (map_to_list (nodeMap_ c)).*2 c c0 Hl);
        [|done|done].
      intros q. apply livePtrs_elem. }
    intros f fl q Hfl Hq. exact (Hns0 f fl q Hfl Hq).
  - intros _. rewrite Hmin'. split.
    + destruct fl0 as [|q0 fl0]; [done|]. exists q0.
      apply bucket_elem. exists (q0 :: fl0). split; [done|by left].
    + intros f q (fl & Hfl & Hq)%bucket_elem.
      apply (Hlow f fl); [done|]. intros ->. by apply elem_of_nil in Hq.
  - by rewrite Hnm, (moved_capacity _ _ Hmv).
  - rewrite Htot. etrans; [|exact Htotal].
    rewrite !totalFreq_sumOver, Hnm. apply sumOver_mono.
    intros k' q Hk'.
    destruct (linked_index c Hl k' q Hk') as (nq & Hnq & _).
    pose proof (freqAt_live c k' q Hl Hk') as Hpos.
    unfold freqAt in *. rewrite Hnodes, Hnq in *. simpl in *.
    unfold agedNode. rewrite bool_decide_eq_true_2
      by (apply livePtrs_elem; by exists k').
    simpl. by apply agedFreq_le.
Qed.

(** ** As long as no aging pass runs *)

Lemma calm_no_aging c :
  0 ≤ curTotalNum_ c → curTotalNum_ c + 1 ≤ maxAverageNum_ c →
  maxAverageNum_ c ≤ INT_MAX → ¬ agingFires c.
Proof.
  intros H0 H1 H2. unfold agingFires.
  destruct (decide (size (nodeMap_ c) = 0%nat)) as [Hz|Hnz].
  - unfold average. simpl. rewrite bool_decide_eq_true_2 by done. lia.
  - destruct (average_plain (set_curTotalNum (curTotalNum_ c + 1) c))
      as [_ Hav]; [done|simpl; lia|].
    simpl in Hav. lia.
Qed.

Lemma exact_total_nonneg c : exact c → 0 ≤ curTotalNum_ c.
Proof.
  intros He. pose proof (exact_total c He).
  pose proof (totalFreq_nonneg c (ready_linked c (exact_ready c He))). lia.
Qed.

Lemma exact_set_value k p n v c :
  exact c → nodeMap_ c !! k = Some p → nodes c !! p = Some n →
  let c0 := set_nodes (<[p := set_value v n]> (nodes c)) c in
  exact c0 ∧ totalFreq c0 = totalFreq c.
Proof.
  intros [Hr Hlive Hmin Hsize Htot] Hk Hn c0.
  assert (totalFreq c0 = totalFreq c) as HS.
  { rewrite (totalFreq_update c c0 k p n (set_value v n));
      [simpl; lia|apply (ready_linked c Hr)|done..]. }
  split; [|done]. split; [|done|done|done|by rewrite HS].
  destruct Hr as [? ? ? ?]. split; [|done..]. by apply linked_set_value.
Qed.

(** A state that differs from [c] by the move of the node of [k] one
    bucket up and one more counted operation is exact. *)
Lemma bump_exact k p n c c' :
  exact c → nodeMap_ c !! k = Some p → nodes c !! p = Some n →
  ready c' → nodeMap_ c' = nodeMap_ c →
  nodes c' = <[p := set_freq (freq n + 1) n]> (nodes c) →
  freqToFreqList_ c' = freqToFreqList_ (relinked p (freq n + 1) n c) →
  minFreq_ c' = minFreq_ (bumped p n c) →
  curTotalNum_ c' = curTotalNum_ c + 1 → capacity_ c' = capacity_ c →
  exact c' ∧ totalFreq c' = totalFreq c + 1.
Proof.
  intros He Hk Hn Hr' Hm Hnodes Hb Hmin Htot Hcap.
  pose proof (exact_ready c He) as Hr. pose proof (ready_linked c Hr) as Hl.
  assert (totalFreq c' = totalFreq c + 1) as HS.
  { rewrite (totalFreq_update c c' k p n (set_freq (freq n + 1) n));
      [simpl; lia|done..]. }
  destruct (linked_index c Hl k p Hk) as (n2 & Hn2 & _ & Hin).
  assert (n2 = n) as -> by congruence.
  assert (∀ f q, q ∈ bucket f c' ↔
                 (f = freq n + 1 ∧ q = p) ∨ (q ≠ p ∧ q ∈ bucket f c)) as Hbk.
  { intros f q. unfold bucket at 1. rewrite Hb.
    apply (relinked_bucket_elem p (freq n + 1) n c f q). }
  split; [|done].
  split; [done| | | |].
  - intros f fl q Hfl Hq. rewrite Hm.
    assert (q ∈ bucket f c') as Hq' by (apply bucket_elem; eauto).
    apply Hbk in Hq' as [[_ ->]|[_ Hq']]; [by exists k|].
    apply bucket_elem in Hq' as (fl0 & Hfl0 & Hq0).
    by apply (exact_live c He f fl0 q).
  - intros _.
    destruct (exact_min c He) as [[q0 Hq0] Hlow].
    { intros Hemp. by rewrite Hemp in Hk. }
    pose proof (Hlow _ _ Hin) as Hle.
    rewrite Hmin. unfold bumped.
    destruct (bool_decide (freq n = minFreq_ c) &&
              FreqList.isEmpty (bucket (freq n)
                                  (relinked p (freq n + 1) n c))) eqn:E.
    + apply andb_true_iff in E as [E1%bool_decide_eq_true E2]. simpl.
      split.
      * exists p. apply Hbk. left. split; [lia|done].
      * intros f q [[-> _]|[Hne Hq]]%Hbk; [lia|].
        pose proof (Hlow _ _ Hq) as Hle'.
        destruct (decide (f = minFreq_ c)) as [->|]; [|lia].
        exfalso. rewrite <- E1 in Hq.
        assert (q ∈ bucket (freq n) (relinked p (freq n + 1) n c)) as Hq2.
        { apply relinked_bucket_elem. by right. }
        destruct (bucket (freq n) (relinked p (freq n + 1) n c));
          [by apply elem_of_nil in Hq2|done].
    + assert (minFreq_ (relinked p (freq n + 1) n c) = minFreq_ c) as ->
        by done.
      split.
      * apply andb_false_iff in E as [E1%bool_decide_eq_false|E2].
        -- exists q0. apply Hbk. right. split; [|done].
           intros ->. apply E1.
           apply bucket_elem in Hq0 as (fl0 & Hfl0 & Hq0).
           destruct (linked_bucket c Hl _ _ _ Hfl0 Hq0) as (n3 & Hn3 & <-).
           congruence.
        -- destruct (bucket (freq n) (relinked p (freq n + 1) n c))
             as [|q1 l] eqn:Eb; [done|].
           assert (q1 ∈ bucket (freq n) (relinked p (freq n + 1) n c)) as Hq1
             by (rewrite Eb; by left).
           apply relinked_bucket_elem in Hq1 as [[? _]|[Hne Hq1]]; [lia|].
           destruct (decide (freq n = minFreq_ c)) as [Heq|Hneq].
           ++ exists q1. apply Hbk. right. by rewrite <- Heq.
           ++ exists q0. apply Hbk. right. split; [|done].
              intros ->. apply Hneq.
              apply bucket_elem in Hq0 as (fl0 & Hfl0 & Hq0).
              destruct (linked_bucket c Hl _ _ _ Hfl0 Hq0) as (n3 & Hn3 & <-).
              congruence.
      * intros f q [[-> _]|[Hne Hq]]%Hbk; [lia|]. by eapply Hlow.
  - rewrite Hm, Hcap. apply (exact_size c He).
  - rewrite HS, Htot. pose proof (exact_total c He). lia.
Qed.

Lemma getInternal_exact k p n c :
  exact c → nodeMap_ c !! k = Some p → nodes c !! p = Some n →
  curTotalNum_ c + 1 ≤ maxAverageNum_ c → maxAverageNum_ c ≤ INT_MAX →
  ∃ c', getInternal p c = Some (c', value n) ∧ exact c' ∧
        nodeMap_ c' = nodeMap_ c ∧
        curTotalNum_ c' = curTotalNum_ c + 1 ∧
        totalFreq c' = totalFreq c + 1 ∧
        capacity_ c' = capacity_ c ∧ maxAverageNum_ c' = maxAverageNum_ c.
Proof.
  intros He Hk Hn Hbound Hmax.
  pose proof (exact_ready c He) as Hr.
  assert (¬ agingFires c) as Hcalm.
  { apply calm_no_aging; [by apply exact_total_nonneg|done..]. }
  destruct (getInternal_calm k p n c Hr Hk Hn Hcalm) as
    (c' & Hrun & Hm & Hnodes & Hb & Hmin & Htot & _ & Hcap & Hmx).
  destruct (getInternal_spec k p c Hr Hk) as
    (n0 & c'' & n1 & _ & Hrun' & Hr' & _).
  assert (c'' = c') as -> by congruence.
  destruct (bump_exact k p n c c') as [He' HS]; [done..|].
  by exists c'.
Qed.

(** Where the average is within the ceiling, so is [minFreq_]. *)
Lemma quiet_lowMin c :
  exact c → curTotalNum_ c ≤ INT_MAX → average c ≤ maxAverageNum_ c →
  lowMin c.
Proof.
  intros He HT Hav Hne.
  pose proof (exact_ready c He) as Hr. pose proof (ready_linked c Hr) as Hl.
  pose proof (exact_total_nonneg c He) as HT0.
  pose proof (exact_total c He) as HTS.
  assert (size (nodeMap_ c) ≠ 0%nat) as Hsz
    by (by apply map_size_non_empty_iff).
  destruct (average_plain c Hsz) as [Heq _]; [lia|].
  destruct (exact_min c He Hne) as [_ Hlow].
  assert (minFreq_ c * Z.of_nat (size (nodeMap_ c)) ≤ totalFreq c) as Hsum.
  { rewrite totalFreq_sumOver. apply sumOver_at_least. intros k p Hk.
    destruct (linked_index c Hl k p Hk) as (n & Hn & _ & Hin).
    unfold freqAt. rewrite Hn. simpl. by apply (Hlow _ p). }
  rewrite Heq in Hav.
  pose proof (Z.div_mod (curTotalNum_ c) (Z.of_nat (size (nodeMap_ c)))).
  pose proof (Z.mod_pos_bound (curTotalNum_ c)
                              (Z.of_nat (size (nodeMap_ c)))).
  nia.
Qed.

(** A hit of [get] on an exact cache, whether the aging pass runs or not,
    for a ceiling between 2 and 250. *)
Lemma getInternal_sound k p n c :
  exact c → lowMin c → nodeMap_ c !! k = Some p → nodes c !! p = Some n →
  curTotalNum_ c + 1 ≤ INT_MAX → 2 ≤ maxAverageNum_ c ≤ 250 →
  ∃ c', getInternal p c = Some (c', value n) ∧ exact c' ∧ lowMin c' ∧
        nodeMap_ c' = nodeMap_ c ∧
        curTotalNum_ c' = curTotalNum_ c + 1 ∧
        capacity_ c' = capacity_ c ∧ maxAverageNum_ c' = maxAverageNum_ c.
Proof.
  intros He Hlow Hk Hn Hint Hmax.
  pose proof (exact_ready c He) as Hr. pose proof (ready_linked c Hr) as Hl.
  assert (nodeMap_ c ≠ ∅) as Hne.
  { intros Hemp. by rewrite Hemp in Hk. }
  destruct (linked_index c Hl k p Hk) as (n0 & Hn0 & _ & Hin).
  assert (n0 = n) as -> by congruence.
  apply bucket_elem in Hin as (fl & Hfl & _).
  rewrite (getInternal_Some p n) by (by rewrite ?Hfl).
  rewrite addFreqNum_unfold.
  pose proof (bumped_ready k p n c Hr Hk Hn) as Hr3.
  pose proof (bumped_moved p n c) as Hmv3.
  assert (curTotalNum_ (bumped p n c) = curTotalNum_ c) as Ht3.
  { unfold bumped. by destruct (_ && _). }
  set (b := bumped p n c) in *.
  assert (ready (counted b)) as HrX.
  { destruct Hr3 as [Hl3 ? ? ?]. split; [|done..].
    by apply (linked_ext b (counted b)). }
  destruct (bump_exact k p n c (counted b)) as [HeX _];
    [done|done|done|done|apply Hmv3|apply bumped_nodes|apply bumped_buckets
    |done|simpl; by rewrite Ht3|apply Hmv3|].
  assert (nodeMap_ (counted b) = nodeMap_ c) as HmX by apply Hmv3.
  assert (maxAverageNum_ (counted b) = maxAverageNum_ c) as HaX by apply Hmv3.
  assert (capacity_ (counted b) = capacity_ c) as HcX by apply Hmv3.
  assert (curTotalNum_ (counted b) = curTotalNum_ c + 1) as HtX
    by (simpl; by rewrite Ht3).
  assert (minFreq_ (counted b) ≤ minFreq_ c + 1) as HminX.
  { change (minFreq_ (counted b)) with (minFreq_ (bumped p n c)).
    unfold bumped. destruct (_ && _); simpl; lia. }
  destruct (decide (agingFires b)) as [Hfire|Hquiet].
  - (* the aging pass: a least frequent entry ends below INT8_MAX *)
    destruct (exact_min _ HeX) as [[q0 Hq0] _]; [by rewrite HmX|].
    apply bucket_elem in Hq0 as (fl0 & Hfl0 & Hq0).
    destruct (exact_live _ HeX _ _ _ Hfl0 Hq0) as (k0 & Hk0).
    destruct (linked_bucket _ (ready_linked _ HrX) _ _ _ Hfl0 Hq0)
      as (n3 & Hn3 & Hf3).
    pose proof (Hlow Hne) as Hlow'.
    destruct (aging_exact (counted b) k0 q0 n3) as
      (c' & Hrun & He' & Hm' & Ht' & Hc' & Ha' & Hmin');
      [apply ready_primed; [done|by rewrite HmX]
      |exact (exact_live _ HeX)|exact (exact_size _ HeX)
      |exact (exact_total _ HeX)|lia|done|done
      |apply agedFreq_small; lia|].
    rewrite Hrun. simpl. exists c'.
    split_and!; [done|done| |congruence|congruence|congruence|congruence].
    intros _. rewrite Ha', HaX. etrans; [exact Hmin'|].
    rewrite HaX. pose proof (agedFreq_drop (maxAverageNum_ c) (freq n3)).
    lia.
  - simpl. exists (counted b).
    split_and!; [done|done| |done..].
    apply quiet_lowMin; [done|lia|]. rewrite HaX.
    unfold agingFires in Hquiet.
    change (average (counted b))
      with (average (set_curTotalNum (curTotalNum_ b + 1) b)).
    change (maxAverageNum_ b) with (maxAverageNum_ (counted b)) in Hquiet.
    rewrite HaX in Hquiet. lia.
Qed.

(** [kickOut] on a cache without stale nodes: the head of the [minFreq_]
    bucket is a live entry of the least frequency, and it is the one that
    goes. *)
Lemma kickOut_exact c :
  exact c → nodeMap_ c ≠ ∅ →
  ∃ c1 k0 p0 n0, kickOut c = Some c1 ∧
    FreqList.getFirstNode (bucket (minFreq_ c) c) = Some p0 ∧
    nodeMap_ c !! k0 = Some p0 ∧ nodes c !! p0 = Some n0 ∧
    freq n0 = minFreq_ c ∧
    linked c1 ∧ nodeMap_ c1 = delete k0 (nodeMap_ c) ∧ nodes c1 = nodes c ∧
    curTotalNum_ c1 = curTotalNum_ c - freq n0 ∧
    totalFreq c1 = totalFreq c - freq n0 ∧
    (∀ f fl p, freqToFreqList_ c1 !! f = Some fl → p ∈ fl →
               ∃ k, nodeMap_ c1 !! k = Some p) ∧
    capacity_ c1 = capacity_ c ∧ maxAverageNum_ c1 = maxAverageNum_ c ∧
    minFreq_ c1 = minFreq_ c.
Proof.
  intros He Hne.
  pose proof (exact_ready c He) as Hr. pose proof (ready_linked c Hr) as Hl.
  destruct (exact_min c He Hne) as [[q0 Hq0] _].
  apply bucket_elem in Hq0 as (fl0 & Hfl0 & Hq0).
  destruct fl0 as [|p0 fl]; [by apply elem_of_nil in Hq0|].
  destruct (exact_live c He _ _ p0 Hfl0) as (k0 & Hk0); [by left|].
  destruct (linked_index c Hl k0 p0 Hk0) as (n0 & Hn0 & Hkey & _).
  destruct (linked_bucket c Hl _ _ p0 Hfl0) as (n1 & Hn1 & Hfreq); [by left|].
  assert (n1 = n0) as -> by congruence.
  pose proof (kickOut_live c p0 fl n0 Hl Hfl0 Hn0) as Hrun.
  rewrite Hkey in Hrun.
  eexists _, k0, p0, n0. split; [exact Hrun|].
  split_and!; try done.
  - unfold bucket. by rewrite Hfl0.
  - eapply linked_ext; [..|exact (linked_unlink p0 n0 c Hl Hn0)];
      simpl; by rewrite ?Hkey.
  - rewrite !totalFreq_sumOver. simpl.
    rewrite (sumOver_delete _ _ k0 p0 Hk0).
    unfold freqAt. simpl. rewrite Hn0. done.
  - simpl. intros f fl' q. rewrite lookup_fmap.
    destruct (freqToFreqList_ c !! f) as [fl1|] eqn:Hfl1; [|done].
    intros [= <-] [Hqp Hq]%removeNode_elem.
    destruct (exact_live c He f fl1 q Hfl1 Hq) as (k' & Hk').
    exists k'. rewrite lookup_delete_ne; [done|].
    intros <-. congruence.
Qed.

(** The optional eviction of [putInternal] on an exact cache. *)
Lemma evict_exact k c :
  exact c → capacity_ c ≠ 0 → nodeMap_ c !! k = None →
  ∃ c1,
    (if bool_decide (Z.of_nat (size (nodeMap_ c)) = to_size_t (capacity_ c))
     then kickOut c else Some c) = Some c1 ∧
    linked c1 ∧ nodes c1 = nodes c ∧ nodeMap_ c1 !! k = None ∧
    Z.of_nat (size (nodeMap_ c1)) + 1 ≤ capacity_ c ∧
    curTotalNum_ c1 ≤ curTotalNum_ c ∧
    curTotalNum_ c1 - totalFreq c1 = curTotalNum_ c - totalFreq c ∧
    noStale c1 ∧
    capacity_ c1 = capacity_ c ∧ maxAverageNum_ c1 = maxAverageNum_ c ∧
    minFreq_ c1 = minFreq_ c ∧
    if bool_decide (Z.of_nat (size (nodeMap_ c)) = capacity_ c)
    then ∃ k0 p0 n0,
           FreqList.getFirstNode (bucket (minFreq_ c) c) = Some p0 ∧
           nodeMap_ c !! k0 = Some p0 ∧ nodes c !! p0 = Some n0 ∧
           freq n0 = minFreq_ c ∧ nodeMap_ c1 = delete k0 (nodeMap_ c)
    else nodeMap_ c1 = nodeMap_ c.
Proof.
  intros He Hnz Hk.
  pose proof (exact_ready c He) as Hr.
  pose proof (exact_size c He) as Hsize.
  pose proof (ready_capacity c Hr) as Hcap.
  assert (to_size_t (capacity_ c) = capacity_ c) as Hts
    by (apply to_size_t_small; lia).
  rewrite Hts. case_bool_decide as Hfull.
  - assert (nodeMap_ c ≠ ∅) as Hne.
    { apply map_size_non_empty_iff. lia. }
    destruct (kickOut_exact c He Hne) as
      (c1 & k0 & p0 & n0 & Hrun & Hhd & Hk0 & Hn0 & Hf0 & Hl1 & Hm1 & Hn1 &
       HT1 & HS1 & Hlive1 & ? & ? & ?).
    assert (1 ≤ freq n0).
    { rewrite Hf0. apply (ready_minFreq c Hr). }
    exists c1. split_and!; try done.
    + rewrite Hm1. rewrite lookup_delete_None. by right.
    + rewrite Hm1, map_size_delete, Hk0. simpl.
      assert (size (nodeMap_ c) ≠ 0%nat) by (by apply map_size_non_empty_iff).
      lia.
    + lia.
    + lia.
    + by exists k0, p0, n0.
  - exists c. split_and!; try done; [apply (ready_linked c Hr)|lia|].
    exact (exact_live c He).
Qed.

(** A state that differs from [c1] by a new node of frequency 1 for [k],
    linked at the tail of bucket 1. *)
Lemma insert_facts k v c1 c' :
  linked c1 → noStale c1 → nodeMap_ c1 !! k = None →
  nodeMap_ c' = <[k := length (nodes c1)]> (nodeMap_ c1) →
  nodes c' = nodes c1 ++ [mkNode 1 k v] →
  freqToFreqList_ c' =
    <[1 := bucket 1 c1 ++ [length (nodes c1)]]> (freqToFreqList_ c1) →
  noStale c' ∧ totalFreq c' = totalFreq c1 + 1 ∧
  size (nodeMap_ c') = S (size (nodeMap_ c1)) ∧
  length (nodes c1) ∈ bucket 1 c'.
Proof.
  intros Hl1 Hlive1 Hk1 Hm' Hnodes' Hb'. split_and!.
  - intros f fl q. rewrite Hb', Hm', lookup_insert.
    destruct (decide (1 = f)) as [Hf|Hf].
    + intros [= <-] [Hq|Hq%list_elem_of_singleton]%elem_of_app.
      * apply bucket_elem in Hq as (fl0 & Hfl0 & Hq).
        destruct (Hlive1 _ _ _ Hfl0 Hq) as (k' & Hk').
        exists k'. rewrite lookup_insert_ne; [done|].
        intros <-. congruence.
      * subst q. exists k. by rewrite lookup_insert_eq.
    + intros Hfl Hq. destruct (Hlive1 _ _ _ Hfl Hq) as (k' & Hk').
      exists k'. rewrite lookup_insert_ne; [done|].
      intros <-. congruence.
  - rewrite !totalFreq_sumOver, Hm'. rewrite sumOver_insert by done.
    assert (freqAt c' (length (nodes c1)) = 1) as ->.
    { unfold freqAt. rewrite Hnodes'. by rewrite list_lookup_middle. }
    rewrite (sumOver_ext (freqAt c') (freqAt c1)); [done|].
    intros k' q Hk'. unfold freqAt. rewrite Hnodes'.
    destruct (linked_index c1 Hl1 k' q Hk') as (nq & Hnq & _).
    by rewrite (lookup_app_l_Some _ _ _ _ Hnq), Hnq.
  - by rewrite Hm', map_size_insert, Hk1.
  - unfold bucket at 1. rewrite Hb', lookup_insert_eq. simpl.
    apply elem_of_app. right. by apply list_elem_of_singleton.
Qed.

(** [put] of a new key on an exact cache, whether the aging pass runs or
    not: the new entry has frequency 1, so the pass leaves [minFreq_]
    right. *)
Lemma putInternal_sound k v c :
  exact c → capacity_ c ≠ 0 → nodeMap_ c !! k = None →
  curTotalNum_ c + 1 ≤ INT_MAX → 0 ≤ maxAverageNum_ c →
  ∃ c', putInternal k v c = Some c' ∧ exact c' ∧ minFreq_ c' = 1 ∧
    curTotalNum_ c' ≤ curTotalNum_ c + 1 ∧
    (curTotalNum_ c + 1 ≤ maxAverageNum_ c → maxAverageNum_ c ≤ INT_MAX →
     curTotalNum_ c' - totalFreq c' = curTotalNum_ c - totalFreq c) ∧
    capacity_ c' = capacity_ c ∧ maxAverageNum_ c' = maxAverageNum_ c ∧
    if bool_decide (Z.of_nat (size (nodeMap_ c)) = capacity_ c)
    then ∃ k0 p0 n0,
           FreqList.getFirstNode (bucket (minFreq_ c) c) = Some p0 ∧
           nodeMap_ c !! k0 = Some p0 ∧ nodes c !! p0 = Some n0 ∧
           freq n0 = minFreq_ c ∧
           nodeMap_ c' = <[k := length (nodes c)]> (delete k0 (nodeMap_ c))
    else nodeMap_ c' = <[k := length (nodes c)]> (nodeMap_ c).
Proof.
  intros He Hnz Hk Hint Hmax.
  pose proof (exact_ready c He) as Hr.
  pose proof (ready_capacity c Hr) as Hcap.
  pose proof (ready_minFreq c Hr) as Hmin.
  pose proof (exact_total c He) as HTS.
  destruct (evict_exact k c He Hnz Hk) as
    (c1 & Hev & Hl1 & Hn1 & Hk1 & Hsz1 & HT1 & Hgap1 & Hlive1 & Hc1 & Hm1 &
     Hmin1 & Hcase).
  pose proof (totalFreq_nonneg c1 Hl1) as HS1.
  rewrite (putInternal_Some k v c c1 Hev), addFreqNum_unfold.
  set (c3 := inserted k v c1).
  assert (primed c3) as Hp3.
  { apply inserted_primed; [done|by rewrite Hc1|by rewrite Hmin1]. }
  assert (primed (counted c3)) as HpY.
  { destruct Hp3 as [Hl3 ? ? ?]. split; [|done..].
    by apply (linked_ext c3 (counted c3)). }
  destruct (insert_facts k v c1 (counted c3)) as (HnsY & HSY & HszY & HinY);
    [done..|].
  set (pn := length (nodes c)).
  assert (nodeMap_ (counted c3) = <[k := pn]> (nodeMap_ c1)) as HmY.
  { unfold pn. by rewrite <- Hn1. }
  assert (∀ c', nodeMap_ c' = nodeMap_ (counted c3) →
    if bool_decide (Z.of_nat (size (nodeMap_ c)) = capacity_ c)
    then ∃ k0 p0 n0,
           FreqList.getFirstNode (bucket (minFreq_ c) c) = Some p0 ∧
           nodeMap_ c !! k0 = Some p0 ∧ nodes c !! p0 = Some n0 ∧
           freq n0 = minFreq_ c ∧
           nodeMap_ c' = <[k := pn]> (delete k0 (nodeMap_ c))
    else nodeMap_ c' = <[k := pn]> (nodeMap_ c)) as Hidx.
  { intros c' Hm'. case_bool_decide.
    - destruct Hcase as (k0 & p0 & n0 & ? & ? & ? & ? & Hm1').
      exists k0, p0, n0. split_and!; [done..|]. by rewrite Hm', HmY, Hm1'.
    - by rewrite Hm', HmY, Hcase. }
  destruct (decide (agingFires c3)) as [Hfire|Hquiet].
  - (* the aging pass: the new entry stays at frequency 1 *)
    destruct (aging_exact (counted c3) k (length (nodes c1))
                (mkNode 1 k v)) as
      (c4 & Hrun & He4 & Hm4 & Ht4 & Hc4 & Ha4 & Hmin4).
    + done.
    + done.
    + rewrite HszY. change (capacity_ (counted c3)) with (capacity_ c1). lia.
    + rewrite HSY. change (curTotalNum_ (counted c3))
        with (curTotalNum_ c1 + 1). lia.
    + change (maxAverageNum_ (counted c3)) with (maxAverageNum_ c1). lia.
    + apply lookup_insert_eq.
    + change (nodes (counted c3)) with (nodes c1 ++ [mkNode 1 k v]).
      by apply list_lookup_middle.
    + change (maxAverageNum_ (counted c3)) with (maxAverageNum_ c1).
      simpl. rewrite agedFreq_one by lia. done.
    + change (maxAverageNum_ (counted c3)) with (maxAverageNum_ c1) in *.
      change (capacity_ (counted c3)) with (capacity_ c1) in *.
      change (curTotalNum_ (counted c3)) with (curTotalNum_ c1 + 1) in *.
      simpl in Hmin4. rewrite agedFreq_one in Hmin4 by lia.
      pose proof (ready_minFreq c4 (exact_ready c4 He4)) as Hmin4'.
      assert (minFreq_ c4 = 1) as Hone by lia.
      rewrite Hrun. simpl. rewrite Z.min_l by lia.
      rewrite set_minFreq_id.
      exists c4. split_and!; [done|done|done|lia| |congruence|congruence|].
      * intros Hb1 Hb2. exfalso. revert Hfire. apply calm_no_aging.
        -- change (curTotalNum_ c3) with (curTotalNum_ c1). lia.
        -- change (curTotalNum_ c3) with (curTotalNum_ c1).
           change (maxAverageNum_ c3) with (maxAverageNum_ c1). lia.
        -- change (maxAverageNum_ c3) with (maxAverageNum_ c1). lia.
      * by apply Hidx.
  - simpl.
    change (minFreq_ (counted c3)) with (minFreq_ c1).
    rewrite Z.min_r by lia.
    set (c' := set_minFreq 1 (counted c3)).
    assert (linked c') as Hl'
      by (by apply (linked_ext (counted c3) c'), HpY).
    exists c'. split_and!; [done| |done| | |done|done|by apply Hidx].
    + split.
      * split; [done|apply HpY|done|]. intros _. split; apply HpY.
      * exact HnsY.
      * intros _. split; [by exists (length (nodes c1))|].
        intros f q (fl & Hfl & _)%bucket_elem.
        apply (linked_pos c' Hl'). by eexists.
      * change (nodeMap_ c') with (nodeMap_ (counted c3)).
        rewrite HszY. change (capacity_ c') with (capacity_ c1). lia.
      * change (totalFreq c') with (totalFreq (counted c3)).
        rewrite HSY. change (curTotalNum_ c') with (curTotalNum_ c1 + 1).
        lia.
    + change (curTotalNum_ c') with (curTotalNum_ c1 + 1). lia.
    + intros _ _. change (totalFreq c') with (totalFreq (counted c3)).
      rewrite HSY. change (curTotalNum_ c') with (curTotalNum_ c1 + 1).
      lia.
Qed.

Lemma putInternal_exact k v c :
  exact c → capacity_ c ≠ 0 → nodeMap_ c !! k = None →
  curTotalNum_ c + 1 ≤ maxAverageNum_ c → maxAverageNum_ c ≤ INT_MAX →
  ∃ c', putInternal k v c = Some c' ∧ exact c' ∧
    curTotalNum_ c' ≤ curTotalNum_ c + 1 ∧
    curTotalNum_ c' - totalFreq c' = curTotalNum_ c - totalFreq c ∧
    capacity_ c' = capacity_ c ∧ maxAverageNum_ c' = maxAverageNum_ c ∧
    if bool_decide (Z.of_nat (size (nodeMap_ c)) = capacity_ c)
    then ∃ k0 p0 n0,
           FreqList.getFirstNode (bucket (minFreq_ c) c) = Some p0 ∧
           nodeMap_ c !! k0 = Some p0 ∧ nodes c !! p0 = Some n0 ∧
           freq n0 = minFreq_ c ∧
           nodeMap_ c' = <[k := length (nodes c)]> (delete k0 (nodeMap_ c))
    else nodeMap_ c' = <[k := length (nodes c)]> (nodeMap_ c).
Proof.
  intros He Hnz Hk Hbound Hmax.
  pose proof (exact_total_nonneg c He) as HT0.
  destruct (putInternal_sound k v c He Hnz Hk) as
    (c' & Hput & He' & _ & HT & Hgap & Hc & Hm & Hidx); [lia..|].
  exists c'. split_and!; [done|done|done|by apply Hgap|done|done|done].
Qed.

Lemma exact_purge c : exact c → exact (purge c).
Proof.
  intros He. pose proof (exact_size c He). pose proof (exact_total_nonneg c He).
  split.
  - apply purge_ready, (exact_ready c He).
  - simpl. intros f fl p. by rewrite lookup_empty.
  - intros Hne. by destruct Hne.
  - simpl. rewrite map_size_empty. lia.
  - done.
Qed.

Lemma exact_new cap maxAvg :
  0 ≤ cap ≤ INT_MAX →
  exact (ILfuCache_new cap maxAvg : @ILfuCache Key _ _ Value).
Proof.
  intros Hcap. split.
  - apply ready_new. unfold INT_MIN. lia.
  - simpl. intros f fl p. by rewrite lookup_empty.
  - intros Hne. by destruct Hne.
  - simpl. rewrite map_size_empty. lia.
  - done.
Qed.

Lemma step_exact o c :
  exact c → curTotalNum_ c + 1 ≤ maxAverageNum_ c →
  maxAverageNum_ c ≤ INT_MAX →
  ∃ c', step o c = Some c' ∧ exact c' ∧
    curTotalNum_ c' ≤ curTotalNum_ c + 1 ∧
    capacity_ c' = capacity_ c ∧ maxAverageNum_ c' = maxAverageNum_ c ∧
    (isPurge o = false →
     curTotalNum_ c' - totalFreq c' = curTotalNum_ c - totalFreq c).
Proof.
  intros He Hbound Hmax.
  pose proof (exact_ready c He) as Hr. pose proof (ready_linked c Hr) as Hl.
  destruct o as [k v|k|]; simpl.
  - unfold put. case_bool_decide as Hcap.
    { exists c. split_and!; [done|done|lia|done..]. }
    destruct (nodeMap_ c !! k) as [p|] eqn:Hk.
    + destruct (linked_index c Hl k p Hk) as (n & Hn & _). rewrite Hn. simpl.
      destruct (exact_set_value k p n v c He Hk Hn) as [He0 HS0].
      set (c0 := set_nodes (<[p := set_value v n]> (nodes c)) c) in *.
      assert (nodes c0 !! p = Some (set_value v n)) as Hp0.
      { apply list_lookup_insert_eq. by eapply lookup_lt_Some. }
      destruct (getInternal_exact k p _ c0 He0 Hk Hp0 Hbound Hmax) as
        (c' & -> & He' & _ & HT & HS & Hc & Hm).
      simpl. exists c'. split_and!; [done|done| |done|done|].
      * change (curTotalNum_ c0) with (curTotalNum_ c) in HT. lia.
      * intros _. change (curTotalNum_ c0) with (curTotalNum_ c) in HT. lia.
    + destruct (putInternal_exact k v c He Hcap Hk Hbound Hmax) as
        (c' & -> & He' & HT & Hgap & Hc & Hm & _).
      exists c'. split_and!; done.
  - unfold get. destruct (nodeMap_ c !! k) as [p|] eqn:Hk.
    + destruct (linked_index c Hl k p Hk) as (n & Hn & _).
      destruct (getInternal_exact k p n c He Hk Hn Hbound Hmax) as
        (c' & -> & He' & _ & HT & HS & Hc & Hm).
      simpl. exists c'. split_and!; [done|done|lia|done|done|]. intros _. lia.
    + simpl. exists c. split_and!; [done|done|lia|done..].
  - exists (purge c). split_and!; [done|by apply exact_purge|simpl; lia|done..].
Qed.

Lemma run_exact ops c :
  exact c →
  curTotalNum_ c + Z.of_nat (length ops) ≤ maxAverageNum_ c →
  maxAverageNum_ c ≤ INT_MAX →
  ∃ c', run ops c = Some c' ∧ exact c' ∧
    curTotalNum_ c' ≤ curTotalNum_ c + Z.of_nat (length ops) ∧
    capacity_ c' = capacity_ c ∧ maxAverageNum_ c' = maxAverageNum_ c ∧
    (purgeFree ops →
     curTotalNum_ c' - totalFreq c' = curTotalNum_ c - totalFreq c).
Proof.
  revert c. induction ops as [|o ops IH]; intros c He Hbound Hmax.
  - exists c. simpl. split_and!; [done|done|lia|done..].
  - simpl in Hbound. simpl length in *.
    destruct (step_exact o c He) as (c1 & Hstep & He1 & HT1 & Hc1 & Hm1 & Hg1);
      [lia|done|].
    destruct (IH c1 He1) as (c' & Hrun & He' & HT' & Hc' & Hm' & Hg');
      [rewrite Hm1; lia|by rewrite Hm1|].
    exists c'. simpl. rewrite Hstep. simpl.
    split_and!; [done|done|lia|congruence|congruence|].
    intros [Ho Hpf]%Forall_cons. rewrite (Hg' Hpf). by apply Hg1.
Qed.

Lemma lowMin_ext c c' :
  nodeMap_ c' = nodeMap_ c → minFreq_ c' = minFreq_ c →
  maxAverageNum_ c' = maxAverageNum_ c → lowMin c → lowMin c'.
Proof. unfold lowMin. intros -> -> ->. done. Qed.

(** One operation with a ceiling between 2 and 250, whether the aging pass
    runs or not. *)
Lemma step_sound o c :
  exact c → lowMin c → curTotalNum_ c + 1 ≤ INT_MAX →
  2 ≤ maxAverageNum_ c ≤ 250 →
  ∃ c', step o c = Some c' ∧ exact c' ∧ lowMin c' ∧
    curTotalNum_ c' ≤ curTotalNum_ c + 1 ∧
    capacity_ c' = capacity_ c ∧ maxAverageNum_ c' = maxAverageNum_ c.
Proof.
  intros He Hlow Hint Hmax.
  pose proof (exact_ready c He) as Hr. pose proof (ready_linked c Hr) as Hl.
  destruct o as [k v|k|]; simpl.
  - unfold put. case_bool_decide as Hcap.
    { exists c. split_and!; [done|done|done|lia|done..]. }
    destruct (nodeMap_ c !! k) as [p|] eqn:Hk.
    + destruct (linked_index c Hl k p Hk) as (n & Hn & _). rewrite Hn. simpl.
      destruct (exact_set_value k p n v c He Hk Hn) as [He0 _].
      set (c0 := set_nodes (<[p := set_value v n]> (nodes c)) c) in *.
      assert (nodes c0 !! p = Some (set_value v n)) as Hp0.
      { apply list_lookup_insert_eq. by eapply lookup_lt_Some. }
      destruct (getInternal_sound k p (set_value v n) c0 He0) as
        (c' & -> & He' & Hlow' & _ & HT & Hc & Hm); [done..|].
      simpl. exists c'. split_and!; [done|done|done| |done|done].
      change (curTotalNum_ c0) with (curTotalNum_ c) in HT. lia.
    + destruct (putInternal_sound k v c He Hcap Hk) as
        (c' & -> & He' & Hone & HT & _ & Hc & Hm & _); [lia..|].
      exists c'. split_and!; [done|done| |done..].
      intros _. rewrite Hone, Hm. lia.
  - unfold get. destruct (nodeMap_ c !! k) as [p|] eqn:Hk.
    + destruct (linked_index c Hl k p Hk) as (n & Hn & _).
      destruct (getInternal_sound k p n c He) as
        (c' & -> & He' & Hlow' & _ & HT & Hc & Hm); [done..|].
      simpl. exists c'. split_and!; [done|done|done|lia|done|done].
    + simpl. exists c. split_and!; [done|done|done|lia|done..].
  - exists (purge c).
    split_and!; [done|by apply exact_purge| |simpl; lia|done..].
    intros Hne. by destruct Hne.
Qed.

Lemma run_sound ops c :
  exact c → lowMin c →
  curTotalNum_ c + Z.of_nat (length ops) ≤ INT_MAX →
  2 ≤ maxAverageNum_ c ≤ 250 →
  ∃ c', run ops c = Some c' ∧ exact c' ∧ lowMin c' ∧
    curTotalNum_ c' ≤ curTotalNum_ c + Z.of_nat (length ops) ∧
    capacity_ c' = capacity_ c ∧ maxAverageNum_ c' = maxAverageNum_ c.
Proof.
  revert c. induction ops as [|o ops IH]; intros c He Hlow Hint Hmax.
  - exists c. simpl. split_and!; [done|done|done|lia|done..].
  - simpl in Hint. simpl length in *.
    destruct (step_sound o c He Hlow) as
      (c1 & Hstep & He1 & Hlow1 & HT1 & Hc1 & Hm1); [lia|done|].
    destruct (IH c1 He1 Hlow1) as (c' & Hrun & He' & Hlow' & HT' & Hc' & Hm');
      [lia|by rewrite Hm1|].
    exists c'. simpl. rewrite Hstep. simpl.
    split_and!; [done|done|done|lia|congruence|congruence].
Qed.

(** What an exact state says in terms of the entries. *)
Lemma exact_least c :
  exact c →
  (∀ f p, p ∈ bucket f c → ∃ k, nodeMap_ c !! k = Some p) ∧
  (liveCount c ≠ 0%nat →
   (∃ k n, entry k c = Some n ∧ freq n = minFreq_ c) ∧
   ∀ k n, entry k c = Some n → minFreq_ c ≤ freq n).
Proof.
  intros He.
  pose proof (ready_linked c (exact_ready c He)) as Hl.
  split.
  - intros f p (fl & Hfl & Hp)%bucket_elem. by apply (exact_live c He f fl).
  - intros Hnz. destruct (exact_min c He) as [[p Hp] Hlow].
    { by apply map_size_non_empty_iff. }
    split.
    + pose proof Hp as Hp'.
      apply bucket_elem in Hp' as (fl & Hfl & Hin).
      destruct (exact_live c He _ fl p Hfl Hin) as (k & Hk).
      destruct (linked_bucket c Hl _ fl p Hfl Hin) as (n & Hn & Hf).
      exists k, n. split; [by apply (entry_Some c k p n)|done].
    + intros k n. unfold entry.
      destruct (nodeMap_ c !! k) as [q|] eqn:Hk; [simpl|done]. intros Hn.
      destruct (linked_index c Hl k q Hk) as (n' & Hn' & _ & Hin).
      assert (n' = n) as -> by congruence. by eapply Hlow.
Qed.

(** [put] of a new key into a full exact cache. *)
Lemma exact_evicts k v c :
  exact c → 1 ≤ capacity_ c → curTotalNum_ c + 1 ≤ INT_MAX →
  0 ≤ maxAverageNum_ c →
  Z.of_nat (liveCount c) = capacity_ c → nodeMap_ c !! k = None →
  ∃ c' k0 n0, put k v c = Some c' ∧
    entry k0 c = Some n0 ∧
    (∀ k' n', entry k' c = Some n' → freq n0 ≤ freq n') ∧
    FreqList.getFirstNode (bucket (freq n0) c) = nodeMap_ c !! k0 ∧
    nodeMap_ c' = <[k := length (nodes c)]> (delete k0 (nodeMap_ c)) ∧
    liveCount c' = liveCount c.
Proof.
  intros He Hcap Hint Hmax Hfull Hk.
  pose proof (ready_linked c (exact_ready c He)) as Hl.
  destruct (putInternal_sound k v c He) as
    (c' & Hput & _ & _ & _ & _ & _ & _ & Hcase); [lia|done|lia|lia|].
  unfold liveCount in Hfull.
  rewrite bool_decide_eq_true_2 in Hcase by lia.
  destruct Hcase as (k0 & p0 & n0 & Hhd & Hk0 & Hn0 & Hf0 & Hm').
  exists c', k0, n0. split_and!.
  - unfold put. rewrite bool_decide_eq_false_2 by lia. by rewrite Hk.
  - by apply (entry_Some c k0 p0 n0).
  - intros k' n' Hn'. rewrite Hf0.
    apply (proj2 (exact_least c He)) with k'; [|done].
    unfold liveCount. apply map_size_non_empty_iff.
    intros Hemp. by rewrite Hemp in Hk0.
  - by rewrite Hf0, Hhd, Hk0.
  - done.
  - unfold liveCount. rewrite Hm'.
    rewrite map_size_insert, lookup_delete_ne by (intros ->; congruence).
    rewrite Hk. simpl. rewrite map_size_delete, Hk0. simpl.
    assert (size (nodeMap_ c) ≠ 0%nat) by lia. lia.
Qed.

(** X8.  As long as a cache has served no more operations than its ceiling
    [maxAverageNum] (1000000 by default) the index never holds more than
    [capacity] entries. *)
Theorem capacity_bound_before_aging cap maxAvg ops c :
  0 ≤ cap ≤ INT_MAX → Z.of_nat (length ops) ≤ maxAvg ≤ INT_MAX →
  run ops (ILfuCache_new cap maxAvg) = Some c →
  Z.of_nat (liveCount c) ≤ cap.
Proof.
  intros Hcap Hlen Hrun.
  destruct (run_exact ops _ (exact_new cap maxAvg Hcap)) as
    (c' & Hrun' & He & _ & Hc & _); [simpl; lia|simpl; lia|].
  assert (c' = c) as -> by congruence.
  simpl in Hc. rewrite <- Hc. apply (exact_size c He).
Qed.

(** X9.  Under the same bound every node linked in a bucket belongs to a
    cached key, and in a non-empty cache [minFreq_] is the frequency of some
    live entry and no live entry has a smaller one. *)
Theorem minFreq_is_least_frequency cap maxAvg ops c :
  0 ≤ cap ≤ INT_MAX → Z.of_nat (length ops) ≤ maxAvg ≤ INT_MAX →
  run ops (ILfuCache_new cap maxAvg) = Some c →
  (∀ f p, p ∈ bucket f c → ∃ k, nodeMap_ c !! k = Some p) ∧
  (liveCount c ≠ 0%nat →
   (∃ k n, entry k c = Some n ∧ freq n = minFreq_ c) ∧
   ∀ k n, entry k c = Some n → minFreq_ c ≤ freq n).
Proof.
  intros Hcap Hlen Hrun.
  destruct (run_exact ops _ (exact_new cap maxAvg Hcap)) as
    (c' & Hrun' & He & _); [simpl; lia|simpl; lia|].
  assert (c' = c) as -> by congruence.
  by apply exact_least.
Qed.

(** X10.  Under the same bound, a [put] of a new key into a full cache
    evicts a least frequently used entry: the evicted key has the smallest
    frequency of all live entries, among the entries of that frequency it is
    the one at the head of their bucket, every other key stays cached, and
    the live count stays at the capacity. *)
Theorem put_evicts_least_frequent cap maxAvg ops c k v :
  1 ≤ cap ≤ INT_MAX → Z.of_nat (length ops) < maxAvg ≤ INT_MAX →
  run ops (ILfuCache_new cap maxAvg) = Some c →
  Z.of_nat (liveCount c) = cap → nodeMap_ c !! k = None →
  ∃ c' k0 n0, put k v c = Some c' ∧
    entry k0 c = Some n0 ∧
    (∀ k' n', entry k' c = Some n' → freq n0 ≤ freq n') ∧
    FreqList.getFirstNode (bucket (freq n0) c) = nodeMap_ c !! k0 ∧
    nodeMap_ c' = <[k := length (nodes c)]> (delete k0 (nodeMap_ c)) ∧
    liveCount c' = liveCount c.
Proof.
  intros Hcap Hlen Hrun Hfull Hk.
  destruct (run_exact ops (ILfuCache_new cap maxAvg)) as
    (c0 & Hrun' & He & HT & Hc & Hm & _);
    [apply exact_new; lia|simpl; lia|simpl; lia|].
  assert (c0 = c) as -> by congruence. simpl in HT, Hc, Hm.
  apply exact_evicts; [done|lia|lia|lia|lia|done].
Qed.

(** X11.  Under the same bound the running total is never negative, never
    more than the number of operations served, and never less than the sum
    of the frequencies of the live entries; and when no [purge] was among
    the operations it is that sum. *)
Theorem total_is_sum_before_aging cap maxAvg ops c :
  0 ≤ cap ≤ INT_MAX → Z.of_nat (length ops) ≤ maxAvg ≤ INT_MAX →
  run ops (ILfuCache_new cap maxAvg) = Some c →
  0 ≤ totalFreq c ≤ curTotalNum_ c ∧
  curTotalNum_ c ≤ Z.of_nat (length ops) ∧
  (purgeFree ops → curTotalNum_ c = totalFreq c).
Proof.
  intros Hcap Hlen Hrun.
  destruct (run_exact ops _ (exact_new cap maxAvg Hcap)) as
    (c' & Hrun' & He & HT & _ & _ & Hgap); [simpl; lia|simpl; lia|].
  assert (c' = c) as -> by congruence. simpl in HT.
  split_and!.
  - apply totalFreq_nonneg, (ready_linked c (exact_ready c He)).
  - apply (exact_total c He).
  - lia.
  - intros Hpf. specialize (Hgap Hpf). simpl in Hgap.
    change (totalFreq (ILfuCache_new cap maxAvg)) with 0 in Hgap. lia.
Qed.

(** ** With a ceiling between 2 and 250 *)

(** X18.  With a ceiling [maxAverageNum] between 2 and 250 (the sharded
    cache's default is 10), and up to [INT_MAX] operations, the index never
    holds more than [capacity] entries, however often the aging pass has
    run; the running total stays between the sum of the live frequencies
    and the number of operations served. *)
Theorem capacity_bound_small_ceiling cap maxAvg ops c :
  0 ≤ cap ≤ INT_MAX → 2 ≤ maxAvg ≤ 250 →
  Z.of_nat (length ops) ≤ INT_MAX →
  run ops (ILfuCache_new cap maxAvg) = Some c →
  Z.of_nat (liveCount c) ≤ cap ∧
  0 ≤ totalFreq c ≤ curTotalNum_ c ∧
  curTotalNum_ c ≤ Z.of_nat (length ops).
Proof.
  intros Hcap Hmax Hlen Hrun.
  destruct (run_sound ops _ (exact_new cap maxAvg Hcap)) as
    (c' & Hrun' & He & _ & HT & Hc & _);
    [by intros []|simpl; lia|simpl; lia|].
  assert (c' = c) as -> by congruence.
  simpl in Hc, HT. split_and!.
  - rewrite <- Hc. apply (exact_size c He).
  - apply totalFreq_nonneg, (ready_linked c (exact_ready c He)).
  - apply (exact_total c He).
  - lia.
Qed.

(** X19.  Under the same bounds every node linked in a bucket belongs to a
    cached key, and in a non-empty cache [minFreq_] is the frequency of some
    live entry, no live entry has a smaller one, and it is at most the
    ceiling. *)
Theorem minFreq_small_ceiling cap maxAvg ops c :
  0 ≤ cap ≤ INT_MAX → 2 ≤ maxAvg ≤ 250 →
  Z.of_nat (length ops) ≤ INT_MAX →
  run ops (ILfuCache_new cap maxAvg) = Some c →
  (∀ f p, p ∈ bucket f c → ∃ k, nodeMap_ c !! k = Some p) ∧
  (liveCount c ≠ 0%nat →
   (∃ k n, entry k c = Some n ∧ freq n = minFreq_ c) ∧
   (∀ k n, entry k c = Some n → minFreq_ c ≤ freq n) ∧
   minFreq_ c ≤ maxAvg).
Proof.
  intros Hcap Hmax Hlen Hrun.
  destruct (run_sound ops _ (exact_new cap maxAvg Hcap)) as
    (c' & Hrun' & He & Hlow & _ & _ & Hm);
    [by intros []|simpl; lia|simpl; lia|].
  assert (c' = c) as -> by congruence.
  destruct (exact_least c He) as [Hlive Hleast].
  split; [done|]. intros Hnz. destruct (Hleast Hnz) as [Hex Hall].
  split_and!; [done|done|].
  simpl in Hm. rewrite <- Hm. apply Hlow.
  by apply map_size_non_empty_iff.
Qed.


(** ** Definedness *)

(** X1.  On a new cache of capacity 0 to [INT_MAX], every sequence of
    [put], [get] and [purge] that is no longer than the ceiling, or of up to
    [INT_MAX] operations when the ceiling is between 2 and 250, is defined:
    no operation dereferences a bucket that was never allocated.  The state
    it ends in satisfies the representation invariant and has the capacity
    and the ceiling it was built with; unless the cache is empty the bucket
    of [minFreq_] holds a node, so that [kickOut] never reads the tail
    sentinel; and every frequency, the running total and [minFreq_] are
    within the range of [int], so that no increment of the source
    overflows. *)
Theorem operations_defined cap maxAvg ops :
  0 ≤ cap ≤ INT_MAX →
  Z.of_nat (length ops) ≤ maxAvg ≤ INT_MAX ∨
  (2 ≤ maxAvg ≤ 250 ∧ Z.of_nat (length ops) ≤ INT_MAX) →
  ∃ c, run ops (ILfuCache_new cap maxAvg) = Some c ∧ ready c ∧
       capacity_ c = cap ∧ maxAverageNum_ c = maxAvg ∧
       (nodeMap_ c ≠ ∅ → bucket (minFreq_ c) c ≠ []) ∧
       (∀ p n, nodes c !! p = Some n →
               1 ≤ freq n ≤ Z.of_nat (length ops)) ∧
       0 ≤ curTotalNum_ c ≤ Z.of_nat (length ops) ∧
       1 ≤ minFreq_ c ≤ Z.max INT8_MAX (Z.of_nat (length ops)).
Proof.
  intros Hcap Hregime.
  assert (∃ c, run ops (ILfuCache_new cap maxAvg) = Some c ∧ exact c) as
    (c & Hrun & He).
  { destruct Hregime as [Hcalm|[Hsmall Hlen]].
    - destruct (run_exact ops _ (exact_new cap maxAvg Hcap)) as
        (c & Hrun & He & _); [simpl; lia|simpl; lia|].
      by exists c.
    - destruct (run_sound ops _ (exact_new cap maxAvg Hcap)) as
        (c & Hrun & He & _); [by intros []|simpl; lia|simpl; lia|].
      by exists c. }
  destruct (new_run_fits cap maxAvg ops c) as
    (Hr & Hc & Hm & Hfreq & Htot & Hmin); [unfold INT_MIN; lia|lia|done|].
  pose proof (exact_total_nonneg c He) as HT0.
  exists c. split_and!; [done..| |done|done|lia|lia|lia].
  intros Hne. destruct (exact_min c He Hne) as [[q Hq] _].
  intros Hnil. rewrite Hnil in Hq. by apply elem_of_nil in Hq.
Qed.

(** ** [get] when the aging pass runs *)

Lemma getInternal_aged k p n c :
  ready c → nodeMap_ c !! k = Some p → nodes c !! p = Some n →
  agingFires c →
  ∃ c', getInternal p c = Some (c', value n) ∧
    nodeMap_ c' = nodeMap_ c ∧
    ∀ q, nodes c' !! q =
         agedNode (maxAverageNum_ c) (livePtrs c) q
           <$> <[p := set_freq (freq n + 1) n]> (nodes c) !! q.
Proof.
  intros Hr Hk Hn Hfire.
  destruct (linked_index c (ready_linked c Hr) k p Hk) as (n0 & Hn0 & _ & Hin).
  assert (n0 = n) as -> by congruence.
  apply bucket_elem in Hin as (fl & Hfl & _).
  rewrite (getInternal_Some p n) by (by rewrite ?Hfl).
  pose proof (bumped_ready k p n c Hr Hk Hn) as Hr3.
  pose proof (bumped_moved p n c) as Hmv3.
  destruct (addFreqNum_spec _ (ready_linked _ Hr3)) as
    (c' & Hrun & _ & Hmv & _ & _ & Haged & _).
  destruct Haged as [Hnodes _].
  { revert Hfire. apply (agingFires_ext c (bumped p n c));
      [apply Hmv3| |apply Hmv3]. unfold bumped. by destruct (_ && _). }
  rewrite Hrun. simpl. exists c'. split_and!; [done| |].
  - rewrite (moved_nodeMap _ _ Hmv). apply Hmv3.
  - intros q. rewrite Hnodes, bumped_nodes.
    rewrite (moved_maxAverageNum _ _ Hmv3).
    unfold livePtrs. by rewrite (moved_nodeMap _ _ Hmv3).
Qed.

(** X12.  On a cache built with a ceiling between 0 and [INT_MAX] that has
    served fewer than [INT_MAX] operations, a hit of [get] that takes the
    average above the ceiling ends with the aging pass: the index is
    unchanged, every live entry keeps its key and value, and its frequency,
    raised by 1 first for the entry that was read, is lowered by
    [maxAverageNum / 2] but not below 1.  The frequencies before and after
    and the running total stay within the range of [int]. *)
Theorem get_with_aging cap maxAvg ops c k out p n :
  INT_MIN ≤ cap ≤ INT_MAX → 0 ≤ maxAvg ≤ INT_MAX →
  Z.of_nat (length ops) < INT_MAX →
  run ops (ILfuCache_new cap maxAvg) = Some c →
  nodeMap_ c !! k = Some p → nodes c !! p = Some n → agingFires c →
  ∃ c', get k out c = Some (c', true, value n) ∧
    nodeMap_ c' = nodeMap_ c ∧
    (∀ k' q nq, nodeMap_ c !! k' = Some q → nodes c !! q = Some nq →
      ∃ nq', nodes c' !! q = Some nq' ∧
        key nq' = k' ∧ value nq' = value nq ∧
        freq nq' = Z.max 1 (freq nq + (if decide (q = p) then 1 else 0)
                            - maxAvg `quot` 2) ∧
        1 ≤ freq nq ∧ freq nq + 1 ≤ INT_MAX ∧ 1 ≤ freq nq' ≤ INT_MAX) ∧
    INT_MIN ≤ curTotalNum_ c ∧ curTotalNum_ c + 1 ≤ INT_MAX.
Proof.
  intros Hcap Hmax Hlen Hops Hk Hn Hfire.
  destruct (new_run_fits cap maxAvg ops c Hcap) as
    (Hr & _ & Hm & Hfreq & Htot & _); [lia|done|].
  assert (0 ≤ maxAvg `quot` 2) as Hq2 by (apply quot2_nonneg; lia).
  destruct (getInternal_aged k p n c Hr Hk Hn Hfire) as
    (c' & Hrun & Hnm & Hnodes).
  exists c'.
  split_and!; [|done| |unfold INT_MIN, INT_MAX in *; lia|lia].
  - unfold get. by rewrite Hk, Hrun.
  - intros k' q nq Hk' Hq.
    pose proof (Hfreq q nq Hq) as Hfq.
    destruct (linked_index c (ready_linked c Hr) k' q Hk') as
      (nq0 & Hq0 & Hkey & _).
    assert (nq0 = nq) as -> by congruence.
    assert (q ∈ livePtrs c) as Hlive by (apply livePtrs_elem; eauto).
    rewrite Hnodes. unfold agedNode. rewrite bool_decide_eq_true_2 by done.
    rewrite Hm. destruct (decide (q = p)) as [->|Hne].
    + rewrite list_lookup_insert_eq by (by eapply lookup_lt_Some).
      assert (nq = n) as -> by congruence. simpl.
      eexists. split; [done|]. simpl. rewrite agedFreq_max.
      split_and!; [done|done|done|lia|lia|lia|lia].
    + rewrite list_lookup_insert_ne, Hq by done. simpl.
      eexists. split; [done|]. simpl. rewrite agedFreq_max.
      split_and!; [done|done|f_equal; lia|lia|lia|lia|lia].
Qed.

(** X13.  With a ceiling of 0 or 1 the amount [maxAverageNum / 2] the aging
    pass subtracts is 0: on a cache that has served fewer than [INT_MAX]
    operations a hit of [get] then raises the frequency of its entry by
    exactly 1 and leaves every other frequency as it was, whether or not the
    pass runs; the increment stays within the range of [int]. *)
Theorem get_with_small_ceiling cap maxAvg ops c k out p n :
  INT_MIN ≤ cap ≤ INT_MAX → 0 ≤ maxAvg ≤ 1 →
  Z.of_nat (length ops) < INT_MAX →
  run ops (ILfuCache_new cap maxAvg) = Some c →
  nodeMap_ c !! k = Some p → nodes c !! p = Some n →
  ∃ c', get k out c = Some (c', true, value n) ∧
    (∀ k' q nq, nodeMap_ c !! k' = Some q → nodes c !! q = Some nq →
      ∃ nq', nodes c' !! q = Some nq' ∧
        freq nq' = freq nq + (if decide (q = p) then 1 else 0) ∧
        1 ≤ freq nq ∧ freq nq + 1 ≤ INT_MAX) ∧
    INT_MIN ≤ curTotalNum_ c ∧ curTotalNum_ c + 1 ≤ INT_MAX.
Proof.
  intros Hcap Hsmall Hlen Hops Hk Hn.
  destruct (new_run_fits cap maxAvg ops c Hcap) as
    (Hr & _ & Hm & Hfreq & Htot & _); [lia|done|].
  pose proof (ready_linked c Hr) as Hl.
  assert (maxAvg `quot` 2 = 0) as Hq0.
  { assert (maxAvg = 0 ∨ maxAvg = 1) as [-> | ->] by lia; done. }
  destruct (decide (agingFires c)) as [Hfire|Hquiet].
  - destruct (getInternal_aged k p n c Hr Hk Hn Hfire) as
      (c' & Hrun & Hnm & Hnodes).
    exists c'.
    split_and!; [unfold get; by rewrite Hk, Hrun|
                |unfold INT_MIN, INT_MAX in *; lia|lia].
    intros k' q nq Hk' Hq.
    pose proof (Hfreq q nq Hq) as Hfq.
    assert (q ∈ livePtrs c) as Hlive by (apply livePtrs_elem; eauto).
    rewrite Hnodes. unfold agedNode. rewrite bool_decide_eq_true_2 by done.
    rewrite Hm. destruct (decide (q = p)) as [->|Hne].
    + rewrite list_lookup_insert_eq by (by eapply lookup_lt_Some).
      assert (nq = n) as -> by congruence. simpl.
      eexists. split; [done|]. simpl. rewrite agedFreq_max, Hq0. lia.
    + rewrite list_lookup_insert_ne, Hq by done. simpl.
      eexists. split; [done|]. simpl. rewrite agedFreq_max, Hq0. lia.
  - destruct (getInternal_calm k p n c Hr Hk Hn Hquiet) as
      (c' & Hrun & _ & Hnodes & _).
    exists c'.
    split_and!; [unfold get; by rewrite Hk, Hrun|
                |unfold INT_MIN, INT_MAX in *; lia|lia].
    intros k' q nq Hk' Hq. pose proof (Hfreq q nq Hq) as Hfq.
    rewrite Hnodes.
    destruct (decide (q = p)) as [->|Hne].
    + rewrite list_lookup_insert_eq by (by eapply lookup_lt_Some).
      assert (nq = n) as -> by congruence. eexists. split; [done|].
      simpl. lia.
    + rewrite list_lookup_insert_ne, Hq by done. eexists.
      split; [done|lia].
Qed.

(** ** A cache that holds more entries than its capacity

    [putInternal] evicts when the index holds exactly [capacity_] entries.
    Once it holds more, no [put] and no [get] removes a key again. *)

Lemma overrun_step o c :
  ready c → 0 ≤ capacity_ c →
  capacity_ c < Z.of_nat (size (nodeMap_ c)) → isPurge o = false →
  ∃ c', step o c = Some c' ∧ ready c' ∧ capacity_ c' = capacity_ c ∧
        nodeMap_ c ⊆ nodeMap_ c'.
Proof.
  intros Hr Hcap Hover Ho.
  pose proof (ready_linked c Hr) as Hl.
  destruct (step_ready o c Hr) as (c' & Hstep & Hr' & Hc' & _).
  exists c'. split_and!; [done..|].
  destruct o as [k v|k|]; [| |done]; simpl in Hstep.
  - unfold put in Hstep. case_bool_decide as Hz.
    { by injection Hstep as <-. }
    destruct (nodeMap_ c !! k) as [p|] eqn:Hk.
    + destruct (linked_index c Hl k p Hk) as (n & Hn & _).
      rewrite Hn in Hstep. simpl in Hstep.
      set (c0 := set_nodes (<[p := set_value v n]> (nodes c)) c) in *.
      assert (ready c0) as Hr0.
      { destruct Hr as [? ? ? ?]. split; [|done..].
        by apply linked_set_value. }
      destruct (getInternal_spec k p c0 Hr0 Hk) as
        (n0 & c2 & n2 & _ & Hrun & _ & Hmv & _).
      rewrite Hrun in Hstep. simpl in Hstep. injection Hstep as <-.
      by rewrite (moved_nodeMap _ _ Hmv).
    + destruct (putInternal_detail k v c Hr Hz Hk) as
        (c1 & c2 & n' & Hev & Hput & _ & Hnm & _).
      assert (c2 = c') as -> by congruence.
      rewrite bool_decide_eq_false_2 in Hev.
      * injection Hev as <-. rewrite Hnm. by apply insert_subseteq.
      * pose proof (ready_capacity c Hr).
        rewrite to_size_t_small by lia. lia.
  - unfold get in Hstep. destruct (nodeMap_ c !! k) as [p|] eqn:Hk.
    + destruct (linked_index c Hl k p Hk) as (n & Hn & _).
      destruct (getInternal_spec k p c Hr Hk) as
        (n0 & c2 & n2 & _ & Hrun & _ & Hmv & _).
      rewrite Hrun in Hstep. simpl in Hstep. injection Hstep as <-.
      by rewrite (moved_nodeMap _ _ Hmv).
    + simpl in Hstep. by injection Hstep as <-.
Qed.

Lemma overrun_keeps_index ops c :
  ready c → 0 ≤ capacity_ c →
  capacity_ c < Z.of_nat (size (nodeMap_ c)) → purgeFree ops →
  ∃ c', run ops c = Some c' ∧ nodeMap_ c ⊆ nodeMap_ c'.
Proof.
  revert c. induction ops as [|o ops IH]; intros c Hr Hcap Hover Hpf.
  - by exists c.
  - apply Forall_cons in Hpf as [Ho Hpf].
    destruct (overrun_step o c Hr Hcap Hover Ho) as
      (c1 & Hstep & Hr1 & Hc1 & Hsub).
    pose proof (map_subseteq_size _ _ Hsub) as Hsize.
    destruct (IH c1 Hr1) as (c' & Hrun & Hsub'); [lia|lia|done|].
    exists c'. simpl. rewrite Hstep. simpl. split; [done|].
    by trans (nodeMap_ c1).
Qed.

(** ** Buckets as lists *)

(** X14.  For a node that is not linked in a bucket, [removeNode] changes
    nothing, and linking it with [addNode] and unlinking it again gives the
    bucket back.  In general unlinking twice is unlinking once, a bucket is
    not empty after [addNode], its first node stays the first, and
    unlinking one node commutes with linking another. *)
Theorem FreqList_link_unlink p fl :
  p ∉ fl →
  FreqList.removeNode p fl = fl ∧
  FreqList.removeNode p (FreqList.addNode p fl) = fl ∧
  (∀ q l, FreqList.removeNode q (FreqList.removeNode q l)
          = FreqList.removeNode q l) ∧
  (∀ q l, FreqList.isEmpty (FreqList.addNode q l) = false) ∧
  (∀ q l, FreqList.getFirstNode (FreqList.addNode q l)
          = Some (default q (FreqList.getFirstNode l))) ∧
  (∀ q l, q ≠ p →
     FreqList.removeNode q (FreqList.addNode p l)
     = FreqList.addNode p (FreqList.removeNode q l)).
Proof.
  intros Hp. split_and!.
  - by apply removeNode_notin.
  - unfold FreqList.addNode, FreqList.removeNode. rewrite filter_app.
    fold (FreqList.removeNode p fl). rewrite removeNode_notin by done.
    rewrite filter_cons_False by (intros Hne; by apply Hne).
    by rewrite filter_nil, app_nil_r.
  - intros q l. apply removeNode_notin.
    intros [Hne _]%removeNode_elem. done.
  - intros q l. unfold FreqList.addNode. by destruct l.
  - intros q l. unfold FreqList.addNode, FreqList.getFirstNode.
    by destruct l.
  - intros q l Hne. unfold FreqList.addNode, FreqList.removeNode.
    rewrite filter_app. f_equal.
    by rewrite filter_cons_True, filter_nil by congruence.
Qed.

(** ** The sharded wrapper *)

Lemma run_app ops1 ops2 c :
  run (ops1 ++ ops2) c = run ops1 c ≫= run ops2.
Proof.
  revert c. induction ops1 as [|o ops1 IH]; intros c; [done|]. simpl.
  destruct (step o c) as [c1|]; [simpl; apply IH|done].
Qed.

Lemma reachable_step cap maxAvg o c c' :
  reachable cap maxAvg c → step o c = Some c' → reachable cap maxAvg c'.
Proof.
  intros [ops Hrun] Hstep. exists (ops ++ [o]).
  rewrite run_app, Hrun. simpl. by rewrite Hstep.
Qed.

Lemma reachable_put cap maxAvg k v c c' :
  reachable cap maxAvg c → put k v c = Some c' → reachable cap maxAvg c'.
Proof. intros Hreach Hput. by apply (reachable_step _ _ (OpPut k v) c). Qed.

Lemma reachable_get cap maxAvg k out c c' found w :
  reachable cap maxAvg c → get k out c = Some (c', found, w) →
  reachable cap maxAvg c'.
Proof.
  intros Hreach Hget. apply (reachable_step _ _ (OpGet k) c); [done|]. simpl.
  unfold get in *. destruct (nodeMap_ c !! k) as [p|]; [|by injection Hget as <-].
  destruct (getInternal p c) as [[c0 v0]|]; simpl in *; [|done].
  by injection Hget as <-.
Qed.

Lemma reachable_purge cap maxAvg c :
  reachable cap maxAvg c → reachable cap maxAvg (purge c).
Proof. intros Hreach. by apply (reachable_step _ _ OpPurge c). Qed.

Section Sharded.

Variable Hash : Key → Z.

Implicit Types kc : @KHash.KHashLfuCache Key _ _ Value.

Lemma usable_set_slice kc i c c' cap maxAvg :
  KHash.usable kc → KHash.lfuSliceCaches_ kc !! i = Some c →
  1 ≤ cap ≤ INT_MAX → reachable cap maxAvg c' →
  KHash.usable (KHash.set_slice i c' kc).
Proof.
  intros (Hn & Hlen & Hall) Hi Hcap Hreach. split_and!; [apply Hn..| |].
  - simpl. by rewrite length_insert.
  - simpl. apply Forall_insert; [done|]. by exists cap, maxAvg.
Qed.

(** X15.  On a sharded cache whose shards are usable, [put] and [get] on a
    key are the [put] and the [get] of the shard [Hash(key) % sliceNum_]:
    the sharded [put] replaces that shard by what the shard's own [put]
    makes of it and leaves every other shard, the capacity and the number of
    shards as they are, and the sharded [get] returns the flag and the value
    of the shard's own [get].  The cache stays usable, and a [get] of a key
    that is routed to another shard gives the same answer after the [put]
    as before. *)
Theorem sharded_operations_local kc k v out :
  KHash.usable kc →
  let i := Z.to_nat (Hash k `mod` KHash.sliceNum_ kc) in
  let shards := KHash.lfuSliceCaches_ kc in
  let with_shard c' :=
    KHash.mkSharded (KHash.capacity_ kc) (KHash.sliceNum_ kc)
                    (<[i := c']> shards) in
  ∃ c c1 c2 found w,
    KHash.sliceIndex Hash k kc = Some i ∧
    shards !! i = Some c ∧
    put k v c = Some c1 ∧
    get k out c = Some (c2, found, w) ∧
    KHash.put Hash k v kc = Some (with_shard c1) ∧
    KHash.get Hash k out kc = Some (with_shard c2, found, w) ∧
    KHash.usable (with_shard c1) ∧ KHash.usable (with_shard c2) ∧
    (∀ k' out', KHash.sliceIndex Hash k' kc ≠ Some i →
       (λ r, (r.1.2, r.2)) <$> KHash.get Hash k' out' (with_shard c1)
       = (λ r, (r.1.2, r.2)) <$> KHash.get Hash k' out' kc).
Proof.
  intros Hus i shards with_shard.
  destruct (usable_slice Hash k kc Hus) as (i' & c & Hi & Hc & Hr & Hcap).
  pose proof Hus as (Hn & Hlen & Hall).
  assert (i' = i) as ->.
  { unfold KHash.sliceIndex in Hi.
    assert (to_size_t (KHash.sliceNum_ kc) = KHash.sliceNum_ kc) as Hts.
    { unfold to_size_t, INT_MAX in *. apply Z.mod_small. lia. }
    rewrite Hts in Hi. rewrite bool_decide_eq_false_2 in Hi by lia.
    by injection Hi as <-. }
  rewrite Forall_forall in Hall.
  destruct (Hall c) as (cap & maxAvg & Hcap' & Hreach).
  { by eapply list_elem_of_lookup_2. }
  destruct (put_spec k v c Hr Hcap) as (c1 & _ & _ & Hput & _).
  assert (∃ c2 found w, get k out c = Some (c2, found, w)) as
    (c2 & found & w & Hget).
  { destruct (nodeMap_ c !! k) as [p|] eqn:Hk.
    - destruct (linked_index c (ready_linked c Hr) k p Hk) as (n & Hnn & _).
      destruct (get_hit k out p n c Hr Hk Hnn) as (c2 & Hget & _).
      by exists c2, true, (value n).
    - exists c, false, out. by apply get_miss. }
  exists c, c1, c2, found, w.
  split_and!; [done|done|done|done| | | | |].
  - unfold KHash.put. rewrite Hi. simpl. rewrite Hc. simpl. by rewrite Hput.
  - unfold KHash.get. rewrite Hi. simpl. rewrite Hc. simpl. by rewrite Hget.
  - apply (usable_set_slice kc i c c1 cap maxAvg); [done..|].
    by apply (reachable_put cap maxAvg k v c).
  - apply (usable_set_slice kc i c c2 cap maxAvg); [done..|].
    by apply (reachable_get cap maxAvg k out c c2 found w).
  - intros k' out' Hk'. unfold KHash.get.
    change (KHash.sliceIndex Hash k' (with_shard c1))
      with (KHash.sliceIndex Hash k' kc).
    destruct (KHash.sliceIndex Hash k' kc) as [j|]; [simpl|done].
    unfold shards. rewrite list_lookup_insert_ne by congruence.
    destruct (KHash.lfuSliceCaches_ kc !! j) as [cj|]; [simpl|done].
    by destruct (get k' out' cj) as [[[cj' b] x]|].
Qed.

(** X16.  [purge] on a usable sharded cache empties every shard and keeps
    their number and capacities: the cache stays usable and a [get] misses
    on every key, leaving the out-parameter and the cache as they are. *)
Theorem sharded_purge kc k out :
  KHash.usable kc →
  KHash.usable (KHash.purge kc) ∧
  KHash.get Hash k out (KHash.purge kc) = Some (KHash.purge kc, false, out) ∧
  Forall (λ c, liveCount c = 0%nat) (KHash.lfuSliceCaches_ (KHash.purge kc)) ∧
  KHash.sliceNum_ (KHash.purge kc) = KHash.sliceNum_ kc ∧
  capacity_ <$> KHash.lfuSliceCaches_ (KHash.purge kc)
    = capacity_ <$> KHash.lfuSliceCaches_ kc.
Proof.
  intros Hus. pose proof Hus as (Hn & Hlen & Hall).
  assert (KHash.usable (KHash.purge kc)) as Hus'.
  { split_and!; [apply Hn..| |]; simpl.
    - by rewrite length_fmap.
    - apply Forall_fmap. eapply Forall_impl; [exact Hall|]. simpl.
      intros c (cap & maxAvg & Hcap & Hreach). exists cap, maxAvg.
      split; [done|]. by apply reachable_purge. }
  split_and!; [done| | |done|].
  - destruct (usable_slice Hash k kc Hus) as (i & c & Hi & Hc & _).
    unfold KHash.get.
    change (KHash.sliceIndex Hash k (KHash.purge kc))
      with (KHash.sliceIndex Hash k kc).
    rewrite Hi. simpl. rewrite list_lookup_fmap, Hc. simpl.
    rewrite get_miss by apply lookup_empty. simpl. f_equal. f_equal. f_equal.
    unfold KHash.set_slice, KHash.purge. simpl. f_equal.
    apply list_insert_id. by rewrite list_lookup_fmap, Hc.
  - simpl. apply Forall_fmap, Forall_true. intros c. unfold liveCount.
    simpl. apply map_size_empty.
  - simpl. rewrite <- list_fmap_compose. by apply list_fmap_ext.
Qed.

(** ** Sequences of operations on the shards *)

Lemma steady_mono t t' cap m c : steady t cap m c → t ≤ t' → steady t' cap m c.
Proof. intros (? & ? & ? & ? & ?) ?. split_and!; [done|done|lia|done|done]. Qed.

Lemma steady_purge t cap m c : steady t cap m c → steady t cap m (purge c).
Proof.
  intros (He & _ & ? & ? & ?). split_and!; [by apply exact_purge| |done..].
  intros Hne. by destruct Hne.
Qed.

Lemma steady_step o t cap m c :
  steady t cap m c → t + 1 ≤ INT_MAX → 2 ≤ m ≤ 250 →
  ∃ c', step o c = Some c' ∧ steady (t + 1) cap m c'.
Proof.
  intros (He & Hlow & HT & Hc & Hm) Hint Hmax.
  destruct (step_sound o c He Hlow) as
    (c' & Hstep & He' & Hlow' & HT' & Hc' & Hm'); [lia|by rewrite Hm|].
  exists c'. split; [done|].
  split_and!; [done|done|lia|congruence|congruence].
Qed.

Lemma slice_defined k kc :
  0 < KHash.sliceNum_ kc ≤ INT_MAX →
  length (KHash.lfuSliceCaches_ kc) = Z.to_nat (KHash.sliceNum_ kc) →
  ∃ i c, KHash.sliceIndex Hash k kc = Some i ∧
         KHash.lfuSliceCaches_ kc !! i = Some c.
Proof.
  intros Hn Hlen. unfold KHash.sliceIndex.
  assert (to_size_t (KHash.sliceNum_ kc) = KHash.sliceNum_ kc) as ->.
  { unfold to_size_t, INT_MAX in *. apply Z.mod_small. lia. }
  rewrite bool_decide_eq_false_2 by lia.
  set (i := Z.to_nat (Hash k `mod` KHash.sliceNum_ kc)).
  assert (i < length (KHash.lfuSliceCaches_ kc))%nat as Hi.
  { rewrite Hlen. unfold i.
    pose proof (Z.mod_pos_bound (Hash k) (KHash.sliceNum_ kc)). lia. }
  apply lookup_lt_is_Some in Hi as [c Hc]. by exists i, c.
Qed.

(** An operation on a key is the same operation on the key's shard. *)
Lemma sharded_step_slice o k kc i c :
  (o = OpGet k ∨ ∃ v, o = OpPut k v) →
  KHash.sliceIndex Hash k kc = Some i →
  KHash.lfuSliceCaches_ kc !! i = Some c →
  KHash.step Hash o kc = c' ← step o c; Some (KHash.set_slice i c' kc).
Proof.
  intros [->|[v ->]] Hi Hc; simpl.
  - unfold KHash.get. rewrite Hi. simpl. rewrite Hc. simpl.
    by destruct (get k construct c) as [[[c2 found] w]|].
  - unfold KHash.put. rewrite Hi. simpl. by rewrite Hc.
Qed.

Lemma sharded_step_steady o t cap m kc :
  0 < KHash.sliceNum_ kc ≤ INT_MAX →
  length (KHash.lfuSliceCaches_ kc) = Z.to_nat (KHash.sliceNum_ kc) →
  Forall (steady t cap m) (KHash.lfuSliceCaches_ kc) →
  t + 1 ≤ INT_MAX → 2 ≤ m ≤ 250 →
  ∃ kc', KHash.step Hash o kc = Some kc' ∧
    KHash.sliceNum_ kc' = KHash.sliceNum_ kc ∧
    length (KHash.lfuSliceCaches_ kc') = length (KHash.lfuSliceCaches_ kc) ∧
    Forall (steady (t + 1) cap m) (KHash.lfuSliceCaches_ kc').
Proof.
  intros Hn Hlen Hall Hint Hmax.
  assert (Forall (steady (t + 1) cap m) (KHash.lfuSliceCaches_ kc)) as Hall'.
  { eapply Forall_impl; [exact Hall|]. intros c Hc.
    apply (steady_mono t); [done|lia]. }
  assert (∀ k, (o = OpGet k ∨ ∃ v, o = OpPut k v) →
    ∃ kc', KHash.step Hash o kc = Some kc' ∧
      KHash.sliceNum_ kc' = KHash.sliceNum_ kc ∧
      length (KHash.lfuSliceCaches_ kc') = length (KHash.lfuSliceCaches_ kc) ∧
      Forall (steady (t + 1) cap m) (KHash.lfuSliceCaches_ kc')) as Hkey.
  { intros k Ho.
    destruct (slice_defined k kc Hn Hlen) as (i & c & Hi & Hc).
    rewrite (sharded_step_slice o k kc i c Ho Hi Hc).
    destruct (steady_step o t cap m c) as (c' & -> & Hst); [|done|done|].
    { rewrite Forall_forall in Hall. apply Hall.
      by eapply list_elem_of_lookup_2. }
    simpl. eexists. split; [done|]. simpl.
    split_and!; [done|by rewrite length_insert|by apply Forall_insert]. }
  destruct o as [k v|k|].
  - apply (Hkey k). right. by exists v.
  - apply (Hkey k). by left.
  - simpl. eexists. split; [done|]. simpl.
    split_and!; [done|by rewrite length_fmap|].
    apply Forall_fmap. eapply Forall_impl; [exact Hall'|].
    intros c Hc. by apply steady_purge.
Qed.

Lemma sharded_run_steady ops t cap m kc :
  0 < KHash.sliceNum_ kc ≤ INT_MAX →
  length (KHash.lfuSliceCaches_ kc) = Z.to_nat (KHash.sliceNum_ kc) →
  Forall (steady t cap m) (KHash.lfuSliceCaches_ kc) →
  t + Z.of_nat (length ops) ≤ INT_MAX → 2 ≤ m ≤ 250 →
  ∃ kc', KHash.run Hash ops kc = Some kc' ∧
    KHash.sliceNum_ kc' = KHash.sliceNum_ kc ∧
    length (KHash.lfuSliceCaches_ kc') = length (KHash.lfuSliceCaches_ kc) ∧
    Forall (steady (t + Z.of_nat (length ops)) cap m)
           (KHash.lfuSliceCaches_ kc').
Proof.
  revert t kc. induction ops as [|o ops IH]; intros t kc Hn Hlen Hall Hint Hmax.
  - exists kc. simpl. split_and!; [done..|].
    eapply Forall_impl; [exact Hall|]. intros c Hc.
    apply (steady_mono t); [done|lia].
  - simpl in Hint. simpl length in *.
    destruct (sharded_step_steady o t cap m kc) as
      (kc1 & Hstep & Hn1 & Hlen1 & Hall1); [done|done|done|lia|done|].
    destruct (IH (t + 1) kc1) as (kc' & Hrun & Hn' & Hlen' & Hall');
      [by rewrite Hn1|by rewrite Hlen1, Hn1|done|lia|done|].
    exists kc'. simpl. rewrite Hstep. simpl.
    split_and!; [done|congruence|congruence|].
    eapply Forall_impl; [exact Hall'|]. intros c Hc.
    apply (steady_mono (t + 1 + Z.of_nat (length ops))); [done|lia].
Qed.

Lemma sum_list_bounded (l : list nat) (b : nat) :
  Forall (λ x, (x ≤ b)%nat) l → (sum_list l ≤ length l * b)%nat.
Proof. induction 1; simpl; lia. Qed.

(** X21.  A sharded cache built with a positive [sliceNum], a capacity of at
    most [INT_MAX] and a ceiling between 2 and 250 (10 by default) serves
    every sequence of up to [INT_MAX] operations, keeps its number of
    shards, and never holds more than [ceil(capacity / sliceNum)] entries in
    a shard: the whole cache holds fewer than [capacity + sliceNum]
    entries. *)
Theorem sharded_capacity_bound hardware_concurrency capacity sliceNum maxAvg
    ops :
  0 < sliceNum ≤ INT_MAX → 0 ≤ capacity ≤ INT_MAX → 2 ≤ maxAvg ≤ 250 →
  Z.of_nat (length ops) ≤ INT_MAX →
  ∃ kc,
    KHash.run Hash ops
      (KHash.KHashLfuCache_new hardware_concurrency capacity sliceNum maxAvg)
      = Some kc ∧
    length (KHash.lfuSliceCaches_ kc) = Z.to_nat sliceNum ∧
    Forall (λ c, Z.of_nat (liveCount c) ≤ KHash.sliceSize capacity sliceNum)
           (KHash.lfuSliceCaches_ kc) ∧
    Z.of_nat (KHash.liveCount kc)
      ≤ sliceNum * KHash.sliceSize capacity sliceNum ∧
    sliceNum * KHash.sliceSize capacity sliceNum < capacity + sliceNum.
Proof.
  intros Hn Hcap Hmax Hlen.
  set (size := KHash.sliceSize capacity sliceNum).
  set (kc0 := KHash.KHashLfuCache_new hardware_concurrency capacity sliceNum
                maxAvg : @KHash.KHashLfuCache Key _ _ Value).
  assert (capacity ≤ sliceNum * size < capacity + sliceNum ∧
          0 ≤ size ≤ capacity) as [Hsum Hsize].
  { unfold size, KHash.sliceSize.
    pose proof (Z.div_mod (- capacity) sliceNum) as Hdm.
    pose proof (Z.mod_pos_bound (- capacity) sliceNum) as Hmod.
    split; [nia|]. split; nia. }
  assert (to_int size = size) as Hti by (apply to_int_small; lia).
  assert (KHash.sliceNum_ kc0 = sliceNum) as HsN.
  { unfold kc0, KHash.KHashLfuCache_new. simpl.
    by rewrite bool_decide_eq_true_2 by lia. }
  assert (KHash.lfuSliceCaches_ kc0
          = replicate (Z.to_nat sliceNum) (ILfuCache_new size maxAvg)) as Hsl.
  { unfold kc0, KHash.KHashLfuCache_new. simpl.
    rewrite bool_decide_eq_true_2 by lia. fold size. by rewrite Hti. }
  destruct (sharded_run_steady ops 0 size maxAvg kc0) as
    (kc & Hrun & Hn' & Hlen' & Hall).
  { by rewrite HsN. }
  { by rewrite HsN, Hsl, length_replicate. }
  { rewrite Hsl. apply Forall_replicate.
    split_and!; [apply exact_new; lia|by intros []|done..]. }
  { lia. }
  { done. }
  rewrite Hsl, length_replicate in Hlen'.
  assert (Forall (λ c, Z.of_nat (liveCount c) ≤ size)
                 (KHash.lfuSliceCaches_ kc)) as Hbound.
  { eapply Forall_impl; [exact Hall|]. intros c (He & _ & _ & Hc & _).
    rewrite <- Hc. apply (exact_size c He). }
  exists kc. split_and!; [done|done|done| |lia].
  unfold KHash.liveCount.
  assert (sum_list (liveCount <$> KHash.lfuSliceCaches_ kc)
          ≤ length (liveCount <$> KHash.lfuSliceCaches_ kc) * Z.to_nat size)%nat
    as Hs.
  { apply sum_list_bounded, Forall_fmap.
    eapply Forall_impl; [exact Hbound|]. simpl. intros c Hc. lia. }
  rewrite length_fmap, Hlen' in Hs. nia.
Qed.

End Sharded.

(** X17.  [KHashLfuCache(capacity, sliceNum)] with a positive [sliceNum]
    builds [sliceNum] empty shards, each of capacity
    [ceil(capacity / sliceNum)], so the capacities add up to at least
    [capacity] and to less than [capacity + sliceNum]; for a capacity of at
    least 1 the cache is usable. *)
Theorem sharded_constructor hardware_concurrency capacity sliceNum maxAvg :
  0 < sliceNum ≤ INT_MAX → 0 ≤ capacity ≤ INT_MAX →
  let kc : @KHash.KHashLfuCache Key _ _ Value :=
    KHash.KHashLfuCache_new hardware_concurrency capacity sliceNum maxAvg in
  let size := KHash.sliceSize capacity sliceNum in
  KHash.sliceNum_ kc = sliceNum ∧
  KHash.lfuSliceCaches_ kc
    = replicate (Z.to_nat sliceNum) (ILfuCache_new size maxAvg) ∧
  capacity ≤ sliceNum * size < capacity + sliceNum ∧
  0 ≤ size ≤ capacity ∧
  (1 ≤ capacity → KHash.usable kc).
Proof.
  intros Hn Hcap kc size.
  assert (capacity ≤ sliceNum * size < capacity + sliceNum ∧
          0 ≤ size ≤ capacity) as [Hsum Hsize].
  { unfold size, KHash.sliceSize.
    pose proof (Z.div_mod (- capacity) sliceNum) as Hdm.
    pose proof (Z.mod_pos_bound (- capacity) sliceNum) as Hmod.
    split; [nia|]. split; nia. }
  assert (to_int size = size) as Hti by (apply to_int_small; lia).
  assert (KHash.sliceNum_ kc = sliceNum) as HsN.
  { unfold kc, KHash.KHashLfuCache_new. simpl.
    by rewrite bool_decide_eq_true_2 by lia. }
  assert (KHash.lfuSliceCaches_ kc
          = replicate (Z.to_nat sliceNum) (ILfuCache_new size maxAvg)) as Hsl.
  { unfold kc, KHash.KHashLfuCache_new. simpl.
    rewrite bool_decide_eq_true_2 by lia. fold size. by rewrite Hti. }
  split_and!; [done|done|lia|lia|lia|lia|].
  intros Hone. split_and!; [lia|lia| |].
  - by rewrite HsN, Hsl, length_replicate.
  - rewrite Hsl. apply Forall_replicate. exists size, maxAvg.
    split; [|by exists []]. nia.
Qed.

End Further.

(** * An entry that can no longer be evicted *)

Lemma crowded_run : run crowd (ILfuCache_new 1 1) = Some crowded.
Proof. vm_compute. reflexivity. Qed.

(** C6.  Capacity 1, ceiling 1: after [put(A,1)], 126 times [get(A)] and
    [put(B,2)] the cache holds the two entries A, of frequency 127, and B,
    of frequency 1.  The next [get(A)] takes the average above the ceiling
    and runs the aging pass; after it B, which was never read, is the only
    node of the bucket of [minFreq_].  Yet no sequence of [put] and [get]
    that follows removes B (four more [put]s leave six entries): the index
    holds more than [capacity_] entries, and [putInternal] evicts only when
    it holds exactly that many. *)
Theorem untouched_key_never_evicted :
  run crowd (ILfuCache_new 1 1) = Some crowded ∧
  (capacity_ crowded, liveCount crowded,
   freq <$> entry "A" crowded, freq <$> entry "B" crowded)
  = (1, 2%nat, Some 127, Some 1) ∧
  agingFires crowded ∧
  (λ c : Cache, (freq <$> entry "A" c, freq <$> entry "B" c, nodeMap_ c !! "B",
                 minFreq_ c, bucket (minFreq_ c) c)) <$>
    run [OpGet "A"] crowded
  = Some (Some 128, Some 1, Some 1%nat, 1, [1%nat]) ∧
  (λ c : Cache, (liveCount c, nodeMap_ c !! "B")) <$>
    run [OpGet "A"; OpPut "C" 3; OpPut "D" 4; OpPut "E" 5; OpPut "F" 6]
        crowded
  = Some (6%nat, Some 1%nat) ∧
  ∀ ops, purgeFree ops →
    ∃ c', run (OpGet "A" :: ops) crowded = Some c' ∧
          nodeMap_ c' !! "B" = Some 1%nat ∧ (2 ≤ liveCount c')%nat.
Proof.
  split; [exact crowded_run|].
  split; [vm_compute; reflexivity|].
  split; [vm_compute; reflexivity|].
  split; [vm_compute; reflexivity|].
  split; [vm_compute; reflexivity|].
  intros ops Hpf.
  assert (ready crowded) as Hr.
  { apply (reachable_ready 1 1 crowded); [done|]. exists crowd.
    exact crowded_run. }
  assert (0 ≤ capacity_ crowded) as Hcap by (vm_compute; discriminate).
  assert (capacity_ crowded < Z.of_nat (size (nodeMap_ crowded))) as Hover
    by (vm_compute; reflexivity).
  assert (nodeMap_ crowded !! "B" = Some 1%nat) as HB
    by (vm_compute; reflexivity).
  assert (size (nodeMap_ crowded) = 2%nat) as Hsz by (vm_compute; reflexivity).
  destruct (overrun_keeps_index (OpGet "A" :: ops) crowded Hr Hcap Hover) as
    (c' & Hrun & Hsub).
  { apply Forall_cons. split; [reflexivity|exact Hpf]. }
  exists c'. split; [exact Hrun|]. split.
  - exact (lookup_weaken _ _ _ _ HB Hsub).
  - pose proof (map_subseteq_size _ _ Hsub) as Hsize.
    unfold liveCount. rewrite Hsz in Hsize. exact Hsize.
Qed.

(** * Instances of the further properties *)

Lemma tieBroken_run : run tieBreak (ILfuCache_new 2 1000000) = Some tieBroken.
Proof. vm_compute. reflexivity. Qed.

Lemma full_run : run (take 3 tieBreak) (ILfuCache_new 2 1000000) = Some full.
Proof. vm_compute. reflexivity. Qed.

Lemma tieBreak_purgeFree : purgeFree tieBreak.
Proof. repeat constructor. Qed.

Lemma full_calm : ¬ agingFires full.
Proof. intros Hf. vm_compute in Hf. discriminate. Qed.

Lemma warm_run : run (hot 1) (ILfuCache_new 1 2) = Some warm.
Proof. vm_compute. reflexivity. Qed.

Lemma tepid_run : run (take 3 tieBreak) (ILfuCache_new 2 1) = Some tepid.
Proof. vm_compute. reflexivity. Qed.

Lemma favoured_run : run favour (ILfuCache_new 2 2) = Some favoured.
Proof. vm_compute. reflexivity. Qed.

Lemma shardsAB_usable : KHash.usable shardsAB.
Proof.
  split; [done|]. split; [done|].
  repeat constructor; exists 2, 10; (split; [done|]).
  - exists [OpPut "BB" 2]. vm_compute. reflexivity.
  - exists [OpPut "A" 1]. vm_compute. reflexivity.
Qed.

(** [put_existing_key] on the warm cache: the aging pass runs and the
    frequency of A ends at 2. *)
Lemma put_existing_key_witness :
  INT_MIN ≤ 1 ≤ INT_MAX ∧ 1 ≠ 0 ∧ 0 ≤ 2 ≤ INT_MAX ∧
  Z.of_nat (length (hot 1)) < INT_MAX ∧
  run (hot 1) (ILfuCache_new 1 2) = Some warm ∧
  nodeMap_ warm !! "A" = Some 0%nat ∧
  nodes warm !! 0%nat = Some (mkNode 2 "A" 1) ∧
  ∃ (c' : Cache) n', put "A" 5 warm = Some c' ∧
    nodeMap_ c' = nodeMap_ warm ∧ liveCount c' = liveCount warm ∧
    nodes c' !! 0%nat = Some n' ∧ key n' = "A" ∧ value n' = 5 ∧
    freq n' = 2.
Proof.
  assert (INT_MIN ≤ 1 ≤ INT_MAX) as H1 by done.
  assert (1 ≠ 0) as H2 by done.
  assert (0 ≤ 2 ≤ INT_MAX) as H2' by done.
  assert (Z.of_nat (length (hot 1)) < INT_MAX) as H2'' by done.
  assert (nodeMap_ warm !! "A" = Some 0%nat) as H3 by (vm_compute; reflexivity).
  assert (nodes warm !! 0%nat = Some (mkNode 2 "A" 1)) as H4
    by (vm_compute; reflexivity).
  split; [exact H1|]. split; [exact H2|]. split; [exact H2'|].
  split; [exact H2''|]. split; [exact warm_run|].
  split; [exact H3|]. split; [exact H4|].
  destruct (put_existing_key 1 2 (hot 1) warm "A" 5 0%nat _ H1 H2 H2' H2''
              warm_run H3 H4)
    as (c' & n' & Hput & Hm & Hc & Hn' & Hk & Hv & Hfr & _).
  exists c', n'.
  split; [exact Hput|]. split; [exact Hm|]. split; [exact Hc|].
  split; [exact Hn'|]. split; [exact Hk|]. split; [exact Hv|].
  rewrite Hfr. rewrite decide_True by (vm_compute; reflexivity). reflexivity.
Defined.

Lemma operations_defined_witness :
  0 ≤ 2 ≤ INT_MAX ∧
  (Z.of_nat (length churn) ≤ 2 ≤ INT_MAX ∨
   (2 ≤ 2 ≤ 250 ∧ Z.of_nat (length churn) ≤ INT_MAX)) ∧
  ∃ c : Cache, run churn (ILfuCache_new 2 2) = Some c ∧ ready c ∧
    capacity_ c = 2 ∧ maxAverageNum_ c = 2 ∧
    (nodeMap_ c ≠ ∅ → bucket (minFreq_ c) c ≠ []) ∧
    (∀ p n, nodes c !! p = Some n → 1 ≤ freq n ≤ Z.of_nat (length churn)) ∧
    0 ≤ curTotalNum_ c ≤ Z.of_nat (length churn) ∧
    1 ≤ minFreq_ c ≤ Z.max INT8_MAX (Z.of_nat (length churn)).
Proof.
  assert (0 ≤ 2 ≤ INT_MAX) as H1 by done.
  assert (Z.of_nat (length churn) ≤ 2 ≤ INT_MAX ∨
          (2 ≤ 2 ≤ 250 ∧ Z.of_nat (length churn) ≤ INT_MAX)) as H2
    by (right; split; done).
  split; [exact H1|]. split; [exact H2|].
  exact (operations_defined 2 2 churn H1 H2).
Defined.

Lemma entries_well_linked_witness :
  INT_MIN ≤ 2 ≤ INT_MAX ∧ reachable 2 1000000 full ∧
  nodeMap_ full !! "A" = Some 0%nat ∧
  ∃ n, nodes full !! 0%nat = Some n ∧ key n = "A" ∧ 1 ≤ freq n ∧
       (∀ f, 0%nat ∈ bucket f full ↔ f = freq n) ∧
       (∀ k', nodeMap_ full !! k' = Some 0%nat → k' = "A").
Proof.
  assert (INT_MIN ≤ 2 ≤ INT_MAX) as H1 by done.
  assert (nodeMap_ full !! "A" = Some 0%nat) as H3 by (vm_compute; reflexivity).
  split; [exact H1|]. split; [exact full_reachable|]. split; [exact H3|].
  exact (entries_well_linked 2 1000000 full "A" 0%nat H1 full_reachable H3).
Defined.

Lemma get_keeps_contents_witness :
  INT_MIN ≤ 2 ≤ INT_MAX ∧ reachable 2 1000000 full ∧
  ∃ (c' : Cache) found v, get "A" 0 full = Some (c', found, v) ∧
    nodeMap_ c' = nodeMap_ full ∧
    (∀ k', value <$> entry k' c' = value <$> entry k' full).
Proof.
  assert (INT_MIN ≤ 2 ≤ INT_MAX) as H1 by done.
  split; [exact H1|]. split; [exact full_reachable|].
  destruct (get_keeps_contents 2 1000000 full "A" 0 H1 full_reachable) as
    (c' & found & v & Hget & Hm & Hval & _).
  exists c', found, v. exact (conj Hget (conj Hm Hval)).
Defined.

Lemma get_bumps_frequency_witness :
  INT_MIN ≤ 2 ≤ INT_MAX ∧ 0 ≤ 1000000 ≤ INT_MAX ∧
  Z.of_nat (length (take 3 tieBreak)) < INT_MAX ∧
  run (take 3 tieBreak) (ILfuCache_new 2 1000000) = Some full ∧
  nodeMap_ full !! "B" = Some 1%nat ∧
  nodes full !! 1%nat = Some (mkNode 1 "B" 2) ∧ ¬ agingFires full ∧
  ∃ c' : Cache, get "B" 0 full = Some (c', true, 2) ∧
    nodes c' = <[1%nat := mkNode 2 "B" 2]> (nodes full) ∧
    bucket 2 c' = bucket 2 full ++ [1%nat] ∧
    curTotalNum_ c' = curTotalNum_ full + 1.
Proof.
  assert (INT_MIN ≤ 2 ≤ INT_MAX) as H1 by done.
  assert (0 ≤ 1000000 ≤ INT_MAX) as H2 by done.
  assert (Z.of_nat (length (take 3 tieBreak)) < INT_MAX) as H2' by done.
  assert (nodeMap_ full !! "B" = Some 1%nat) as H3 by (vm_compute; reflexivity).
  assert (nodes full !! 1%nat = Some (mkNode 1 "B" 2)) as H4
    by (vm_compute; reflexivity).
  split; [exact H1|]. split; [exact H2|]. split; [exact H2'|].
  split; [exact full_run|]. split; [exact H3|].
  split; [exact H4|]. split; [exact full_calm|].
  destruct (get_bumps_frequency 2 1000000 (take 3 tieBreak) full "B" 0 1%nat _
              H1 H2 H2' full_run H3 H4 full_calm) as
    (c' & Hget & Hn & Hb & _ & Ht & _).
  exists c'. exact (conj Hget (conj Hn (conj Hb Ht))).
Defined.

Lemma put_keeps_other_entries_witness :
  INT_MIN ≤ 2 ≤ INT_MAX ∧ 2 ≠ 0 ∧ reachable 2 1000000 full ∧
  ∃ c' : Cache, put "C" 3 full = Some c' ∧
    (∀ k', k' ≠ "C" → is_Some (nodeMap_ c' !! k') →
       is_Some (nodeMap_ full !! k') ∧
       value <$> entry k' c' = value <$> entry k' full).
Proof.
  assert (INT_MIN ≤ 2 ≤ INT_MAX) as H1 by done.
  assert (2 ≠ 0) as H2 by done.
  split; [exact H1|]. split; [exact H2|]. split; [exact full_reachable|].
  destruct (put_keeps_other_entries 2 1000000 full "C" 3 H1 H2 full_reachable)
    as (c' & Hput & Hval & _).
  exists c'. exact (conj Hput Hval).
Defined.

Lemma put_new_key_witness :
  INT_MIN ≤ 2 ≤ INT_MAX ∧ 2 ≠ 0 ∧ 0 ≤ 1000000 ∧
  reachable 2 1000000 full ∧ nodeMap_ full !! "C" = None ∧
  ∃ (c' : Cache) p n', put "C" 3 full = Some c' ∧
    nodeMap_ c' !! "C" = Some p ∧ nodes c' !! p = Some n' ∧
    key n' = "C" ∧ value n' = 3 ∧ freq n' = 1 ∧
    minFreq_ c' = 1 ∧ p ∈ bucket (minFreq_ c') c' ∧
    (liveCount c' ≤ liveCount full + 1)%nat.
Proof.
  assert (INT_MIN ≤ 2 ≤ INT_MAX) as H1 by done.
  assert (2 ≠ 0) as H2 by done.
  assert (0 ≤ 1000000) as H3 by done.
  assert (nodeMap_ full !! "C" = None) as H5 by (vm_compute; reflexivity).
  split; [exact H1|]. split; [exact H2|]. split; [exact H3|].
  split; [exact full_reachable|]. split; [exact H5|].
  exact (put_new_key 2 1000000 full "C" 3 H1 H2 H3 full_reachable H5).
Defined.

Lemma average_up_to_date_witness :
  INT_MIN ≤ 2 ≤ INT_MAX ∧ purgeFree tieBreak ∧
  run tieBreak (ILfuCache_new 2 1000000) = Some tieBroken ∧
  curAverageNum_ tieBroken = average tieBroken.
Proof.
  assert (INT_MIN ≤ 2 ≤ INT_MAX) as H1 by done.
  split; [exact H1|]. split; [exact tieBreak_purgeFree|].
  split; [exact tieBroken_run|].
  exact (proj1 (average_up_to_date 2 1000000 tieBreak tieBroken H1
                  tieBreak_purgeFree tieBroken_run)).
Defined.

Lemma capacity_bound_before_aging_witness :
  0 ≤ 2 ≤ INT_MAX ∧ Z.of_nat (length tieBreak) ≤ 1000000 ≤ INT_MAX ∧
  run tieBreak (ILfuCache_new 2 1000000) = Some tieBroken ∧
  Z.of_nat (liveCount tieBroken) ≤ 2.
Proof.
  assert (0 ≤ 2 ≤ INT_MAX) as H1 by done.
  assert (Z.of_nat (length tieBreak) ≤ 1000000 ≤ INT_MAX) as H2 by done.
  split; [exact H1|]. split; [exact H2|]. split; [exact tieBroken_run|].
  exact (capacity_bound_before_aging 2 1000000 tieBreak tieBroken H1 H2
           tieBroken_run).
Defined.

Lemma minFreq_is_least_frequency_witness :
  0 ≤ 2 ≤ INT_MAX ∧ Z.of_nat (length tieBreak) ≤ 1000000 ≤ INT_MAX ∧
  run tieBreak (ILfuCache_new 2 1000000) = Some tieBroken ∧
  liveCount tieBroken ≠ 0%nat ∧
  (∃ k n, entry k tieBroken = Some n ∧ freq n = minFreq_ tieBroken) ∧
  ∀ k n, entry k tieBroken = Some n → minFreq_ tieBroken ≤ freq n.
Proof.
  assert (0 ≤ 2 ≤ INT_MAX) as H1 by done.
  assert (Z.of_nat (length tieBreak) ≤ 1000000 ≤ INT_MAX) as H2 by done.
  assert (liveCount tieBroken ≠ 0%nat) as H4 by (vm_compute; discriminate).
  split; [exact H1|]. split; [exact H2|]. split; [exact tieBroken_run|].
  split; [exact H4|].
  exact (proj2 (minFreq_is_least_frequency 2 1000000 tieBreak tieBroken H1 H2
                  tieBroken_run) H4).
Defined.

Lemma put_evicts_least_frequent_witness :
  1 ≤ 2 ≤ INT_MAX ∧ Z.of_nat (length (take 3 tieBreak)) < 1000000 ≤ INT_MAX ∧
  run (take 3 tieBreak) (ILfuCache_new 2 1000000) = Some full ∧
  Z.of_nat (liveCount full) = 2 ∧ nodeMap_ full !! "C" = None ∧
  ∃ (c' : Cache) k0 n0, put "C" 3 full = Some c' ∧
    entry k0 full = Some n0 ∧
    (∀ k' n', entry k' full = Some n' → freq n0 ≤ freq n') ∧
    FreqList.getFirstNode (bucket (freq n0) full) = nodeMap_ full !! k0 ∧
    nodeMap_ c' = <[ "C" := length (nodes full)]> (delete k0 (nodeMap_ full)) ∧
    liveCount c' = liveCount full.
Proof.
  assert (1 ≤ 2 ≤ INT_MAX) as H1 by done.
  assert (Z.of_nat (length (take 3 tieBreak)) < 1000000 ≤ INT_MAX) as H2
    by done.
  assert (Z.of_nat (liveCount full) = 2) as H4 by (vm_compute; reflexivity).
  assert (nodeMap_ full !! "C" = None) as H5 by (vm_compute; reflexivity).
  split; [exact H1|]. split; [exact H2|]. split; [exact full_run|].
  split; [exact H4|]. split; [exact H5|].
  exact (put_evicts_least_frequent 2 1000000 (take 3 tieBreak) full "C" 3
           H1 H2 full_run H4 H5).
Defined.

Lemma total_is_sum_before_aging_witness :
  0 ≤ 2 ≤ INT_MAX ∧ Z.of_nat (length tieBreak) ≤ 1000000 ≤ INT_MAX ∧
  run tieBreak (ILfuCache_new 2 1000000) = Some tieBroken ∧
  purgeFree tieBreak ∧
  curTotalNum_ tieBroken = totalFreq tieBroken.
Proof.
  assert (0 ≤ 2 ≤ INT_MAX) as H1 by done.
  assert (Z.of_nat (length tieBreak) ≤ 1000000 ≤ INT_MAX) as H2 by done.
  split; [exact H1|]. split; [exact H2|]. split; [exact tieBroken_run|].
  split; [exact tieBreak_purgeFree|].
  exact (proj2 (proj2 (total_is_sum_before_aging 2 1000000 tieBreak tieBroken
                         H1 H2 tieBroken_run)) tieBreak_purgeFree).
Defined.

Lemma get_with_aging_witness :
  INT_MIN ≤ 2 ≤ INT_MAX ∧ 0 ≤ 2 ≤ INT_MAX ∧
  Z.of_nat (length favour) < INT_MAX ∧
  run favour (ILfuCache_new 2 2) = Some favoured ∧
  nodeMap_ favoured !! "B" = Some 1%nat ∧
  nodes favoured !! 1%nat = Some (mkNode 1 "B" 2) ∧ agingFires favoured ∧
  nodeMap_ favoured !! "A" = Some 0%nat ∧
  nodes favoured !! 0%nat = Some (mkNode 4 "A" 1) ∧
  ∃ c' : Cache, get "B" 0 favoured = Some (c', true, 2) ∧
    nodeMap_ c' = nodeMap_ favoured ∧
    (∃ nB, nodes c' !! 1%nat = Some nB ∧ key nB = "B" ∧ value nB = 2 ∧
           freq nB = 1) ∧
    (∃ nA, nodes c' !! 0%nat = Some nA ∧ key nA = "A" ∧ value nA = 1 ∧
           freq nA = 3).
Proof.
  assert (INT_MIN ≤ 2 ≤ INT_MAX) as H1 by done.
  assert (0 ≤ 2 ≤ INT_MAX) as H2 by done.
  assert (Z.of_nat (length favour) < INT_MAX) as H2' by done.
  assert (nodeMap_ favoured !! "B" = Some 1%nat) as H3
    by (vm_compute; reflexivity).
  assert (nodes favoured !! 1%nat = Some (mkNode 1 "B" 2)) as H4
    by (vm_compute; reflexivity).
  assert (agingFires favoured) as H5 by (vm_compute; reflexivity).
  assert (nodeMap_ favoured !! "A" = Some 0%nat) as H6
    by (vm_compute; reflexivity).
  assert (nodes favoured !! 0%nat = Some (mkNode 4 "A" 1)) as H7
    by (vm_compute; reflexivity).
  split; [exact H1|]. split; [exact H2|]. split; [exact H2'|].
  split; [exact favoured_run|]. split; [exact H3|]. split; [exact H4|].
  split; [exact H5|]. split; [exact H6|]. split; [exact H7|].
  destruct (get_with_aging 2 2 favour favoured "B" 0 1%nat _ H1 H2 H2'
              favoured_run H3 H4 H5) as (c' & Hget & Hm & Hall & _).
  destruct (Hall "B" 1%nat _ H3 H4) as (nB & HnB & HkB & HvB & HfB & _).
  destruct (Hall "A" 0%nat _ H6 H7) as (nA & HnA & HkA & HvA & HfA & _).
  exists c'. split; [exact Hget|]. split; [exact Hm|]. split.
  - exists nB. exact (conj HnB (conj HkB (conj HvB HfB))).
  - exists nA. exact (conj HnA (conj HkA (conj HvA HfA))).
Defined.

Lemma get_with_small_ceiling_witness :
  INT_MIN ≤ 2 ≤ INT_MAX ∧ 0 ≤ 1 ≤ 1 ∧
  Z.of_nat (length (take 3 tieBreak)) < INT_MAX ∧
  run (take 3 tieBreak) (ILfuCache_new 2 1) = Some tepid ∧
  nodeMap_ tepid !! "B" = Some 1%nat ∧
  nodes tepid !! 1%nat = Some (mkNode 1 "B" 2) ∧
  nodeMap_ tepid !! "A" = Some 0%nat ∧
  nodes tepid !! 0%nat = Some (mkNode 2 "A" 1) ∧
  agingFires tepid ∧
  ∃ c' : Cache, get "B" 0 tepid = Some (c', true, 2) ∧
    (∃ nB, nodes c' !! 1%nat = Some nB ∧ freq nB = 2) ∧
    (∃ nA, nodes c' !! 0%nat = Some nA ∧ freq nA = 2).
Proof.
  assert (INT_MIN ≤ 2 ≤ INT_MAX) as H1 by done.
  assert (0 ≤ 1 ≤ 1) as H2 by done.
  assert (Z.of_nat (length (take 3 tieBreak)) < INT_MAX) as H2' by done.
  assert (nodeMap_ tepid !! "B" = Some 1%nat) as H3
    by (vm_compute; reflexivity).
  assert (nodes tepid !! 1%nat = Some (mkNode 1 "B" 2)) as H4
    by (vm_compute; reflexivity).
  assert (nodeMap_ tepid !! "A" = Some 0%nat) as H5
    by (vm_compute; reflexivity).
  assert (nodes tepid !! 0%nat = Some (mkNode 2 "A" 1)) as H6
    by (vm_compute; reflexivity).
  assert (agingFires tepid) as H7 by (vm_compute; reflexivity).
  split; [exact H1|]. split; [exact H2|]. split; [exact H2'|].
  split; [exact tepid_run|]. split; [exact H3|]. split; [exact H4|].
  split; [exact H5|]. split; [exact H6|]. split; [exact H7|].
  destruct (get_with_small_ceiling 2 1 (take 3 tieBreak) tepid "B" 0 1%nat _
              H1 H2 H2' tepid_run H3 H4) as (c' & Hget & Hall & _).
  exists c'. split; [exact Hget|].
  destruct (Hall "B" 1%nat _ H3 H4) as (nB & HnB & HfB & _).
  destruct (Hall "A" 0%nat _ H5 H6) as (nA & HnA & HfA & _).
  split.
  - exists nB. split; [exact HnB|]. rewrite HfB. reflexivity.
  - exists nA. split; [exact HnA|]. rewrite HfA. reflexivity.
Defined.

Lemma FreqList_link_unlink_witness :
  (3%nat ∉ [1%nat; 2%nat]) ∧
  FreqList.removeNode 3 [1%nat; 2%nat] = [1%nat; 2%nat] ∧
  FreqList.removeNode 3 (FreqList.addNode 3 [1%nat; 2%nat])
    = [1%nat; 2%nat].
Proof.
  assert (3%nat ∉ [1%nat; 2%nat]) as H1.
  { intros Hin. apply elem_of_cons in Hin as [Hin|Hin]; [discriminate|].
    apply elem_of_cons in Hin as [Hin|Hin]; [discriminate|].
    by apply elem_of_nil in Hin. }
  split; [exact H1|].
  destruct (FreqList_link_unlink 3 [1%nat; 2%nat] H1) as (Ha & Hb & _).
  split; [exact Ha|exact Hb].
Defined.

Lemma sharded_operations_local_witness :
  KHash.usable shardsAB ∧
  ∃ (c c1 c2 : Cache) found w,
    KHash.sliceIndex lengthHash "A" shardsAB = Some 1%nat ∧
    KHash.lfuSliceCaches_ shardsAB !! 1%nat = Some c ∧
    put "A" 5 c = Some c1 ∧
    get "A" 0 c = Some (c2, found, w) ∧
    KHash.put lengthHash "A" 5 shardsAB
      = Some (KHash.mkSharded 4 2 (<[1%nat := c1]>
                                     (KHash.lfuSliceCaches_ shardsAB))) ∧
    KHash.get lengthHash "A" 0 shardsAB
      = Some (KHash.mkSharded 4 2 (<[1%nat := c2]>
                                     (KHash.lfuSliceCaches_ shardsAB)),
              found, w) ∧
    found = true ∧ w = 1 ∧
    (λ r, (r.1.2, r.2)) <$>
      KHash.get lengthHash "BB" 0
        (KHash.mkSharded 4 2 (<[1%nat := c1]>
                                (KHash.lfuSliceCaches_ shardsAB)))
    = Some (true, 2).
Proof.
  split; [exact shardsAB_usable|].
  destruct (sharded_operations_local lengthHash shardsAB "A" 5 0
              shardsAB_usable) as
    (c & c1 & c2 & found & w & H1 & H2 & H3 & H4 & H5 & H6 & _ & _ & H9).
  assert (KHash.sliceIndex lengthHash "BB" shardsAB
          ≠ Some (Z.to_nat (lengthHash "A" `mod` KHash.sliceNum_ shardsAB)))
    as Hother by (vm_compute; discriminate).
  specialize (H9 "BB" 0 Hother).
  assert ((λ r, (r.1.2, r.2)) <$> KHash.get lengthHash "BB" 0 shardsAB
          = Some (true, 2)) as Hbb by (vm_compute; reflexivity).
  assert (get "A" 0 c = Some (c2, found, w) → found = true ∧ w = 1) as Hfw.
  { assert (KHash.lfuSliceCaches_ shardsAB !! 1%nat
            = Some (default (ILfuCache_new 2 10)
                      (run [OpPut "A" 1] (ILfuCache_new 2 10)))) as Hc
      by (vm_compute; reflexivity).
    change (Z.to_nat (lengthHash "A" `mod` KHash.sliceNum_ shardsAB))
      with 1%nat in H2.
    rewrite Hc in H2. injection H2 as <-.
    intros Hg. vm_compute in Hg. injection Hg as _ <- <-. split; reflexivity. }
  destruct (Hfw H4) as [Hf Hw].
  exists c, c1, c2, found, w.
  exact (conj H1 (conj H2 (conj H3 (conj H4 (conj H5 (conj H6
          (conj Hf (conj Hw (eq_trans H9 Hbb))))))))).
Defined.

Lemma sharded_purge_witness :
  KHash.usable twoShards ∧
  KHash.usable (KHash.purge twoShards) ∧
  KHash.get lengthHash "A" 0 (KHash.purge twoShards)
    = Some (KHash.purge twoShards, false, 0).
Proof.
  split; [exact twoShards_usable|].
  destruct (sharded_purge lengthHash twoShards "A" 0 twoShards_usable) as
    (H1 & H2 & _).
  split; [exact H1|exact H2].
Defined.

Lemma sharded_constructor_witness :
  0 < 2 ≤ INT_MAX ∧ 0 ≤ 5 ≤ INT_MAX ∧
  KHash.lfuSliceCaches_
    (KHash.KHashLfuCache_new 8 5 2 10 : @KHash.KHashLfuCache string _ _ Z)
  = replicate 2 (ILfuCache_new 3 10) ∧
  5 ≤ 2 * KHash.sliceSize 5 2 < 5 + 2.
Proof.
  assert (0 < 2 ≤ INT_MAX) as H1 by done.
  assert (0 ≤ 5 ≤ INT_MAX) as H2 by done.
  split; [exact H1|]. split; [exact H2|].
  destruct (sharded_constructor (Key:=string) (Value:=Z) 8 5 2 10 H1 H2) as
    (_ & Hs & Hb & _).
  split; [exact Hs|exact Hb].
Defined.

Lemma churned_run : run churn (ILfuCache_new 2 2) = Some churned.
Proof. vm_compute. reflexivity. Qed.

Lemma capacity_bound_small_ceiling_witness :
  0 ≤ 2 ≤ INT_MAX ∧ 2 ≤ 2 ≤ 250 ∧ Z.of_nat (length churn) ≤ INT_MAX ∧
  run churn (ILfuCache_new 2 2) = Some churned ∧
  Z.of_nat (liveCount churned) ≤ 2 ∧
  0 ≤ totalFreq churned ≤ curTotalNum_ churned ∧
  curTotalNum_ churned ≤ Z.of_nat (length churn).
Proof.
  assert (0 ≤ 2 ≤ INT_MAX) as H1 by done.
  assert (2 ≤ 2 ≤ 250) as H2 by done.
  assert (Z.of_nat (length churn) ≤ INT_MAX) as H3 by done.
  split; [exact H1|]. split; [exact H2|]. split; [exact H3|].
  split; [exact churned_run|].
  exact (capacity_bound_small_ceiling 2 2 churn churned H1 H2 H3 churned_run).
Defined.

Lemma minFreq_small_ceiling_witness :
  0 ≤ 2 ≤ INT_MAX ∧ 2 ≤ 2 ≤ 250 ∧ Z.of_nat (length churn) ≤ INT_MAX ∧
  run churn (ILfuCache_new 2 2) = Some churned ∧
  liveCount churned ≠ 0%nat ∧
  (∃ k n, entry k churned = Some n ∧ freq n = minFreq_ churned) ∧
  (∀ k n, entry k churned = Some n → minFreq_ churned ≤ freq n) ∧
  minFreq_ churned ≤ 2.
Proof.
  assert (0 ≤ 2 ≤ INT_MAX) as H1 by done.
  assert (2 ≤ 2 ≤ 250) as H2 by done.
  assert (Z.of_nat (length churn) ≤ INT_MAX) as H3 by done.
  assert (liveCount churned ≠ 0%nat) as H5 by (vm_compute; discriminate).
  split; [exact H1|]. split; [exact H2|]. split; [exact H3|].
  split; [exact churned_run|]. split; [exact H5|].
  exact (proj2 (minFreq_small_ceiling 2 2 churn churned H1 H2 H3 churned_run)
           H5).
Defined.


Lemma sharded_capacity_bound_witness :
  0 < 2 ≤ INT_MAX ∧ 0 ≤ 5 ≤ INT_MAX ∧ 2 ≤ 10 ≤ 250 ∧
  Z.of_nat (length tieBreak) ≤ INT_MAX ∧
  ∃ kc : @KHash.KHashLfuCache string _ _ Z,
    KHash.run lengthHash tieBreak (KHash.KHashLfuCache_new 8 5 2 10)
      = Some kc ∧
    length (KHash.lfuSliceCaches_ kc) = Z.to_nat 2 ∧
    Forall (λ c, Z.of_nat (liveCount c) ≤ KHash.sliceSize 5 2)
           (KHash.lfuSliceCaches_ kc) ∧
    Z.of_nat (KHash.liveCount kc) ≤ 2 * KHash.sliceSize 5 2 ∧
    2 * KHash.sliceSize 5 2 < 5 + 2.
Proof.
  assert (0 < 2 ≤ INT_MAX) as H1 by done.
  assert (0 ≤ 5 ≤ INT_MAX) as H2 by done.
  assert (2 ≤ 10 ≤ 250) as H3 by done.
  assert (Z.of_nat (length tieBreak) ≤ INT_MAX) as H4 by done.
  split; [exact H1|]. split; [exact H2|]. split; [exact H3|].
  split; [exact H4|].
  exact (sharded_capacity_bound lengthHash 8 5 2 10 tieBreak H1 H2 H3 H4).
Defined.

(** The bound 250 on the ceiling cannot be raised.  With a ceiling of 251
    and capacity 1, [put(A,1)] and 251 times [get(A)] take the entry to
    frequency 252 and run the aging pass, which leaves it at
    252 - 251/2 = 127 = [INT8_MAX]; [updateMinFreq] then resets [minFreq_]
    to 1, the next [put] of a new key finds bucket 1 empty and evicts
    nothing, and two entries are cached. *)
Lemma ceiling_251_overrun :
  liveCount <$> run overheat (ILfuCache_new 1 251) = Some 2%nat.
Proof. vm_compute. reflexivity. Qed.
